(** * Paws & Preferences: deck readiness and image cache of [App.tsx]

    A shallow embedding of the [App] component of [src/App.tsx]: its React
    state, its three refs, the browser resources it drives (timeouts and
    object URLs) and the closures of its prefetch effect.  Every handler and
    effect of the component is a function on [State]; asynchronous jobs are
    resumed by explicit events, one per promise that settles.

    An event (a click or a swipe, a timeout coming due, a promise settling)
    is one task of the event loop.  Its handler runs on the state committed
    by the task before it; the state updates it queues are applied in order,
    and the effects whose dependencies changed have run when the next task
    starts.  Setters are therefore plain field updates, applied in program
    order, and [step] below is a handler followed by those effects. *)

From stdpp Require Import gmap strings list fin_maps pretty.
From Stdlib Require Import ZArith.

Open Scope string_scope.
Open Scope list_scope.
Open Scope nat_scope.
Open Scope stdpp_scope.

(** ** Data *)

(** [type CatCard = { id: string; url: string }] *)
Record CatCard := { id : string; url : string }.

Definition TOTAL_CATS : nat := 12.
Definition SWIPE_ANIMATION_MS : nat := 240.
Definition INITIAL_READY_COUNT : nat := 3.

(** [generateDeck(count)].  The deck identifier ([crypto.randomUUID()], or the
    time and random composite) is drawn by the environment, so it is an
    argument here. *)
Definition generateDeck (deckId : string) (count : nat) : list CatCard :=
  (λ index : nat,
     {| id := deckId +:+ "-" +:+ pretty index;
        url := "https://cataas.com/cat?width=560&height=720&format=jpg&deck="
                 +:+ deckId +:+ "-" +:+ pretty index |}) <$> seq 0 count.

(** ['left' | 'right'] *)
Inductive Direction := DirLeft | DirRight.

(** What a JavaScript exception carries in this component. *)
Inductive Error :=
  | NetworkError                 (* [fetch] rejected *)
  | ErrorMsg (message : string)  (* [new Error(message)] *)
  | BodyError.                   (* [response.blob()] rejected *)

(** The promise of one [async (cat) => ...] job of [fetchJobs]. *)
Inductive Phase :=
  | AwaitFetch           (* suspended at [await fetch(url)] *)
  | AwaitBlob            (* suspended at [await response.blob()] *)
  | Resolved             (* the job returned *)
  | Rejected (e : Error) (* the job threw *).

Record Job := { jobUrl : string; phase : Phase }.

(** The closure of one run of the prefetch effect: its [cancelled] flag and
    its [fetchJobs]. *)
Record Pass := { cancelled : bool; fetchJobs : list Job }.

(** The component: React state ([cats] .. [version]), refs ([timeoutRef],
    [imagePool] for [imagePoolRef.current], [inFlight] for
    [inFlightRef.current]), the browser's pending timeouts and live object
    URLs, and the prefetch closures created so far, oldest first. *)
Record State := {
  cats : list CatCard;
  activeIndex : nat;
  liked : list CatCard;
  swipeDirection : option Direction;
  dragX : Z;
  isAnimating : bool;
  isDeckReady : bool;
  readyCount : nat;
  version : nat;
  timeoutRef : option nat;
  imagePool : gmap string string;
  inFlight : gset string;
  timers : gmap nat (Direction * CatCard);
  timerSeq : nat;
  objectUrls : gset string;
  objectSeq : nat;
  passes : list Pass
}.

(** Field updates, one per field. *)
Definition upd_cats (f : list CatCard → list CatCard) (s : State) : State :=
  {| cats := f (cats s); activeIndex := activeIndex s; liked := liked s;
     swipeDirection := swipeDirection s; dragX := dragX s;
     isAnimating := isAnimating s; isDeckReady := isDeckReady s;
     readyCount := readyCount s; version := version s;
     timeoutRef := timeoutRef s; imagePool := imagePool s;
     inFlight := inFlight s; timers := timers s; timerSeq := timerSeq s;
     objectUrls := objectUrls s; objectSeq := objectSeq s;
     passes := passes s |}.

Definition upd_activeIndex (f : nat → nat) (s : State) : State :=
  {| cats := cats s; activeIndex := f (activeIndex s); liked := liked s;
     swipeDirection := swipeDirection s; dragX := dragX s;
     isAnimating := isAnimating s; isDeckReady := isDeckReady s;
     readyCount := readyCount s; version := version s;
     timeoutRef := timeoutRef s; imagePool := imagePool s;
     inFlight := inFlight s; timers := timers s; timerSeq := timerSeq s;
     objectUrls := objectUrls s; objectSeq := objectSeq s;
     passes := passes s |}.

Definition upd_liked (f : list CatCard → list CatCard) (s : State) : State :=
  {| cats := cats s; activeIndex := activeIndex s; liked := f (liked s);
     swipeDirection := swipeDirection s; dragX := dragX s;
     isAnimating := isAnimating s; isDeckReady := isDeckReady s;
     readyCount := readyCount s; version := version s;
     timeoutRef := timeoutRef s; imagePool := imagePool s;
     inFlight := inFlight s; timers := timers s; timerSeq := timerSeq s;
     objectUrls := objectUrls s; objectSeq := objectSeq s;
     passes := passes s |}.

Definition upd_swipeDirection (f : option Direction → option Direction) (s : State) : State :=
  {| cats := cats s; activeIndex := activeIndex s; liked := liked s;
     swipeDirection := f (swipeDirection s); dragX := dragX s;
     isAnimating := isAnimating s; isDeckReady := isDeckReady s;
     readyCount := readyCount s; version := version s;
     timeoutRef := timeoutRef s; imagePool := imagePool s;
     inFlight := inFlight s; timers := timers s; timerSeq := timerSeq s;
     objectUrls := objectUrls s; objectSeq := objectSeq s;
     passes := passes s |}.

Definition upd_dragX (f : Z → Z) (s : State) : State :=
  {| cats := cats s; activeIndex := activeIndex s; liked := liked s;
     swipeDirection := swipeDirection s; dragX := f (dragX s);
     isAnimating := isAnimating s; isDeckReady := isDeckReady s;
     readyCount := readyCount s; version := version s;
     timeoutRef := timeoutRef s; imagePool := imagePool s;
     inFlight := inFlight s; timers := timers s; timerSeq := timerSeq s;
     objectUrls := objectUrls s; objectSeq := objectSeq s;
     passes := passes s |}.

Definition upd_isAnimating (f : bool → bool) (s : State) : State :=
  {| cats := cats s; activeIndex := activeIndex s; liked := liked s;
     swipeDirection := swipeDirection s; dragX := dragX s;
     isAnimating := f (isAnimating s); isDeckReady := isDeckReady s;
     readyCount := readyCount s; version := version s;
     timeoutRef := timeoutRef s; imagePool := imagePool s;
     inFlight := inFlight s; timers := timers s; timerSeq := timerSeq s;
     objectUrls := objectUrls s; objectSeq := objectSeq s;
     passes := passes s |}.

Definition upd_isDeckReady (f : bool → bool) (s : State) : State :=
  {| cats := cats s; activeIndex := activeIndex s; liked := liked s;
     swipeDirection := swipeDirection s; dragX := dragX s;
     isAnimating := isAnimating s; isDeckReady := f (isDeckReady s);
     readyCount := readyCount s; version := version s;
     timeoutRef := timeoutRef s; imagePool := imagePool s;
     inFlight := inFlight s; timers := timers s; timerSeq := timerSeq s;
     objectUrls := objectUrls s; objectSeq := objectSeq s;
     passes := passes s |}.

Definition upd_readyCount (f : nat → nat) (s : State) : State :=
  {| cats := cats s; activeIndex := activeIndex s; liked := liked s;
     swipeDirection := swipeDirection s; dragX := dragX s;
     isAnimating := isAnimating s; isDeckReady := isDeckReady s;
     readyCount := f (readyCount s); version := version s;
     timeoutRef := timeoutRef s; imagePool := imagePool s;
     inFlight := inFlight s; timers := timers s; timerSeq := timerSeq s;
     objectUrls := objectUrls s; objectSeq := objectSeq s;
     passes := passes s |}.

Definition upd_version (f : nat → nat) (s : State) : State :=
  {| cats := cats s; activeIndex := activeIndex s; liked := liked s;
     swipeDirection := swipeDirection s; dragX := dragX s;
     isAnimating := isAnimating s; isDeckReady := isDeckReady s;
     readyCount := readyCount s; version := f (version s);
     timeoutRef := timeoutRef s; imagePool := imagePool s;
     inFlight := inFlight s; timers := timers s; timerSeq := timerSeq s;
     objectUrls := objectUrls s; objectSeq := objectSeq s;
     passes := passes s |}.

Definition upd_timeoutRef (f : option nat → option nat) (s : State) : State :=
  {| cats := cats s; activeIndex := activeIndex s; liked := liked s;
     swipeDirection := swipeDirection s; dragX := dragX s;
     isAnimating := isAnimating s; isDeckReady := isDeckReady s;
     readyCount := readyCount s; version := version s;
     timeoutRef := f (timeoutRef s); imagePool := imagePool s;
     inFlight := inFlight s; timers := timers s; timerSeq := timerSeq s;
     objectUrls := objectUrls s; objectSeq := objectSeq s;
     passes := passes s |}.

Definition upd_imagePool (f : gmap string string → gmap string string) (s : State) : State :=
  {| cats := cats s; activeIndex := activeIndex s; liked := liked s;
     swipeDirection := swipeDirection s; dragX := dragX s;
     isAnimating := isAnimating s; isDeckReady := isDeckReady s;
     readyCount := readyCount s; version := version s;
     timeoutRef := timeoutRef s; imagePool := f (imagePool s);
     inFlight := inFlight s; timers := timers s; timerSeq := timerSeq s;
     objectUrls := objectUrls s; objectSeq := objectSeq s;
     passes := passes s |}.

Definition upd_inFlight (f : gset string → gset string) (s : State) : State :=
  {| cats := cats s; activeIndex := activeIndex s; liked := liked s;
     swipeDirection := swipeDirection s; dragX := dragX s;
     isAnimating := isAnimating s; isDeckReady := isDeckReady s;
     readyCount := readyCount s; version := version s;
     timeoutRef := timeoutRef s; imagePool := imagePool s;
     inFlight := f (inFlight s); timers := timers s; timerSeq := timerSeq s;
     objectUrls := objectUrls s; objectSeq := objectSeq s;
     passes := passes s |}.

Definition upd_timers (f : gmap nat (Direction * CatCard) → gmap nat (Direction * CatCard)) (s : State) : State :=
  {| cats := cats s; activeIndex := activeIndex s; liked := liked s;
     swipeDirection := swipeDirection s; dragX := dragX s;
     isAnimating := isAnimating s; isDeckReady := isDeckReady s;
     readyCount := readyCount s; version := version s;
     timeoutRef := timeoutRef s; imagePool := imagePool s;
     inFlight := inFlight s; timers := f (timers s); timerSeq := timerSeq s;
     objectUrls := objectUrls s; objectSeq := objectSeq s;
     passes := passes s |}.

Definition upd_timerSeq (f : nat → nat) (s : State) : State :=
  {| cats := cats s; activeIndex := activeIndex s; liked := liked s;
     swipeDirection := swipeDirection s; dragX := dragX s;
     isAnimating := isAnimating s; isDeckReady := isDeckReady s;
     readyCount := readyCount s; version := version s;
     timeoutRef := timeoutRef s; imagePool := imagePool s;
     inFlight := inFlight s; timers := timers s; timerSeq := f (timerSeq s);
     objectUrls := objectUrls s; objectSeq := objectSeq s;
     passes := passes s |}.

Definition upd_objectUrls (f : gset string → gset string) (s : State) : State :=
  {| cats := cats s; activeIndex := activeIndex s; liked := liked s;
     swipeDirection := swipeDirection s; dragX := dragX s;
     isAnimating := isAnimating s; isDeckReady := isDeckReady s;
     readyCount := readyCount s; version := version s;
     timeoutRef := timeoutRef s; imagePool := imagePool s;
     inFlight := inFlight s; timers := timers s; timerSeq := timerSeq s;
     objectUrls := f (objectUrls s); objectSeq := objectSeq s;
     passes := passes s |}.

Definition upd_objectSeq (f : nat → nat) (s : State) : State :=
  {| cats := cats s; activeIndex := activeIndex s; liked := liked s;
     swipeDirection := swipeDirection s; dragX := dragX s;
     isAnimating := isAnimating s; isDeckReady := isDeckReady s;
     readyCount := readyCount s; version := version s;
     timeoutRef := timeoutRef s; imagePool := imagePool s;
     inFlight := inFlight s; timers := timers s; timerSeq := timerSeq s;
     objectUrls := objectUrls s; objectSeq := f (objectSeq s);
     passes := passes s |}.

Definition upd_passes (f : list Pass → list Pass) (s : State) : State :=
  {| cats := cats s; activeIndex := activeIndex s; liked := liked s;
     swipeDirection := swipeDirection s; dragX := dragX s;
     isAnimating := isAnimating s; isDeckReady := isDeckReady s;
     readyCount := readyCount s; version := version s;
     timeoutRef := timeoutRef s; imagePool := imagePool s;
     inFlight := inFlight s; timers := timers s; timerSeq := timerSeq s;
     objectUrls := objectUrls s; objectSeq := objectSeq s;
     passes := f (passes s) |}.


(** ** Browser resources *)

(** [window.setTimeout(callback, SWIPE_ANIMATION_MS)].  The only callback of
    the component closes over [direction] and [chosenCat], which is what the
    timer table stores. *)
Definition setTimeout (closure : Direction * CatCard) (s : State) : nat * State :=
  (timerSeq s, upd_timerSeq S (upd_timers (insert (timerSeq s) closure) s)).

(** [window.clearTimeout(handle)]; [undefined] and stale handles are ignored. *)
Definition clearTimeout (handle : option nat) (s : State) : State :=
  match handle with
  | Some t => upd_timers (delete t) s
  | None => s
  end.

(** [URL.createObjectURL(blob)]: a fresh URL of scheme [blob:], live until it
    is revoked. *)
Definition createObjectURL (s : State) : string * State :=
  let objectUrl := "blob:" +:+ pretty (objectSeq s) in
  (objectUrl, upd_objectSeq S (upd_objectUrls (union {[objectUrl]}) s)).

(** [URL.revokeObjectURL(objectUrl)]; revoking an unknown URL does nothing. *)
Definition revokeObjectURL (objectUrl : string) (s : State) : State :=
  upd_objectUrls (λ live, live ∖ {[objectUrl]}) s.

(** [value.startsWith(prefix)] *)
Definition startsWith (prefix value : string) : bool := String.prefix prefix value.

(** ** The image pool *)

(** The callback of [imagePoolRef.current.forEach] in [releasePool]. *)
Definition releaseEntry (objectUrl : string) (s : State) : State :=
  if startsWith "blob:" objectUrl then revokeObjectURL objectUrl s else s.

Definition releasePool (s : State) : State :=
  let s1 := map_fold (λ _ objectUrl, releaseEntry objectUrl) s (imagePool s) in
  let s2 := upd_imagePool (λ _, ∅) s1 in
  upd_inFlight (λ _, ∅) s2.

(** ** Derived values of a render *)

(** [cats[activeIndex]], [undefined] past the end of the deck. *)
Definition currentCat (s : State) : option CatCard := cats s !! activeIndex s.

Definition isComplete (s : State) : bool := (length (cats s) <=? activeIndex s)%nat.

(** The three screens of the JSX: the loading notice, the card stack, the
    summary. *)
Inductive Screen := loading | browsing | summary.

Definition screen (s : State) : Screen :=
  if negb (isDeckReady s) then loading
  else if negb (isComplete s) then browsing
  else summary.

(** ** Classification *)

(** The callback handed to [setTimeout] by [handleChoice]. *)
Definition commitChoice (closure : Direction * CatCard) (s : State) : State :=
  let '(direction, chosenCat) := closure in
  let s1 := upd_activeIndex (λ index, index + 1) s in
  let s2 := match direction with
            | DirRight => upd_liked (λ prev, prev ++ [chosenCat]) s1
            | DirLeft => s1
            end in
  let s3 := upd_swipeDirection (λ _, None) s2 in
  let s4 := upd_dragX (λ _, 0%Z) s3 in
  let s5 := upd_isAnimating (λ _, false) s4 in
  upd_timeoutRef (λ _, None) s5.

Definition handleChoice (direction : Direction) (s : State) : State :=
  match currentCat s with
  | None => s
  | Some chosenCat =>
      if isAnimating s || negb (isDeckReady s) then s
      else
        let s1 := upd_swipeDirection (λ _, Some direction) s in
        let s2 := upd_isAnimating (λ _, true) s1 in
        let s3 := clearTimeout (timeoutRef s2) s2 in
        let '(t, s4) := setTimeout (direction, chosenCat) s3 in
        upd_timeoutRef (λ _, Some t) s4
  end.

(** A timeout of the browser comes due: it leaves the timer table and its
    callback runs.  A handle that is not pending never fires. *)
Definition fireTimer (t : nat) (s : State) : State :=
  match timers s !! t with
  | Some closure => commitChoice closure (upd_timers (delete t) s)
  | None => s
  end.

(** [onSwiping] and [onSwiped] of [useSwipeable]. *)
Definition onSwiping (deltaX : Z) (dirLeft : bool) (s : State) : State :=
  match currentCat s with
  | None => s
  | Some _ =>
      if isAnimating s then s
      else upd_dragX (λ _, if dirLeft then (- Z.abs deltaX)%Z else Z.abs deltaX) s
  end.

Definition onSwiped (s : State) : State :=
  match swipeDirection s with
  | None => upd_dragX (λ _, 0%Z) s
  | Some _ => s
  end.

(** ** Reset *)

Definition resetDeck (deckId : string) (s : State) : State :=
  let s1 := clearTimeout (timeoutRef s) s in
  let s2 := releasePool s1 in
  let s3 := upd_cats (λ _, generateDeck deckId TOTAL_CATS) s2 in
  let s4 := upd_activeIndex (λ _, 0) s3 in
  let s5 := upd_liked (λ _, []) s4 in
  let s6 := upd_swipeDirection (λ _, None) s5 in
  let s7 := upd_dragX (λ _, 0%Z) s6 in
  let s8 := upd_isAnimating (λ _, false) s7 in
  let s9 := upd_isDeckReady (λ _, false) s8 in
  let s10 := upd_readyCount (λ _, 0) s9 in
  upd_timeoutRef (λ _, None) s10.

(** ** Statements that may throw *)

(** How a block of statements ends: normally with a value, or by a thrown
    exception. *)
Inductive Completion (A : Type) :=
  | Normal (a : A)
  | Throw (e : Error).
Arguments Normal {A} a.
Arguments Throw {A} e.

(** A block of statements: it transforms the component and completes. *)
Definition Eff (A : Type) : Type := State → State * Completion A.

Definition ret {A} (a : A) : Eff A := λ s, (s, Normal a).

Definition throw {A} (e : Error) : Eff A := λ s, (s, Throw e).

Definition bind {A B} (c : Eff A) (k : A → Eff B) : Eff B :=
  λ s, match c s with
       | (s1, Normal a) => k a s1
       | (s1, Throw e) => (s1, Throw e)
       end.

(** A statement that cannot throw. *)
Definition exec (f : State → State) : Eff unit := λ s, (f s, Normal tt).

Notation "x <~ c ;; k" := (bind c (λ x, k))
  (at level 100, c at next level, right associativity).
Notation "c ;;; k" := (bind c (λ _, k))
  (at level 100, right associativity).

(** A job suspended at an [await] has left neither its [try] block nor the
    function. *)
Definition suspended (ph : Phase) : bool :=
  match ph with
  | AwaitFetch | AwaitBlob => true
  | Resolved | Rejected _ => false
  end.

(** [try { body } catch { handler } finally { fin }], where [body] either
    runs to its end, throws, or stops at an [await] inside the [try] block (in
    which case neither [catch] nor [finally] runs yet). *)
Definition tryCatchFinally (body : Eff Phase) (handler fin : Eff unit) : Eff Phase :=
  λ s, match body s with
       | (s1, Normal ph) =>
           if suspended ph then (s1, Normal ph)
           else match fin s1 with
                | (s2, Normal _) => (s2, Normal ph)
                | (s2, Throw e) => (s2, Throw e)
                end
       | (s1, Throw _) =>
           match handler s1 with
           | (s2, Normal _) =>
               match fin s2 with
               | (s3, Normal _) => (s3, Normal Resolved)
               | (s3, Throw e) => (s3, Throw e)
               end
           | (s2, Throw e) =>
               match fin s2 with
               | (s3, Normal _) => (s3, Throw e)
               | (s3, Throw e') => (s3, Throw e')
               end
           end
       end.

(** An [async] function turns the completion of its body into the state of
    its promise. *)
Definition settlePromise (c : Completion Phase) : Phase :=
  match c with
  | Normal ph => ph
  | Throw e => Rejected e
  end.

(** ** The prefetch effect *)

(** The [cancelled] variable of the closure of run [g]. *)
Definition passCancelled (g : nat) (s : State) : bool :=
  match passes s !! g with
  | Some p => cancelled p
  | None => true
  end.

Definition readCancelled (g : nat) : Eff bool := λ s, (s, Normal (passCancelled g s)).

Definition cacheHas (url : string) : Eff bool :=
  λ s, (s, Normal (bool_decide (is_Some (imagePool s !! url)))).

Definition cacheSet (url value : string) : Eff unit :=
  exec (upd_imagePool (insert url value)).

Definition forceRerender : Eff unit := exec (upd_version (λ version, version + 1)).

Definition countReady : Eff unit := exec (upd_readyCount (λ count, count + 1)).

(** What the promise of [fetch(url)] settles to: a rejection, or a response
    with its [ok] flag. *)
Inductive FetchResult := FetchRejected | FetchResponse (ok : bool).

(** What the promise of [response.blob()] settles to. *)
Inductive BlobResult := BlobRejected | BlobReady.

(** The job of one card, from its start to its first [await]. *)
Definition startJob (g : nat) (cat : CatCard) : Eff Phase :=
  let url := url cat in
  hit <~ cacheHas url ;;
  if bool_decide (url = "") || hit then
    c <~ readCancelled g ;;
    (if negb c then countReady else ret tt) ;;;
    ret Resolved
  else
    exec (upd_inFlight (union {[url]})) ;;;
    ret AwaitFetch.

(** The [try] block resumed with the outcome of [fetch(url)], up to
    [await response.blob()]. *)
Definition tryAfterFetch (r : FetchResult) : Eff Phase :=
  match r with
  | FetchRejected => throw NetworkError
  | FetchResponse ok =>
      if negb ok then throw (ErrorMsg "Failed to fetch cat image")
      else ret AwaitBlob
  end.

(** The [try] block resumed with the outcome of [response.blob()]. *)
Definition tryAfterBlob (g : nat) (url : string) (r : BlobResult) : Eff Phase :=
  match r with
  | BlobRejected => throw BodyError
  | BlobReady =>
      c <~ readCancelled g ;;
      (if negb c then
         objectUrl <~ (λ s, let '(u, s1) := createObjectURL s in (s1, Normal u)) ;;
         cacheSet url objectUrl ;;;
         forceRerender
       else ret tt) ;;;
      ret Resolved
  end.

Definition catchBlock (g : nat) (url : string) : Eff unit :=
  c <~ readCancelled g ;;
  if negb c then cacheSet url url ;;; forceRerender else ret tt.

Definition finallyBlock (g : nat) (url : string) : Eff unit :=
  exec (upd_inFlight (λ pending, pending ∖ {[url]})) ;;;
  c <~ readCancelled g ;;
  if negb c then countReady else ret tt.

(** The job resumed when [fetch(url)] settles, and when [response.blob()]
    settles. *)
Definition afterFetch (g : nat) (url : string) (r : FetchResult) : Eff Phase :=
  tryCatchFinally (tryAfterFetch r) (catchBlock g url) (finallyBlock g url).

Definition afterBlob (g : nat) (url : string) (r : BlobResult) : Eff Phase :=
  tryCatchFinally (tryAfterBlob g url r) (catchBlock g url) (finallyBlock g url).

Definition isResolved (j : Job) : bool :=
  match phase j with
  | Resolved => true
  | _ => false
  end.

Definition withPhase (ph : Phase) (j : Job) : Job :=
  {| jobUrl := jobUrl j; phase := ph |}.

Definition withJobs (f : list Job → list Job) (p : Pass) : Pass :=
  {| cancelled := cancelled p; fetchJobs := f (fetchJobs p) |}.

(** The promise of job [i] of run [g] moves to [ph]. *)
Definition setPhase (g i : nat) (ph : Phase) (s : State) : State :=
  upd_passes (alter (withJobs (alter (withPhase ph) i)) g) s.

Definition jobAt (g i : nat) (s : State) : option Job :=
  p ← passes s !! g; fetchJobs p !! i.

(** [const fetchJobs = ...] in the closure of run [g]. *)
Definition setJobs (g : nat) (jobs : list Job) (s : State) : State :=
  upd_passes (alter (withJobs (λ _, jobs)) g) s.

(** The rest of [loadDeck] after [await Promise.all(fetchJobs)]: it runs once
    every job of the run has resolved, and never if one rejected. *)
Definition afterAll (g : nat) (s : State) : State :=
  match passes s !! g with
  | Some p =>
      if forallb isResolved (fetchJobs p) && negb (cancelled p)
      then upd_isDeckReady (λ _, true) s
      else s
  | None => s
  end.

(** [cats.map(async (cat) => ...)]: every job runs to its first [await], in
    deck order. *)
Fixpoint mapJobs (g : nat) (deck : list CatCard) (s : State) : State * list Job :=
  match deck with
  | [] => (s, [])
  | cat :: rest =>
      let '(s1, c) := startJob g cat s in
      let '(s2, jobs) := mapJobs g rest s1 in
      (s2, {| jobUrl := url cat; phase := settlePromise c |} :: jobs)
  end.

Definition loadDeck (g : nat) (s : State) : State :=
  let '(s1, jobs) := mapJobs g (cats s) s in
  afterAll g (setJobs g jobs s1).

(** The body of the effect on [[cats]]; run [g] is the one being created. *)
Definition prefetchEffect (s : State) : State :=
  let g := length (passes s) in
  let s1 := upd_passes (λ ps, ps ++ [{| cancelled := false; fetchJobs := [] |}]) s in
  let s2 := upd_isDeckReady (λ _, false) s1 in
  let s3 := upd_readyCount (λ _, 0) s2 in
  if 0 <? length (cats s3) then loadDeck g s3
  else upd_isDeckReady (λ _, true) s3.

(** The cleanup of the effect, [cancelled = true], for the latest run. *)
Definition prefetchCleanup (s : State) : State :=
  upd_passes
    (alter (λ p, {| cancelled := true; fetchJobs := fetchJobs p |})
           (pred (length (passes s)))) s.

(** The effect on [[readyCount, cats.length, isDeckReady]].  Its body reads
    nothing but its dependencies, so running it after every commit is the same
    as running it when one of them changed. *)
Definition thresholdEffect (s : State) : State :=
  let threshold := Nat.min INITIAL_READY_COUNT (length (cats s)) in
  if negb (isDeckReady s) && (0 <? threshold) && (threshold <=? readyCount s)
  then upd_isDeckReady (λ _, true) s
  else s.

(** The promise of a job settles. *)
Definition fetchSettled (g i : nat) (r : FetchResult) (s : State) : State :=
  match jobAt g i s with
  | Some {| jobUrl := url; phase := AwaitFetch |} =>
      let '(s1, c) := afterFetch g url r s in
      afterAll g (setPhase g i (settlePromise c) s1)
  | _ => s
  end.

Definition blobSettled (g i : nat) (r : BlobResult) (s : State) : State :=
  match jobAt g i s with
  | Some {| jobUrl := url; phase := AwaitBlob |} =>
      let '(s1, c) := afterBlob g url r s in
      afterAll g (setPhase g i (settlePromise c) s1)
  | _ => s
  end.

(** ** The component as a transition system *)

Inductive Event :=
  | Choice (direction : Direction)        (* a button or a completed swipe *)
  | Swiping (deltaX : Z) (dirLeft : bool)
  | Swiped
  | TimerFired (t : nat)
  | StartOver (deckId : string)           (* the reset button *)
  | FetchSettled (g i : nat) (r : FetchResult)
  | BlobSettled (g i : nat) (r : BlobResult).

(** [resetDeck] followed by the effect it triggers: only [resetDeck] replaces
    [cats], so only here does the prefetch effect run again, after the cleanup
    of its previous run. *)
Definition startOver (deckId : string) (s : State) : State :=
  prefetchEffect (prefetchCleanup (resetDeck deckId s)).

(** The handler of an event, followed by the effects whose dependencies it
    changed.  The reset button is rendered in the summary section only. *)
Definition handle (e : Event) (s : State) : State :=
  match e with
  | Choice direction => handleChoice direction s
  | Swiping deltaX dirLeft => onSwiping deltaX dirLeft s
  | Swiped => onSwiped s
  | TimerFired t => fireTimer t s
  | StartOver deckId =>
      match screen s with
      | summary => startOver deckId s
      | _ => s
      end
  | FetchSettled g i r => fetchSettled g i r s
  | BlobSettled g i r => blobSettled g i r s
  end.

Definition step (s : State) (e : Event) : State := thresholdEffect (handle e s).

Definition run (s : State) (es : list Event) : State := foldl step s es.

(** The [useState] and [useRef] initial values, for a deck [deck]. *)
Definition initial (deck : list CatCard) : State :=
  {| cats := deck; activeIndex := 0; liked := []; swipeDirection := None;
     dragX := 0%Z; isAnimating := false; isDeckReady := false; readyCount := 0;
     version := 0; timeoutRef := None; imagePool := ∅; inFlight := ∅;
     timers := ∅; timerSeq := 0; objectUrls := ∅; objectSeq := 0; passes := [] |}.

(** The first render and its effects. *)
Definition mount (deck : list CatCard) : State :=
  thresholdEffect (prefetchEffect (initial deck)).

(** [App] itself starts from [generateDeck(TOTAL_CATS)]. *)
Definition App (deckId : string) : State := mount (generateDeck deckId TOTAL_CATS).

Inductive reachable (deck : list CatCard) : State → Prop :=
  | reachable_mount : reachable deck (mount deck)
  | reachable_step s e : reachable deck s → reachable deck (step s e).

(** The unmount cleanups, in the order of the effects. *)
Definition unmount (s : State) : State :=
  let s1 := clearTimeout (timeoutRef s) s in
  let s2 := upd_timeoutRef (λ _, None) s1 in
  let s3 := releasePool s2 in
  prefetchCleanup s3.

(** Modelled from the spec: [release(url)] of the Image Cache.  The source has
    no function of that name; what it does to one entry is the [forEach]
    callback of [releasePool], [releaseEntry] above, which this applies to the
    value stored under [url], if any. *)
Definition release (url : string) (s : State) : State :=
  match imagePool s !! url with
  | Some value => releaseEntry value s
  | None => s
  end.

(** ** Vocabulary of the statements *)

(** What the Deck Controller owns: the deck, the classification state and the
    timer. *)
Definition controller (s : State) :=
  (cats s, activeIndex s, liked s, swipeDirection s, dragX s, isAnimating s,
   timeoutRef s, timers s, timerSeq s).

(** The jobs of the latest run of the prefetch effect. *)
Definition liveJobs (s : State) : list Job :=
  match last (passes s) with
  | Some p => fetchJobs p
  | None => []
  end.

Definition resolvedCount (jobs : list Job) : nat := length (List.filter isResolved jobs).

(** The test of [startJob]: [!url || cache.has(url)]. *)
Definition cacheHit (pool : gmap string string) (cat : CatCard) : bool :=
  bool_decide (url cat = "") || bool_decide (is_Some (pool !! url cat)).

(** The jobs as [cats.map] leaves them: resolved on a cache hit, suspended at
    [fetch] otherwise. *)
Definition initJobs (pool : gmap string string) (deck : list CatCard) : list Job :=
  (λ cat, {| jobUrl := url cat;
             phase := if cacheHit pool cat then Resolved else AwaitFetch |}) <$> deck.

(** A network error or a response whose status is not a success. *)
Definition fetchFailed (r : FetchResult) : bool :=
  match r with
  | FetchRejected => true
  | FetchResponse ok => negb ok
  end.

(** The failure of request [f.1] of the first run, with outcome [f.2]. *)
Definition failureOf (f : nat * FetchResult) : Event := FetchSettled 0 f.1 f.2.

(** A settlement the run no longer wants, and one it records under [value]. *)
Definition discard (url : string) (s : State) : State :=
  upd_inFlight (λ pending, pending ∖ {[url]}) s.

Definition record (url value : string) (s : State) : State :=
  upd_readyCount (λ count, count + 1)
    (upd_inFlight (λ pending, pending ∖ {[url]})
       (upd_version (λ version, version + 1)
          (upd_imagePool (insert url value) s))).

(** What the synchronous part of the jobs leaves unchanged. *)
Definition prefetchFrame (s s' : State) : Prop :=
  controller s' = controller s ∧ passes s' = passes s ∧
  imagePool s' = imagePool s ∧ isDeckReady s' = isDeckReady s ∧
  objectUrls s' = objectUrls s.

(** The [threshold] of the threshold effect. *)
Definition threshold (s : State) : nat :=
  Nat.min INITIAL_READY_COUNT (length (cats s)).

(** Events that leave a pending classification [t] alone: all but its own
    timeout coming due. *)
Definition keepsTimer (t : nat) (e : Event) : Prop :=
  match e with
  | TimerFired t' => t' ≠ t
  | _ => True
  end.

(** ** Invariants *)

(** Every pending timeout is the one [timeoutRef] holds. *)
Definition timers_owned (s : State) : Prop :=
  ∀ t, is_Some (timers s !! t) → timeoutRef s = Some t.

(** The invariant of the handlers: the latest run of the prefetch effect is
    the only one not cancelled, it has one job per card, [readyCount] counts
    its resolved jobs, and the deck is ready only past the threshold. *)
Definition run_inv (s : State) : Prop :=
  ∃ older p,
    passes s = older ++ [p] ∧ cancelled p = false ∧
    Forall (λ q, cancelled q = true) older ∧
    jobUrl <$> fetchJobs p = url <$> cats s ∧
    readyCount s = resolvedCount (fetchJobs p) ∧
    (cats s = [] → isDeckReady s = true) ∧
    (isDeckReady s = true → threshold s ≤ readyCount s) ∧
    timers_owned s.

(** The invariant between events, once the effects have run. *)
Definition ready_inv (s : State) : Prop :=
  run_inv s ∧ (threshold s ≤ readyCount s → isDeckReady s = true).

(** A classification is pending: its timeout [t], holding [closure], is the
    only one, and the flags of [handleChoice] are up. *)
Definition pendingChoice (t : nat) (closure : Direction * CatCard) (s : State) : Prop :=
  timers s = {[t := closure]} ∧ timeoutRef s = Some t ∧
  isAnimating s = true ∧ swipeDirection s = Some closure.1 ∧
  currentCat s = Some closure.2.

(** The state of a first run in which requests only ever failed: each job is
    still waiting for its response, or has resolved with its own URL stored
    as the fallback. *)
Definition fallback_inv (s : State) : Prop :=
  ready_inv s ∧ length (passes s) = 1 ∧
  ∀ i j, liveJobs s !! i = Some j →
         phase j = AwaitFetch ∨
         (phase j = Resolved ∧ imagePool s !! jobUrl j = Some (jobUrl j)).

(** Every live object URL came from [createObjectURL]. *)
Definition live_blob (s : State) : Prop :=
  ∀ u, u ∈ objectUrls s → startsWith "blob:" u = true.

(** No job of any run has thrown. *)
Definition no_reject (s : State) : Prop :=
  Forall (λ p, Forall (λ j, ∀ e, phase j ≠ Rejected e) (fetchJobs p)) (passes s).

(** ** Sample runs *)

(** Two cards: one image arrives, the other request fails. *)
Definition run_two_settled : State :=
  run (mount (generateDeck "d" 2))
    [FetchSettled 0 0 (FetchResponse true); FetchSettled 0 1 FetchRejected;
     BlobSettled 0 0 BlobReady].

(** A deck of three cards whose three requests failed, and its first card. *)
Definition run_three_failed : State :=
  run (mount (generateDeck "d" 3))
    [FetchSettled 0 2 FetchRejected; FetchSettled 0 0 (FetchResponse false);
     FetchSettled 0 1 FetchRejected].

Definition first_card : CatCard :=
  {| id := "d-0";
     url := "https://cataas.com/cat?width=560&height=720&format=jpg&deck=d-0" |}.

(** The application with three of its twelve requests settled. *)
Definition run_three_of_twelve : State :=
  run (App "d")
    [FetchSettled 0 4 FetchRejected; FetchSettled 0 0 (FetchResponse true);
     FetchSettled 0 7 (FetchResponse false); FetchSettled 0 2 (FetchResponse true);
     BlobSettled 0 2 BlobReady].

(** Twelve classifications, each followed by its timeout. *)
Definition swipeThrough (direction : Direction) : list Event :=
  flat_map (λ t, [Choice direction; TimerFired t]) (seq 0 TOTAL_CATS).

(** The application at its summary screen while nine requests of the first
    run are still outstanding, and the URL of the sixth of them. *)
Definition run_summary_outstanding : State :=
  run run_three_of_twelve (swipeThrough DirRight).

Definition sixth_url : string :=
  "https://cataas.com/cat?width=560&height=720&format=jpg&deck=d-5".

(** ** The rest of the render *)

(** [cats.slice(activeIndex, activeIndex + 3)] *)
Definition upcomingCats (s : State) : list CatCard :=
  take 3 (drop (activeIndex s) (cats s)).

(** [disabled={!currentCat || isAnimating || !isDeckReady}] of both buttons. *)
Definition controlsDisabled (s : State) : bool :=
  match currentCat s with
  | None => true
  | Some _ => isAnimating s || negb (isDeckReady s)
  end.

(** [imagePoolRef.current.get(cat.url)], [undefined] without an entry. *)
Definition cachedSrc (s : State) (cat : CatCard) : option string :=
  imagePool s !! url cat.

(** [Boolean(cachedSrc)]: an entry that is not the empty string. *)
Definition isImageReady (s : State) (cat : CatCard) : bool :=
  match cachedSrc s cat with
  | Some value => negb (bool_decide (value = ""))
  | None => false
  end.

(** [cachedSrc ?? cat.url], the [src] of the card and of its thumbnail. *)
Definition displaySrc (s : State) (cat : CatCard) : string :=
  default (url cat) (cachedSrc s cat).

(** The order of the screens. *)
Definition screenRank (v : Screen) : nat :=
  match v with
  | loading => 0
  | browsing => 1
  | summary => 2
  end.

(** ** More vocabulary *)

(** The cards a list of directions accepts, card by card. *)
Fixpoint accepted (ds : list Direction) (cards : list CatCard) : list CatCard :=
  match ds, cards with
  | DirRight :: ds', c :: cards' => c :: accepted ds' cards'
  | DirLeft :: ds', _ :: cards' => accepted ds' cards'
  | _, _ => []
  end.

(** One classification per direction, each followed by its timeout, the
    first of which gets the handle [t]. *)
Fixpoint classifyAll (t : nat) (ds : list Direction) : list Event :=
  match ds with
  | [] => []
  | d :: ds' => Choice d :: TimerFired t :: classifyAll (S t) ds'
  end.

(** What the controller keeps: the index stays within the deck, the liked
    cards are cards already passed, in deck order, and either one
    classification is pending, or no timeout is, [timeoutRef] is cleared and
    no direction is set. *)
Definition ctrl_inv (s : State) : Prop :=
  activeIndex s ≤ length (cats s) ∧
  liked s `sublist_of` take (activeIndex s) (cats s) ∧
  if isAnimating s then ∃ t closure, pendingChoice t closure s
  else timers s = ∅ ∧ timeoutRef s = None ∧ swipeDirection s = None.

(** What the image cache keeps, for the jobs of the latest run: an awaited
    job has a URL; a pool entry belongs to a resolved job and holds its key
    or a live object URL; a resolved job with a URL has its entry; the
    in-flight set names awaited jobs only. *)
Definition cache_inv (s : State) : Prop :=
  (∀ i j, liveJobs s !! i = Some j → suspended (phase j) = true → jobUrl j ≠ "") ∧
  (∀ k value, imagePool s !! k = Some value →
     value ≠ "" ∧
     (∃ i j, liveJobs s !! i = Some j ∧ jobUrl j = k ∧ phase j = Resolved) ∧
     (value = k ∨ (value ∈ objectUrls s ∧ startsWith "blob:" value = true))) ∧
  (∀ i j, liveJobs s !! i = Some j → phase j = Resolved → jobUrl j ≠ "" →
     is_Some (imagePool s !! jobUrl j)) ∧
  (∀ u, u ∈ inFlight s →
     ∃ i j, liveJobs s !! i = Some j ∧ jobUrl j = u ∧ suspended (phase j) = true).

(** With distinct URLs in the deck, every live object URL is held by the
    pool. *)
Definition tight_inv (s : State) : Prop :=
  NoDup (url <$> cats s) ∧
  ∀ u, u ∈ objectUrls s → ∃ k, imagePool s !! k = Some u.

(** What the settlement of a promise of job [i] of run [g] can make of [s]:
    nothing, if the job is not waiting; a move to [await response.blob()];
    or the end of the job, which leaves the in-flight set and, unless the
    run is cancelled, stores the URL itself or a fresh object URL. *)
Definition settles (g i : nat) (s s' : State) : Prop :=
  s' = s ∨
  ∃ u ph ph',
    jobAt g i s = Some {| jobUrl := u; phase := ph |} ∧ suspended ph = true ∧
    passes s' = passes (setPhase g i ph' s) ∧
    ((ph' = AwaitBlob ∧ imagePool s' = imagePool s ∧ inFlight s' = inFlight s ∧
      objectUrls s' = objectUrls s) ∨
     (ph' = Resolved ∧ inFlight s' = inFlight s ∖ {[u]} ∧
      if passCancelled g s
      then imagePool s' = imagePool s ∧ objectUrls s' = objectUrls s
      else ∃ value, imagePool s' = <[u:=value]> (imagePool s) ∧
             ((value = u ∧ objectUrls s' = objectUrls s) ∨
              (startsWith "blob:" value = true ∧
               objectUrls s' = {[value]} ∪ objectUrls s)))).

(** What can still happen once the component is gone: a timeout coming due
    and the promises of the jobs settling. *)
Definition background (e : Event) : bool :=
  match e with
  | TimerFired _ | FetchSettled _ _ _ | BlobSettled _ _ _ => true
  | _ => false
  end.

(** A state with its in-flight set forgotten. *)
Definition withoutInFlight (s : State) : State := upd_inFlight (λ _, ∅) s.

(** The jobs of a run in which no card was a cache hit. *)
Definition allRequested (deck : list CatCard) : list Job :=
  (λ cat, {| jobUrl := url cat; phase := AwaitFetch |}) <$> deck.

(** Nothing is held any more: no timeout, no pool entry, no request in
    flight, no live object URL, and no run of the prefetch effect that would
    still act on a settlement. *)
Definition released (s : State) : Prop :=
  timers s = ∅ ∧ imagePool s = ∅ ∧ inFlight s = ∅ ∧ objectUrls s = ∅ ∧
  Forall (λ q, cancelled q = true) (passes s).

(** ** More sample runs *)

(** The application after three settlements, then three classifications. *)
Definition run_three_classified : State :=
  run run_three_of_twelve
    (classifyAll (timerSeq run_three_of_twelve) [DirRight; DirLeft; DirRight]).

(** Two cards that share one URL, both images fetched. *)
Definition twin_deck : list CatCard :=
  [{| id := "a"; url := "https://cataas.com/cat" |};
   {| id := "b"; url := "https://cataas.com/cat" |}].

Definition run_twins_fetched : State :=
  run (mount twin_deck)
    [FetchSettled 0 0 (FetchResponse true); FetchSettled 0 1 (FetchResponse true);
     BlobSettled 0 0 BlobReady; BlobSettled 0 1 BlobReady].

(** * Properties *)

(** ** Frames *)

Lemma thresholdEffect_cases (s : State) :
  thresholdEffect s = s ∨
  (isDeckReady s = false ∧ thresholdEffect s = upd_isDeckReady (λ _, true) s).
Proof.
  unfold thresholdEffect.
  destruct (isDeckReady s) eqn:Hr; simpl; [by left|].
  destruct (_ && _); [by right | by left].
Qed.

Ltac threshold_frame s :=
  destruct (thresholdEffect_cases s) as [-> | [_ ->]]; reflexivity.

Lemma thresholdEffect_controller (s : State) :
  controller (thresholdEffect s) = controller s.
Proof. threshold_frame s. Qed.

Lemma thresholdEffect_readyCount (s : State) :
  readyCount (thresholdEffect s) = readyCount s.
Proof. threshold_frame s. Qed.

Lemma thresholdEffect_passes (s : State) : passes (thresholdEffect s) = passes s.
Proof. threshold_frame s. Qed.

Lemma thresholdEffect_imagePool (s : State) :
  imagePool (thresholdEffect s) = imagePool s.
Proof. threshold_frame s. Qed.

Lemma thresholdEffect_cats (s : State) : cats (thresholdEffect s) = cats s.
Proof. threshold_frame s. Qed.

Lemma handleChoice_guard (direction : Direction) (s : State) :
  isDeckReady s = false → handleChoice direction s = s.
Proof.
  intros Hr. unfold handleChoice. destruct (currentCat s); [|done].
  by rewrite Hr, orb_true_r.
Qed.

(** ** The image pool *)

Lemma releaseEntry_live (value : string) (s : State) (u : string) :
  u ∈ objectUrls (releaseEntry value s) ↔
  u ∈ objectUrls s ∧ ¬ (u = value ∧ startsWith "blob:" value = true).
Proof.
  unfold releaseEntry. destruct (startsWith "blob:" value); simpl.
  - set_solver.
  - naive_solver.
Qed.

Lemma releaseEntry_frame (value : string) (s : State) :
  releaseEntry value s = upd_objectUrls (λ _, objectUrls (releaseEntry value s)) s.
Proof.
  unfold releaseEntry. destruct (startsWith "blob:" value); by destruct s.
Qed.

Lemma releaseEntry_idem (value : string) (s : State) :
  releaseEntry value (releaseEntry value s) = releaseEntry value s.
Proof.
  unfold releaseEntry. destruct (startsWith "blob:" value); [|done].
  destruct s; unfold revokeObjectURL, upd_objectUrls; simpl. f_equal. set_solver.
Qed.

(** The [forEach] loop of [releasePool], over any pool. *)
Lemma releaseLoop_spec (s : State) (pool : gmap string string) :
  let s' := map_fold (λ _ objectUrl, releaseEntry objectUrl) s pool in
  s' = upd_objectUrls (λ _, objectUrls s') s ∧
  ∀ u, u ∈ objectUrls s' ↔
       u ∈ objectUrls s ∧
       ¬ (startsWith "blob:" u = true ∧ ∃ k, pool !! k = Some u).
Proof.
  simpl. apply (map_fold_weak_ind (λ r m,
    r = upd_objectUrls (λ _, objectUrls r) s ∧
    ∀ u, u ∈ objectUrls r ↔
         u ∈ objectUrls s ∧
         ¬ (startsWith "blob:" u = true ∧ ∃ k, m !! k = Some u))).
  - split; [by destruct s|]. intros u. split; [|tauto].
    intros Hu. split; [done|]. intros [_ [k Hk]]. by rewrite lookup_empty in Hk.
  - intros i x m r Hi [Hr IH]. split.
    + etrans; [apply releaseEntry_frame|].
      remember (objectUrls (releaseEntry x r)) as live. rewrite Hr. by destruct s.
    + intros u. rewrite releaseEntry_live, IH. split.
      * intros [[Hu Hm] Hx]. split; [done|]. intros [Hb [k Hk]].
        apply lookup_insert_Some in Hk as [[-> ->] | [Hne Hk]].
        -- by apply Hx.
        -- apply Hm. eauto.
      * intros [Hu Hm]. split; [split; [done|]|].
        -- intros [Hb [k Hk]]. apply Hm. split; [done|]. exists k.
           rewrite lookup_insert_ne; [done|]. intros ->. congruence.
        -- intros [-> Hb]. apply Hm. split; [done|]. exists i.
           by rewrite lookup_insert_eq.
Qed.

Lemma releasePool_eq (s : State) :
  releasePool s =
    upd_inFlight (λ _, ∅)
      (upd_imagePool (λ _, ∅)
         (upd_objectUrls (λ _, objectUrls (releasePool s)) s)).
Proof.
  unfold releasePool at 1.
  destruct (releaseLoop_spec s (imagePool s)) as [Hs _]. simpl in Hs.
  rewrite Hs. by destruct s.
Qed.

Lemma releasePool_idem (s : State) : releasePool (releasePool s) = releasePool s.
Proof.
  unfold releasePool at 1.
  replace (imagePool (releasePool s)) with (∅ : gmap string string) by done.
  rewrite map_fold_empty. by destruct s.
Qed.

Lemma releasePool_cleared (s : State) :
  imagePool (releasePool s) = ∅ ∧ inFlight (releasePool s) = ∅.
Proof. done. Qed.

Lemma releasePool_live (s : State) (u : string) :
  u ∈ objectUrls (releasePool s) ↔
  u ∈ objectUrls s ∧
  ¬ (startsWith "blob:" u = true ∧ ∃ k, imagePool s !! k = Some u).
Proof.
  destruct (releaseLoop_spec s (imagePool s)) as [_ Hlive]. apply Hlive.
Qed.

(** From here on [releasePool] is used through the lemmas above. *)
Opaque releasePool.

(** ** Counting resolved jobs *)

Section job_lists.
Implicit Types (jobs : list Job) (j : Job) (ph : Phase).

Lemma resolvedCount_le jobs : resolvedCount jobs ≤ length jobs.
Proof. apply List.filter_length_le. Qed.

Lemma resolvedCount_all jobs :
  forallb isResolved jobs = true ↔ resolvedCount jobs = length jobs.
Proof.
  unfold resolvedCount. induction jobs as [|j jobs IH]; simpl; [done|].
  pose proof (List.filter_length_le isResolved jobs).
  destruct (isResolved j); simpl.
  - rewrite IH. lia.
  - split; [done | lia].
Qed.

Lemma resolvedCount_alter jobs i j ph :
  jobs !! i = Some j → isResolved j = false →
  resolvedCount (alter (withPhase ph) i jobs) =
  resolvedCount jobs + (if isResolved (withPhase ph j) then 1 else 0).
Proof.
  unfold resolvedCount. revert i.
  induction jobs as [|j0 jobs IH]; intros [|i] Hi Hj; simplify_eq/=.
  - rewrite Hj. destruct (isResolved (withPhase ph j)); simpl; lia.
  - specialize (IH i Hi Hj).
    destruct (isResolved j0); simpl; rewrite IH; lia.
Qed.

Lemma jobUrl_alter jobs i ph :
  jobUrl <$> alter (withPhase ph) i jobs = jobUrl <$> jobs.
Proof.
  revert i. induction jobs as [|j0 jobs IH]; intros [|i]; simpl; [done..|].
  f_equal. apply IH.
Qed.

Lemma forallb_resolved jobs :
  forallb isResolved jobs = true ↔ Forall (λ j, phase j = Resolved) jobs.
Proof.
  induction jobs as [|j jobs IH]; simpl; [by split|].
  rewrite andb_true_iff, Forall_cons, IH. unfold isResolved.
  destruct (phase j); naive_solver.
Qed.
End job_lists.

(** ** The jobs, segment by segment *)

Lemma startJob_eq (g : nat) (cat : CatCard) (s : State) :
  startJob g cat s =
    if cacheHit (imagePool s) cat
    then (if passCancelled g s then s else upd_readyCount (λ count, count + 1) s,
          Normal Resolved)
    else (upd_inFlight (union {[url cat]}) s, Normal AwaitFetch).
Proof.
  unfold startJob, cacheHit, bind, cacheHas, readCancelled, countReady, exec, ret.
  destruct (bool_decide (url cat = "") || _); [|done].
  by destruct (passCancelled g s).
Qed.

Ltac run_segment g s :=
  unfold catchBlock, finallyBlock, bind, readCancelled, ret, exec, cacheSet,
    forceRerender, countReady, passCancelled, discard, record; simpl;
  let Hp := fresh "Hp" in let Hc := fresh "Hc" in
  destruct (passes s !! g) as [?p|] eqn:Hp; simpl;
    [destruct (cancelled p) eqn:Hc|];
    simpl; rewrite ?Hp; simpl; rewrite ?Hc; done.

Lemma afterFetch_failed (g : nat) (url : string) (r : FetchResult) (s : State) :
  fetchFailed r = true →
  afterFetch g url r s =
    (if passCancelled g s then discard url s else record url url s,
     Normal Resolved).
Proof.
  intros Hr. unfold afterFetch, tryCatchFinally, tryAfterFetch.
  destruct r as [|[]]; try done; simpl; run_segment g s.
Qed.

Lemma afterFetch_ok (g : nat) (url : string) (s : State) :
  afterFetch g url (FetchResponse true) s = (s, Normal AwaitBlob).
Proof. reflexivity. Qed.

Lemma afterBlob_rejected (g : nat) (url : string) (s : State) :
  afterBlob g url BlobRejected s =
    (if passCancelled g s then discard url s else record url url s,
     Normal Resolved).
Proof. unfold afterBlob, tryCatchFinally, tryAfterBlob. run_segment g s. Qed.

Lemma afterBlob_ready (g : nat) (url : string) (s : State) :
  afterBlob g url BlobReady s =
    (if passCancelled g s then discard url s
     else record url (createObjectURL s).1 (createObjectURL s).2,
     Normal Resolved).
Proof. unfold afterBlob, tryCatchFinally, tryAfterBlob. run_segment g s. Qed.

(** Every segment of a job completes normally, whatever the outcome of the
    request and whether or not the run was cancelled. *)
Lemma afterFetch_normal (g : nat) (url : string) (r : FetchResult) (s : State) :
  ∃ ph, (afterFetch g url r s).2 = Normal ph ∧ (ph = AwaitBlob ∨ ph = Resolved).
Proof.
  destruct (fetchFailed r) eqn:Hr.
  - rewrite afterFetch_failed by done. eauto.
  - destruct r as [|[]]; try done. rewrite afterFetch_ok. eauto.
Qed.

Lemma afterBlob_normal (g : nat) (url : string) (r : BlobResult) (s : State) :
  (afterBlob g url r s).2 = Normal Resolved.
Proof. destruct r; [by rewrite afterBlob_rejected | by rewrite afterBlob_ready]. Qed.

Lemma mapJobs_spec (g : nat) (deck : list CatCard) (s : State) :
  passCancelled g s = false →
  prefetchFrame s (mapJobs g deck s).1 ∧
  (mapJobs g deck s).2 = initJobs (imagePool s) deck ∧
  readyCount (mapJobs g deck s).1 = readyCount s + resolvedCount (mapJobs g deck s).2.
Proof.
  unfold initJobs. revert s. induction deck as [|cat deck IH]; intros s Hc; simpl.
  { repeat split; unfold resolvedCount; simpl; lia. }
  rewrite startJob_eq, Hc.
  destruct (cacheHit (imagePool s) cat) eqn:Hhit.
  - specialize (IH (upd_readyCount (λ count, count + 1) s) Hc).
    destruct (mapJobs g deck _) as [s2 jobs]. simpl in *.
    destruct IH as ((? & ? & ? & ? & ?) & -> & Hn). repeat split; try done.
    unfold resolvedCount in *. simpl. lia.
  - specialize (IH (upd_inFlight (union {[url cat]}) s) Hc).
    destruct (mapJobs g deck _) as [s2 jobs]. simpl in *.
    destruct IH as ((? & ? & ? & ? & ?) & -> & Hn). repeat split; try done.
Qed.

(** ** The invariant *)

Lemma controller_cats (s s' : State) : controller s' = controller s → cats s' = cats s.
Proof. unfold controller. by intros [= -> _]. Qed.

Lemma controller_fields (s : State) c a l sd dx an tr tm ts :
  controller s = (c, a, l, sd, dx, an, tr, tm, ts) →
  cats s = c ∧ activeIndex s = a ∧ liked s = l ∧ swipeDirection s = sd ∧
  dragX s = dx ∧ isAnimating s = an ∧ timeoutRef s = tr ∧ timers s = tm ∧
  timerSeq s = ts.
Proof.
  unfold controller. intros H.
  repeat (apply pair_equal_spec in H as [H ?]). by repeat split.
Qed.

Lemma controller_timers_owned (s s' : State) :
  controller s' = controller s → timers_owned s → timers_owned s'.
Proof. unfold controller, timers_owned. intros [= _ _ _ _ _ _ -> -> _]. done. Qed.

Lemma threshold_cats (s s' : State) : cats s' = cats s → threshold s' = threshold s.
Proof. unfold threshold. by intros ->. Qed.

Lemma threshold_le (s : State) : threshold s ≤ length (cats s).
Proof. unfold threshold. lia. Qed.

Lemma run_inv_ext (s s' : State) :
  run_inv s → cats s' = cats s → passes s' = passes s →
  readyCount s' = readyCount s → isDeckReady s' = isDeckReady s →
  timers_owned s' → run_inv s'.
Proof.
  intros (older & p & Hp & Hc & Hold & Hurl & Hcnt & Hempty & Hready & _)
    Hcats Hps Hrc Hrd Htm.
  exists older, p. rewrite (threshold_cats s s'), Hcats, Hps, Hrc, Hrd by done. done.
Qed.

Lemma afterAll_cases (g : nat) (s : State) :
  afterAll g s = s ∨
  ∃ p, passes s !! g = Some p ∧ cancelled p = false ∧
       forallb isResolved (fetchJobs p) = true ∧
       afterAll g s = upd_isDeckReady (λ _, true) s.
Proof.
  unfold afterAll. destruct (passes s !! g) as [p|]; [|by left].
  destruct (forallb isResolved (fetchJobs p)) eqn:Hall; [|by left].
  destruct (cancelled p) eqn:Hc; [by left|]. right. by exists p.
Qed.

Lemma settle_inv (s s1 : State) (g i : nat) (j : Job) (ph : Phase) :
  run_inv s → jobAt g i s = Some j → isResolved j = false →
  controller s1 = controller s → passes s1 = passes s →
  isDeckReady s1 = isDeckReady s →
  readyCount s1 =
    readyCount s +
    (if isResolved (withPhase ph j) && negb (passCancelled g s) then 1 else 0) →
  run_inv (afterAll g (setPhase g i ph s1)).
Proof.
  intros (older & p & Hp & Hc & Hold & Hurl & Hcnt & Hempty & Hready & Htm)
    Hj Hres Hctl Hps Hrd Hrc.
  pose proof (controller_cats _ _ Hctl) as Hcats.
  pose proof (controller_timers_owned _ _ Hctl Htm) as Htm1.
  unfold jobAt in Hj. unfold passCancelled in Hrc.
  destruct (passes s !! g) as [q|] eqn:Hq; simpl in Hj; [|done].
  pose (F := withJobs (alter (withPhase ph) i)).
  assert (∀ q', cancelled (F q') = cancelled q') as HFc by done.
  assert (passes (setPhase g i ph s1) = alter F g (older ++ [p])) as Hps2.
  { unfold setPhase. simpl. by rewrite Hps, Hp. }
  rewrite Hp in Hq. apply lookup_app_Some in Hq as [Hq | [Hge Hq]].
  - (* a job of a cancelled run *)
    assert (cancelled q = true) as Hcq
      by exact (Forall_lookup_1 (λ q, cancelled q = true) _ _ _ Hold Hq).
    rewrite Hcq, andb_false_r, Nat.add_0_r in Hrc.
    rewrite alter_app_l in Hps2 by (by eapply lookup_lt_Some).
    assert (afterAll g (setPhase g i ph s1) = setPhase g i ph s1) as ->.
    { unfold afterAll. rewrite Hps2.
      rewrite lookup_app_l by (rewrite length_alter; by eapply lookup_lt_Some).
      rewrite list_lookup_alter, Hq, decide_True by done.
      simpl. by rewrite Hcq, andb_false_r. }
    exists (alter F g older), p. split; [done|]. split; [done|]. split.
    { apply Forall_alter; [done|]. intros q' _ Hq'. by rewrite HFc. }
    rewrite (threshold_cats s) by done. simpl. rewrite Hcats, Hrc, Hrd. done.
  - (* a job of the latest run *)
    apply list_lookup_singleton_Some in Hq as [Hg <-].
    assert (g = length older + 0) as -> by lia.
    rewrite alter_app_r in Hps2. change (alter F 0 [p]) with [F p] in Hps2.
    rewrite Hc in Hrc. simpl in Hrc. rewrite andb_true_r in Hrc.
    assert (readyCount s1 = resolvedCount (fetchJobs (F p))) as Hcnt1.
    { simpl. rewrite (resolvedCount_alter _ _ _ _ Hj Hres). lia. }
    assert (jobUrl <$> fetchJobs (F p) = url <$> cats s1) as Hurl1.
    { simpl. by rewrite jobUrl_alter, Hcats. }
    destruct (afterAll_cases (length older + 0) (setPhase (length older + 0) i ph s1))
      as [-> | (p' & Hp' & Hc' & Hall & ->)].
    + exists older, (F p). repeat split; try done.
      * simpl. rewrite Hcats, Hrd. done.
      * rewrite (threshold_cats s) by done. simpl. rewrite Hrd. intros Hr.
        specialize (Hready Hr). lia.
    + rewrite Hps2, list_lookup_middle in Hp' by lia. simplify_eq.
      exists older, (F p). repeat split; try done.
      intros _. pose proof (threshold_le s1) as Hle.
      rewrite (threshold_cats s1) by done. simpl.
      apply resolvedCount_all in Hall. rewrite Hcnt1, Hall.
      rewrite <- (length_fmap jobUrl), Hurl1, length_fmap. rewrite Hcats in *. done.
Qed.

Lemma fetchSettled_inv (g i : nat) (r : FetchResult) (s : State) :
  run_inv s → run_inv (fetchSettled g i r s).
Proof.
  intros Hinv. unfold fetchSettled.
  destruct (jobAt g i s) as [[url []]|] eqn:Hj; try done.
  destruct (fetchFailed r) eqn:Hr.
  - rewrite afterFetch_failed by done. simpl.
    eapply settle_inv; [done|exact Hj|done|..];
      destruct (passCancelled g s); simpl; first [reflexivity | lia].
  - destruct r as [|[]]; try done. rewrite afterFetch_ok. simpl.
    eapply settle_inv; [done|exact Hj|done|try reflexivity..].
    simpl. lia.
Qed.

Lemma blobSettled_inv (g i : nat) (r : BlobResult) (s : State) :
  run_inv s → run_inv (blobSettled g i r s).
Proof.
  intros Hinv. unfold blobSettled.
  destruct (jobAt g i s) as [[url []]|] eqn:Hj; try done.
  destruct r; [rewrite afterBlob_rejected | rewrite afterBlob_ready]; simpl.
  all: eapply settle_inv; [done|exact Hj|done|..];
    destruct (passCancelled g s); simpl; first [reflexivity | lia].
Qed.

Lemma handleChoice_frame (direction : Direction) (s : State) :
  cats (handleChoice direction s) = cats s ∧
  passes (handleChoice direction s) = passes s ∧
  readyCount (handleChoice direction s) = readyCount s ∧
  isDeckReady (handleChoice direction s) = isDeckReady s ∧
  imagePool (handleChoice direction s) = imagePool s.
Proof.
  unfold handleChoice. destruct (currentCat s); [|done].
  destruct (isAnimating s || negb (isDeckReady s)); [done|].
  unfold clearTimeout. simpl. by destruct (timeoutRef s).
Qed.

Lemma handleChoice_timers_owned (direction : Direction) (s : State) :
  timers_owned s → timers_owned (handleChoice direction s).
Proof.
  intros Htm. unfold handleChoice. destruct (currentCat s) as [chosenCat|]; [|done].
  destruct (isAnimating s || negb (isDeckReady s)); [done|].
  unfold clearTimeout, timers_owned in *. simpl.
  intros t [cl Ht]. destruct (timeoutRef s) as [t0|] eqn:Href; simpl in *.
  - apply lookup_insert_Some in Ht as [[-> _] | [Hne Ht]]; [done|].
    apply lookup_delete_Some in Ht as [Hne0 Ht].
    specialize (Htm t ltac:(eauto)). congruence.
  - apply lookup_insert_Some in Ht as [[-> _] | [Hne Ht]]; [done|].
    specialize (Htm t ltac:(eauto)). congruence.
Qed.

Lemma fireTimer_frame (t : nat) (s : State) :
  cats (fireTimer t s) = cats s ∧
  passes (fireTimer t s) = passes s ∧
  readyCount (fireTimer t s) = readyCount s ∧
  isDeckReady (fireTimer t s) = isDeckReady s ∧
  imagePool (fireTimer t s) = imagePool s.
Proof.
  unfold fireTimer. destruct (timers s !! t) as [[[] cat]|]; done.
Qed.

Lemma fireTimer_timers_owned (t : nat) (s : State) :
  timers_owned s → timers_owned (fireTimer t s).
Proof.
  intros Htm. unfold fireTimer.
  destruct (timers s !! t) as [[d cat]|] eqn:Ht; [|done].
  assert (timeoutRef s = Some t) as Href by eauto.
  assert (∀ t', is_Some (delete t (timers s) !! t') → False) as Hnone.
  { intros t' [cl Ht']. apply lookup_delete_Some in Ht' as [Hne Ht'].
    specialize (Htm t' ltac:(eauto)). congruence. }
  intros t' Ht'. exfalso. apply (Hnone t'). by destruct d.
Qed.

Lemma releasePool_frame (s : State) :
  controller (releasePool s) = controller s ∧
  passes (releasePool s) = passes s ∧
  objectSeq (releasePool s) = objectSeq s ∧
  version (releasePool s) = version s.
Proof. rewrite releasePool_eq. done. Qed.

(** [resetDeck], field by field. *)
Lemma resetDeck_eq (deckId : string) (s : State) :
  resetDeck deckId s =
    {| cats := generateDeck deckId TOTAL_CATS; activeIndex := 0; liked := [];
       swipeDirection := None; dragX := 0%Z; isAnimating := false;
       isDeckReady := false; readyCount := 0; version := version s;
       timeoutRef := None; imagePool := ∅; inFlight := ∅;
       timers := timers (clearTimeout (timeoutRef s) s); timerSeq := timerSeq s;
       objectUrls := objectUrls (releasePool (clearTimeout (timeoutRef s) s));
       objectSeq := objectSeq s; passes := passes s |}.
Proof.
  cbv beta delta [resetDeck] zeta.
  rewrite (releasePool_eq (clearTimeout (timeoutRef s) s)).
  by destruct (timeoutRef s).
Qed.

Lemma resetDeck_timers_owned (deckId : string) (s : State) :
  timers_owned s → timers_owned (resetDeck deckId s).
Proof.
  intros Htm t. rewrite resetDeck_eq. cbn [timers timeoutRef].
  unfold clearTimeout. destruct (timeoutRef s) as [t0|] eqn:Href.
  - intros [cl Ht]. cbn [timers upd_timers] in Ht.
    apply lookup_delete_Some in Ht as [Hne Ht].
    specialize (Htm t ltac:(eauto)). congruence.
  - intros Ht. apply Htm in Ht. congruence.
Qed.

Lemma prefetchEffect_inv (s : State) :
  Forall (λ q, cancelled q = true) (passes s) → timers_owned s →
  run_inv (prefetchEffect s).
Proof.
  intros Hold Htm. unfold prefetchEffect. cbv zeta.
  set (fresh := {| cancelled := false; fetchJobs := [] |}).
  set (s3 := upd_readyCount _ _).
  assert (passes s3 = passes s ++ [fresh]) as Hps3 by done.
  change (cats s3) with (cats s).
  destruct (0 <? length (cats s)) eqn:Hlen.
  - apply Nat.ltb_lt in Hlen. unfold loadDeck.
    assert (passCancelled (length (passes s)) s3 = false) as Hlive.
    { unfold passCancelled. by rewrite Hps3, list_lookup_middle. }
    pose proof (mapJobs_spec (length (passes s)) (cats s3) s3 Hlive)
      as ((Hctl & Hps & _ & Hrd & _) & Hjobs & Hrc).
    destruct (mapJobs (length (passes s)) (cats s3) s3) as [s1 jobs].
    simpl in Hctl, Hps, Hrd, Hjobs, Hrc.
    pose proof (controller_cats _ _ Hctl) as Hcats.
    pose proof (controller_timers_owned s s1 Hctl Htm) as Htm1.
    set (s2 := setJobs (length (passes s)) jobs s1).
    assert (passes s2 = passes s ++ [{| cancelled := false; fetchJobs := jobs |}])
      as Hps2.
    { unfold s2, setJobs. simpl. rewrite Hps.
      rewrite <- (Nat.add_0_r (length (passes s))). by rewrite alter_app_r. }
    assert (jobUrl <$> jobs = url <$> cats s1) as Hurl.
    { rewrite Hjobs, Hcats. unfold initJobs. rewrite <- list_fmap_compose. done. }
    assert (cats s1 ≠ []) as Hne.
    { rewrite Hcats. intros Hnil. change (cats s3) with (cats s) in Hnil.
      rewrite Hnil in Hlen. simpl in Hlen. lia. }
    destruct (afterAll_cases (length (passes s)) s2)
      as [-> | (p' & Hp' & Hc' & Hall & ->)].
    + exists (passes s), {| cancelled := false; fetchJobs := jobs |}.
      repeat split; try done. simpl. rewrite Hrd. done.
    + rewrite Hps2, list_lookup_middle in Hp' by done. injection Hp' as <-.
      exists (passes s), {| cancelled := false; fetchJobs := jobs |}.
      repeat split; try done.
      intros _. simpl in Hall. apply resolvedCount_all in Hall.
      pose proof (threshold_le s1) as Hle.
      rewrite (threshold_cats s1) by done. simpl. rewrite Hrc, Hall.
      rewrite <- (length_fmap jobUrl), Hurl, length_fmap. simpl. lia.
  - apply Nat.ltb_ge in Hlen.
    assert (cats s = []) as Hnil by (destruct (cats s); [done | simpl in Hlen; lia]).
    exists (passes s), fresh. repeat split; try done.
    + simpl. by rewrite Hnil.
    + intros _. unfold threshold. simpl. rewrite Hnil. simpl. lia.
Qed.

Lemma restart_inv (s : State) (older : list Pass) (p : Pass) :
  passes s = older ++ [p] → Forall (λ q, cancelled q = true) older →
  timers_owned s → run_inv (prefetchEffect (prefetchCleanup s)).
Proof.
  intros Hp Hold Htm. apply prefetchEffect_inv; [|done].
  unfold prefetchCleanup, upd_passes. cbn [passes]. rewrite Hp.
  rewrite length_app, Nat.add_1_r. cbn [pred].
  rewrite <- (Nat.add_0_r (length older)), alter_app_r.
  apply Forall_app. split; [done|]. by repeat constructor.
Qed.

Lemma startOver_inv (deckId : string) (s : State) :
  run_inv s → run_inv (startOver deckId s).
Proof.
  intros (older & p & Hp & Hc & Hold & _ & _ & _ & _ & Htm).
  unfold startOver. refine (restart_inv (resetDeck deckId s) older p _ Hold _).
  - rewrite resetDeck_eq. exact Hp.
  - exact (resetDeck_timers_owned deckId s Htm).
Qed.

Lemma thresholdEffect_inv (s : State) : run_inv s → ready_inv (thresholdEffect s).
Proof.
  intros Hinv.
  assert (thresholdEffect s = s ∧ (threshold s ≤ readyCount s → isDeckReady s = true)
          ∨ threshold s ≤ readyCount s ∧
            thresholdEffect s = upd_isDeckReady (λ _, true) s) as [[-> Hth] | [Hth ->]].
  { destruct Hinv as (older & p & _ & _ & _ & _ & _ & Hempty & _ & _).
    unfold thresholdEffect. fold (threshold s).
    destruct (isDeckReady s) eqn:Hr; simpl; [by left|].
    destruct (0 <? threshold s) eqn:H0; simpl.
    - destruct (threshold s <=? readyCount s) eqn:Hle.
      + right. by apply Nat.leb_le in Hle.
      + left. apply Nat.leb_gt in Hle. split; [done|lia].
    - left. split; [done|]. intros _. apply Hempty.
      apply Nat.ltb_ge in H0. unfold threshold, INITIAL_READY_COUNT in H0.
      destruct (cats s); [done | simpl in H0; lia]. }
  - by split.
  - destruct Hinv as (older & p & ? & ? & ? & ? & ? & ? & ? & ?).
    split; [|done]. exists older, p. repeat split; done.
Qed.

Lemma onSwiping_frame (deltaX : Z) (dirLeft : bool) (s : State) :
  cats (onSwiping deltaX dirLeft s) = cats s ∧
  passes (onSwiping deltaX dirLeft s) = passes s ∧
  readyCount (onSwiping deltaX dirLeft s) = readyCount s ∧
  isDeckReady (onSwiping deltaX dirLeft s) = isDeckReady s ∧
  imagePool (onSwiping deltaX dirLeft s) = imagePool s.
Proof.
  unfold onSwiping. destruct (currentCat s); [|done]. by destruct (isAnimating s).
Qed.

Lemma onSwiped_frame (s : State) :
  cats (onSwiped s) = cats s ∧
  passes (onSwiped s) = passes s ∧
  readyCount (onSwiped s) = readyCount s ∧
  isDeckReady (onSwiped s) = isDeckReady s ∧
  imagePool (onSwiped s) = imagePool s.
Proof. unfold onSwiped. by destruct (swipeDirection s). Qed.

Lemma handle_inv (e : Event) (s : State) : run_inv s → run_inv (handle e s).
Proof.
  intros Hinv. destruct e as [d|dx l| |t|deckId|g i r|g i r]; simpl.
  - destruct (handleChoice_frame d s) as (? & ? & ? & ? & _).
    eapply run_inv_ext; [exact Hinv|done..|].
    apply handleChoice_timers_owned. by destruct Hinv as (? & ? & ? & ? & ? & ? & ? & ? & ? & ?).
  - destruct (onSwiping_frame dx l s) as (? & ? & ? & ? & _).
    eapply run_inv_ext; [exact Hinv|done..|].
    destruct Hinv as (? & ? & ? & ? & ? & ? & ? & ? & ? & Htm).
    unfold onSwiping. destruct (currentCat s); [|done]. by destruct (isAnimating s).
  - destruct (onSwiped_frame s) as (? & ? & ? & ? & _).
    eapply run_inv_ext; [exact Hinv|done..|].
    destruct Hinv as (? & ? & ? & ? & ? & ? & ? & ? & ? & Htm).
    unfold onSwiped. by destruct (swipeDirection s).
  - destruct (fireTimer_frame t s) as (? & ? & ? & ? & _).
    eapply run_inv_ext; [exact Hinv|done..|].
    apply fireTimer_timers_owned. by destruct Hinv as (? & ? & ? & ? & ? & ? & ? & ? & ? & ?).
  - destruct (screen s); [done..|]. by apply startOver_inv.
  - by apply fetchSettled_inv.
  - by apply blobSettled_inv.
Qed.

Lemma mount_inv (deck : list CatCard) : ready_inv (mount deck).
Proof.
  apply thresholdEffect_inv, prefetchEffect_inv; [by constructor|].
  intros t [cl Ht]. cbn [initial timers] in Ht. by rewrite lookup_empty in Ht.
Qed.

Lemma step_inv (s : State) (e : Event) : ready_inv s → ready_inv (step s e).
Proof. intros [Hinv _]. by apply thresholdEffect_inv, handle_inv. Qed.

Lemma reachable_inv (deck : list CatCard) (s : State) : reachable deck s → ready_inv s.
Proof. induction 1; [apply mount_inv | by apply step_inv]. Qed.

Lemma run_inv_run (s : State) (es : list Event) : ready_inv s → ready_inv (run s es).
Proof.
  revert s. induction es as [|e es IH]; intros s Hs; [done|].
  apply IH. by apply step_inv.
Qed.

Lemma startOver_inv_ready (deckId : string) (s : State) :
  ready_inv s → ready_inv (thresholdEffect (startOver deckId s)).
Proof.
  intros [Hinv _].
  exact (thresholdEffect_inv (startOver deckId s) (startOver_inv deckId s Hinv)).
Qed.

Lemma step_StartOver (deckId : string) (s : State) :
  screen s = summary → step s (StartOver deckId) = thresholdEffect (startOver deckId s).
Proof. unfold step. cbn [handle]. by intros ->. Qed.

Lemma reachable_run (deck : list CatCard) (s : State) (es : list Event) :
  reachable deck s → reachable deck (run s es).
Proof.
  revert s. induction es as [|e es IH]; intros s Hs; [done|].
  apply IH. by constructor.
Qed.

(** What the invariant says of the latest run. *)
Lemma run_inv_live (s : State) :
  run_inv s →
  length (liveJobs s) = length (cats s) ∧
  jobUrl <$> liveJobs s = url <$> cats s ∧
  readyCount s = resolvedCount (liveJobs s) ∧
  passCancelled (pred (length (passes s))) s = false.
Proof.
  intros (older & p & Hp & Hc & _ & Hurl & Hcnt & _).
  assert (liveJobs s = fetchJobs p) as ->.
  { unfold liveJobs. by rewrite Hp, last_snoc. }
  repeat split; try done.
  - by rewrite <- (length_fmap jobUrl), Hurl, length_fmap.
  - unfold passCancelled. rewrite Hp, length_app, Nat.add_1_r. simpl.
    by rewrite list_lookup_middle.
Qed.

Lemma unresolved_exists (jobs : list Job) :
  resolvedCount jobs < length jobs →
  ∃ i j, jobs !! i = Some j ∧ phase j ≠ Resolved.
Proof.
  unfold resolvedCount. induction jobs as [|j jobs IH]; simpl; [lia|].
  destruct (isResolved j) eqn:Hj; simpl; intros Hlt.
  - destruct IH as (i & j' & Hi & Hne); [lia|]. by exists (S i), j'.
  - exists 0, j. split; [done|]. unfold isResolved in Hj. by destruct (phase j).
Qed.

(** The prefetch effect, field by field. *)
Lemma prefetchEffect_spec (s : State) :
  passes (prefetchEffect s) =
    passes s ++ [{| cancelled := false;
                    fetchJobs := initJobs (imagePool s) (cats s) |}] ∧
  controller (prefetchEffect s) = controller s ∧
  imagePool (prefetchEffect s) = imagePool s ∧
  objectUrls (prefetchEffect s) = objectUrls s ∧
  readyCount (prefetchEffect s) = resolvedCount (initJobs (imagePool s) (cats s)) ∧
  isDeckReady (prefetchEffect s) = forallb isResolved (initJobs (imagePool s) (cats s)).
Proof.
  unfold prefetchEffect. cbv zeta.
  set (fresh := {| cancelled := false; fetchJobs := [] |}).
  set (s3 := upd_readyCount _ _).
  assert (passes s3 = passes s ++ [fresh]) as Hps3 by done.
  change (cats s3) with (cats s).
  destruct (0 <? length (cats s)) eqn:Hlen.
  - unfold loadDeck.
    assert (passCancelled (length (passes s)) s3 = false) as Hlive.
    { unfold passCancelled. by rewrite Hps3, list_lookup_middle. }
    pose proof (mapJobs_spec (length (passes s)) (cats s3) s3 Hlive)
      as ((Hctl & Hps & Hpool & Hrd & Hou) & Hjobs & Hrc).
    destruct (mapJobs (length (passes s)) (cats s3) s3) as [s1 jobs].
    simpl in Hctl, Hps, Hpool, Hrd, Hou, Hjobs, Hrc.
    set (s2 := setJobs (length (passes s)) jobs s1).
    assert (passes s2 = passes s ++ [{| cancelled := false; fetchJobs := jobs |}])
      as Hps2.
    { unfold s2, setJobs. simpl. rewrite Hps.
      rewrite <- (Nat.add_0_r (length (passes s))). by rewrite alter_app_r. }
    change (imagePool s3) with (imagePool s) in Hjobs.
    change (cats s3) with (cats s) in Hjobs. rewrite <- Hjobs.
    unfold afterAll. rewrite Hps2, list_lookup_middle by done. simpl.
    rewrite andb_true_r.
    assert (alter (withJobs (λ _, jobs)) (length (passes s)) (passes s ++ [fresh])
            = passes s ++ [{| cancelled := false; fetchJobs := jobs |}]) as Hps2'.
    { rewrite <- Hps2. unfold s2, setJobs. simpl. by rewrite Hps. }
    destruct (forallb isResolved jobs); simpl; rewrite ?Hps; repeat split; done.
  - apply Nat.ltb_ge in Hlen.
    assert (cats s = []) as -> by (destruct (cats s); [done | simpl in Hlen; lia]).
    repeat split; done.
Qed.

Lemma initJobs_miss (pool : gmap string string) (deck : list CatCard) :
  Forall (λ cat, cacheHit pool cat = false) deck →
  initJobs pool deck = (λ cat, {| jobUrl := url cat; phase := AwaitFetch |}) <$> deck.
Proof.
  unfold initJobs. induction 1 as [|cat deck Hcat _ IH]; simpl; [done|].
  rewrite Hcat. f_equal. apply IH.
Qed.

Lemma resolvedCount_miss (deck : list CatCard) :
  resolvedCount ((λ cat, {| jobUrl := url cat; phase := AwaitFetch |}) <$> deck) = 0.
Proof. unfold resolvedCount. induction deck; simpl; done. Qed.

Lemma forallb_miss (deck : list CatCard) :
  deck ≠ [] →
  forallb isResolved ((λ cat, {| jobUrl := url cat; phase := AwaitFetch |}) <$> deck)
  = false.
Proof. by destruct deck. Qed.

Lemma prefetchCleanup_frame (s : State) :
  controller (prefetchCleanup s) = controller s ∧
  imagePool (prefetchCleanup s) = imagePool s ∧
  objectUrls (prefetchCleanup s) = objectUrls s.
Proof. done. Qed.

(** ** Generated decks *)

Lemma generateDeck_length (deckId : string) (count : nat) :
  length (generateDeck deckId count) = count.
Proof. unfold generateDeck. by rewrite length_fmap, length_seq. Qed.

Lemma generateDeck_remote (deckId : string) (count : nat) :
  Forall (λ cat, url cat ≠ "" ∧ startsWith "blob:" (url cat) = false)
    (generateDeck deckId count).
Proof.
  unfold generateDeck. apply Forall_fmap, Forall_forall. intros index _. simpl.
  split; [discriminate|reflexivity].
Qed.

Lemma cacheHit_empty (cat : CatCard) : url cat ≠ "" → cacheHit ∅ cat = false.
Proof.
  intros Hne. unfold cacheHit. rewrite lookup_empty.
  rewrite bool_decide_eq_false_2 by done.
  rewrite bool_decide_eq_false_2; [done|]. by intros [? ?].
Qed.

(** ** Runs that were cancelled *)

Lemma passCancelled_setPhase (g g' i : nat) (ph : Phase) (s : State) :
  passCancelled g (setPhase g' i ph s) = passCancelled g s.
Proof.
  unfold passCancelled, setPhase. cbn [passes upd_passes].
  rewrite list_lookup_alter. case_decide as Hg; [|done].
  subst g'. by destruct (passes s !! g).
Qed.

Lemma afterAll_cancelled (g : nat) (s : State) :
  passCancelled g s = true → afterAll g s = s.
Proof.
  unfold passCancelled, afterAll. destruct (passes s !! g) as [p|]; [|done].
  intros ->. by rewrite andb_false_r.
Qed.

Lemma fetchSettled_cancelled (g i : nat) (r : FetchResult) (s : State) :
  passCancelled g s = true →
  readyCount (fetchSettled g i r s) = readyCount s ∧
  imagePool (fetchSettled g i r s) = imagePool s ∧
  isDeckReady (fetchSettled g i r s) = isDeckReady s ∧
  objectUrls (fetchSettled g i r s) = objectUrls s ∧
  controller (fetchSettled g i r s) = controller s.
Proof.
  intros Hc. unfold fetchSettled. destruct (jobAt g i s) as [[url []]|]; try done.
  destruct (fetchFailed r) eqn:Hr.
  - rewrite afterFetch_failed, Hc by done. cbv zeta.
    rewrite afterAll_cancelled; [done|]. by rewrite passCancelled_setPhase.
  - destruct r as [|[]]; try done. rewrite afterFetch_ok. cbv zeta.
    rewrite afterAll_cancelled; [done|]. by rewrite passCancelled_setPhase.
Qed.

Lemma blobSettled_cancelled (g i : nat) (r : BlobResult) (s : State) :
  passCancelled g s = true →
  readyCount (blobSettled g i r s) = readyCount s ∧
  imagePool (blobSettled g i r s) = imagePool s ∧
  isDeckReady (blobSettled g i r s) = isDeckReady s ∧
  objectUrls (blobSettled g i r s) = objectUrls s ∧
  controller (blobSettled g i r s) = controller s.
Proof.
  intros Hc. unfold blobSettled. destruct (jobAt g i s) as [[url []]|]; try done.
  destruct r; [rewrite afterBlob_rejected | rewrite afterBlob_ready];
    rewrite Hc; cbv zeta;
    (rewrite afterAll_cancelled; [done|]); by rewrite passCancelled_setPhase.
Qed.

Lemma afterAll_passes (g : nat) (s : State) : passes (afterAll g s) = passes s.
Proof. by destruct (afterAll_cases g s) as [-> | (_ & _ & _ & _ & ->)]. Qed.

Lemma fetchSettled_passes_length (g i : nat) (r : FetchResult) (s : State) :
  length (passes (fetchSettled g i r s)) = length (passes s).
Proof.
  unfold fetchSettled. destruct (jobAt g i s) as [[url []]|]; try done.
  destruct (fetchFailed r) eqn:Hr.
  - rewrite afterFetch_failed by done. cbv zeta. rewrite afterAll_passes.
    unfold setPhase. cbn [passes upd_passes]. rewrite length_alter.
    by destruct (passCancelled g s).
  - destruct r as [|[]]; try done. rewrite afterFetch_ok. cbv zeta.
    rewrite afterAll_passes. unfold setPhase. cbn [passes upd_passes].
    by rewrite length_alter.
Qed.

Lemma blobSettled_passes_length (g i : nat) (r : BlobResult) (s : State) :
  length (passes (blobSettled g i r s)) = length (passes s).
Proof.
  unfold blobSettled. destruct (jobAt g i s) as [[url []]|]; try done.
  destruct r; [rewrite afterBlob_rejected | rewrite afterBlob_ready]; cbv zeta;
    rewrite afterAll_passes; unfold setPhase; cbn [passes upd_passes];
    rewrite length_alter; by destruct (passCancelled g s).
Qed.

Lemma startOver_passes_length (deckId : string) (s : State) :
  length (passes (startOver deckId s)) = S (length (passes s)).
Proof.
  unfold startOver.
  destruct (prefetchEffect_spec (prefetchCleanup (resetDeck deckId s))) as (-> & _).
  rewrite length_app. unfold prefetchCleanup, upd_passes. cbn [passes].
  rewrite length_alter, resetDeck_eq. cbn [passes length]. lia.
Qed.

Lemma step_passes_length (s : State) (e : Event) :
  length (passes s) ≤ length (passes (step s e)).
Proof.
  unfold step. rewrite thresholdEffect_passes.
  destruct e as [d|dx l| |t|deckId|g i r|g i r]; simpl.
  - destruct (handleChoice_frame d s) as (_ & -> & _). lia.
  - destruct (onSwiping_frame dx l s) as (_ & -> & _). lia.
  - destruct (onSwiped_frame s) as (_ & -> & _). lia.
  - destruct (fireTimer_frame t s) as (_ & -> & _). lia.
  - destruct (screen s); [lia..|]. rewrite startOver_passes_length. lia.
  - rewrite fetchSettled_passes_length. lia.
  - rewrite blobSettled_passes_length. lia.
Qed.

Lemma run_passes_length (s : State) (es : list Event) :
  length (passes s) ≤ length (passes (run s es)).
Proof.
  revert s. induction es as [|e es IH]; intros s; simpl; [lia|].
  etrans; [apply (step_passes_length s e)|]. apply IH.
Qed.

Lemma run_inv_cancelled (s : State) (g : nat) :
  run_inv s → S g < length (passes s) → passCancelled g s = true.
Proof.
  intros (older & p & Hp & _ & Hold & _) Hg. unfold passCancelled.
  rewrite Hp in *. rewrite length_app in Hg. simpl in Hg.
  destruct (lookup_lt_is_Some_2 older g) as [q Hq]; [lia|].
  rewrite lookup_app_l, Hq by lia.
  exact (Forall_lookup_1 (λ q, cancelled q = true) _ _ _ Hold Hq).
Qed.

(** ** Live object URLs *)

Lemma createObjectURL_blob (s : State) :
  startsWith "blob:" (createObjectURL s).1 = true.
Proof.
  unfold createObjectURL, startsWith. cbn [fst].
  generalize (pretty (objectSeq s)). by intros [].
Qed.

Lemma fetchSettled_objectUrls (g i : nat) (r : FetchResult) (s : State) :
  objectUrls (fetchSettled g i r s) = objectUrls s.
Proof.
  unfold fetchSettled. destruct (jobAt g i s) as [[url []]|]; try done.
  destruct (fetchFailed r) eqn:Hr.
  - rewrite afterFetch_failed by done. cbv zeta.
    destruct (afterAll_cases g (setPhase g i (settlePromise (Normal Resolved))
      (if passCancelled g s then discard url s else record url url s)))
      as [-> | (_ & _ & _ & _ & ->)];
    by destruct (passCancelled g s).
  - destruct r as [|[]]; try done. rewrite afterFetch_ok. cbv zeta.
    by destruct (afterAll_cases g (setPhase g i (settlePromise (Normal AwaitBlob)) s))
      as [-> | (_ & _ & _ & _ & ->)].
Qed.

Lemma blobSettled_objectUrls (g i : nat) (r : BlobResult) (s : State) (u : string) :
  u ∈ objectUrls (blobSettled g i r s) →
  u ∈ objectUrls s ∨ u = (createObjectURL s).1.
Proof.
  unfold blobSettled. destruct (jobAt g i s) as [[url []]|]; try by left.
  destruct r; [rewrite afterBlob_rejected | rewrite afterBlob_ready]; cbv zeta.
  - destruct (afterAll_cases g (setPhase g i (settlePromise (Normal Resolved))
      (if passCancelled g s then discard url s else record url url s)))
      as [-> | (_ & _ & _ & _ & ->)];
    destruct (passCancelled g s); by left.
  - destruct (afterAll_cases g (setPhase g i (settlePromise (Normal Resolved))
      (if passCancelled g s then discard url s
       else record url (createObjectURL s).1 (createObjectURL s).2)))
      as [-> | (_ & _ & _ & _ & ->)];
    destruct (passCancelled g s); try (by left);
    cbn [objectUrls setPhase upd_passes upd_isDeckReady record upd_readyCount
         upd_inFlight upd_version upd_imagePool createObjectURL snd fst
         upd_objectSeq upd_objectUrls];
    set_solver.
Qed.

Lemma clearTimeout_objectUrls (handle : option nat) (s : State) :
  objectUrls (clearTimeout handle s) = objectUrls s.
Proof. by destruct handle. Qed.

Lemma startOver_objectUrls (deckId : string) (s : State) (u : string) :
  u ∈ objectUrls (startOver deckId s) → u ∈ objectUrls s.
Proof.
  unfold startOver.
  destruct (prefetchEffect_spec (prefetchCleanup (resetDeck deckId s)))
    as (_ & _ & _ & -> & _).
  rewrite (proj2 (proj2 (prefetchCleanup_frame (resetDeck deckId s)))).
  rewrite resetDeck_eq. cbn [objectUrls]. rewrite releasePool_live.
  intros [Hu _]. by rewrite clearTimeout_objectUrls in Hu.
Qed.

Lemma handle_live_blob (e : Event) (s : State) : live_blob s → live_blob (handle e s).
Proof.
  intros Hlive u. destruct e as [d|dx l| |t|deckId|g i r|g i r]; cbn [handle].
  - unfold handleChoice. destruct (currentCat s); [|by apply Hlive].
    destruct (isAnimating s || negb (isDeckReady s)); [by apply Hlive|].
    unfold clearTimeout, setTimeout. cbn [objectUrls upd_timeoutRef upd_timerSeq
      upd_timers upd_isAnimating upd_swipeDirection timeoutRef].
    destruct (timeoutRef s); apply Hlive.
  - unfold onSwiping. destruct (currentCat s); [|by apply Hlive].
    destruct (isAnimating s); apply Hlive.
  - unfold onSwiped. destruct (swipeDirection s); apply Hlive.
  - unfold fireTimer. destruct (timers s !! t) as [[[] cat]|]; apply Hlive.
  - destruct (screen s); try apply Hlive.
    intros Hu. by apply Hlive, (startOver_objectUrls deckId).
  - rewrite fetchSettled_objectUrls. apply Hlive.
  - intros Hu. apply blobSettled_objectUrls in Hu as [Hu | ->]; [by apply Hlive|].
    apply createObjectURL_blob.
Qed.

Lemma reachable_live_blob (deck : list CatCard) (s : State) :
  reachable deck s → live_blob s.
Proof.
  induction 1 as [|s e _ IH].
  - intros u. unfold mount.
    replace (objectUrls (thresholdEffect (prefetchEffect (initial deck))))
      with (objectUrls (prefetchEffect (initial deck)))
      by (by destruct (thresholdEffect_cases (prefetchEffect (initial deck)))
            as [-> | [_ ->]]).
    destruct (prefetchEffect_spec (initial deck)) as (_ & _ & _ & -> & _).
    cbn [initial objectUrls]. set_solver.
  - intros u. unfold step.
    replace (objectUrls (thresholdEffect (handle e s)))
      with (objectUrls (handle e s))
      by (by destruct (thresholdEffect_cases (handle e s)) as [-> | [_ ->]]).
    by apply handle_live_blob.
Qed.

(** ** No job throws *)

Lemma no_reject_ext (s s' : State) : passes s' = passes s → no_reject s → no_reject s'.
Proof. unfold no_reject. by intros ->. Qed.

Lemma no_reject_setPhase (g i : nat) (ph : Phase) (s : State) :
  (∀ e, ph ≠ Rejected e) → no_reject s → no_reject (setPhase g i ph s).
Proof.
  intros Hph Hs. unfold no_reject, setPhase. cbn [passes upd_passes].
  apply Forall_alter; [done|]. intros p _ Hp. cbn [withJobs fetchJobs].
  apply Forall_alter; [done|]. by intros j _ _.
Qed.

Lemma fetchSettled_no_reject (g i : nat) (r : FetchResult) (s : State) :
  no_reject s → no_reject (fetchSettled g i r s).
Proof.
  intros Hs. unfold fetchSettled. destruct (jobAt g i s) as [[url []]|]; try done.
  destruct (fetchFailed r) eqn:Hr.
  - rewrite afterFetch_failed by done. cbv zeta.
    apply (no_reject_ext _ _ (afterAll_passes _ _)), no_reject_setPhase; [done|].
    by destruct (passCancelled g s).
  - destruct r as [|[]]; try done. rewrite afterFetch_ok. cbv zeta.
    by apply (no_reject_ext _ _ (afterAll_passes _ _)), no_reject_setPhase.
Qed.

Lemma blobSettled_no_reject (g i : nat) (r : BlobResult) (s : State) :
  no_reject s → no_reject (blobSettled g i r s).
Proof.
  intros Hs. unfold blobSettled. destruct (jobAt g i s) as [[url []]|]; try done.
  destruct r; [rewrite afterBlob_rejected | rewrite afterBlob_ready]; cbv zeta;
    apply (no_reject_ext _ _ (afterAll_passes _ _)), no_reject_setPhase; try done;
    by destruct (passCancelled g s).
Qed.

Lemma prefetchEffect_no_reject (s : State) : no_reject s → no_reject (prefetchEffect s).
Proof.
  intros Hs. unfold no_reject.
  destruct (prefetchEffect_spec s) as (-> & _).
  apply Forall_app. split; [done|]. constructor; [|done]. cbn [fetchJobs].
  unfold initJobs. apply Forall_fmap, Forall_forall. intros cat _ e. cbn [phase].
  by destruct (cacheHit (imagePool s) cat).
Qed.

Lemma startOver_no_reject (deckId : string) (s : State) :
  no_reject s → no_reject (startOver deckId s).
Proof.
  intros Hs. unfold startOver. apply prefetchEffect_no_reject.
  unfold no_reject, prefetchCleanup, upd_passes. cbn [passes].
  rewrite resetDeck_eq. cbn [passes].
  apply Forall_alter; [done|]. by intros p _ Hp.
Qed.

Lemma handle_no_reject (e : Event) (s : State) : no_reject s → no_reject (handle e s).
Proof.
  intros Hs. destruct e as [d|dx l| |t|deckId|g i r|g i r]; cbn [handle].
  - destruct (handleChoice_frame d s) as (_ & Hps & _). by apply (no_reject_ext s).
  - destruct (onSwiping_frame dx l s) as (_ & Hps & _). by apply (no_reject_ext s).
  - destruct (onSwiped_frame s) as (_ & Hps & _). by apply (no_reject_ext s).
  - destruct (fireTimer_frame t s) as (_ & Hps & _). by apply (no_reject_ext s).
  - destruct (screen s); try done. by apply startOver_no_reject.
  - by apply fetchSettled_no_reject.
  - by apply blobSettled_no_reject.
Qed.

Lemma reachable_no_reject (deck : list CatCard) (s : State) :
  reachable deck s → no_reject s.
Proof.
  induction 1 as [|s e _ IH].
  - apply (no_reject_ext (prefetchEffect (initial deck)));
      [apply thresholdEffect_passes|].
    apply prefetchEffect_no_reject. constructor.
  - apply (no_reject_ext (handle e s)); [apply thresholdEffect_passes|].
    by apply handle_no_reject.
Qed.

(** ** Readiness *)

Lemma fetchSettled_readyCount (g i : nat) (r : FetchResult) (s : State) :
  readyCount s ≤ readyCount (fetchSettled g i r s) ≤ readyCount s + 1.
Proof.
  unfold fetchSettled. destruct (jobAt g i s) as [[url []]|]; try lia.
  destruct (fetchFailed r) eqn:Hr.
  - rewrite afterFetch_failed by done. cbv zeta.
    destruct (afterAll_cases g (setPhase g i (settlePromise (Normal Resolved))
      (if passCancelled g s then discard url s else record url url s)))
      as [-> | (_ & _ & _ & _ & ->)];
    destruct (passCancelled g s); simpl; lia.
  - destruct r as [|[]]; try done. rewrite afterFetch_ok. cbv zeta.
    destruct (afterAll_cases g (setPhase g i (settlePromise (Normal AwaitBlob)) s))
      as [-> | (_ & _ & _ & _ & ->)]; simpl; lia.
Qed.

Lemma blobSettled_readyCount (g i : nat) (r : BlobResult) (s : State) :
  readyCount s ≤ readyCount (blobSettled g i r s) ≤ readyCount s + 1.
Proof.
  unfold blobSettled. destruct (jobAt g i s) as [[url []]|]; try lia.
  destruct r; [rewrite afterBlob_rejected | rewrite afterBlob_ready]; cbv zeta.
  - destruct (afterAll_cases g (setPhase g i (settlePromise (Normal Resolved))
      (if passCancelled g s then discard url s else record url url s)))
      as [-> | (_ & _ & _ & _ & ->)];
    destruct (passCancelled g s); simpl; lia.
  - destruct (afterAll_cases g (setPhase g i (settlePromise (Normal Resolved))
      (if passCancelled g s then discard url s
       else record url (createObjectURL s).1 (createObjectURL s).2)))
      as [-> | (_ & _ & _ & _ & ->)];
    destruct (passCancelled g s); simpl; lia.
Qed.

(** C1. For every deck, once each job of the prefetch run of the installed
    deck has resolved (its image cached, or its fallback recorded), the deck is
    ready and [readyCount] is the length of the deck; the run has one job per
    card.  With an empty deck there is no job, so this holds from the mount
    on. *)
Theorem all_settled_ready (deck : list CatCard) (s : State) :
  reachable deck s →
  Forall (λ j, phase j = Resolved) (liveJobs s) →
  length (liveJobs s) = length (cats s) ∧
  isDeckReady s = true ∧
  readyCount s = length (cats s).
Proof.
  intros Hs Hall. destruct (reachable_inv deck s Hs) as [Hinv Hready].
  destruct (run_inv_live s Hinv) as (Hlen & _ & Hcnt & _).
  apply forallb_resolved, resolvedCount_all in Hall.
  assert (readyCount s = length (cats s)) as Hn by congruence.
  repeat split; try done. apply Hready. rewrite Hn. apply threshold_le.
Qed.

Lemma all_settled_ready_witness :
  (Forall (λ j, phase j = Resolved) (liveJobs run_two_settled) ∧
   length (liveJobs run_two_settled) = length (cats run_two_settled) ∧
   isDeckReady run_two_settled = true ∧
   readyCount run_two_settled = length (cats run_two_settled)) ∧
  (Forall (λ j, phase j = Resolved) (liveJobs (mount [])) ∧
   length (liveJobs (mount [])) = length (cats (mount [])) ∧
   isDeckReady (mount []) = true ∧
   readyCount (mount []) = length (cats (mount []))).
Proof.
  split.
  - assert (Forall (λ j, phase j = Resolved) (liveJobs run_two_settled)) as Hall
      by (vm_compute; repeat constructor).
    split; [exact Hall|].
    apply (all_settled_ready (generateDeck "d" 2)); [|exact Hall].
    apply reachable_run. constructor.
  - assert (Forall (λ j, phase j = Resolved) (liveJobs (mount []))) as Hall
      by (vm_compute; constructor).
    split; [exact Hall|].
    apply (all_settled_ready []); [constructor | exact Hall].
Defined.

(** C2. For a deck that is not empty, the deck is ready exactly when
    [readyCount], the number of resolved jobs of the run, has reached
    [min(INITIAL_READY_COUNT, N)].  With more than [INITIAL_READY_COUNT] cards
    it is therefore ready at [readyCount = INITIAL_READY_COUNT], while a job
    of the run is still unresolved. *)
Theorem ready_at_threshold (deck : list CatCard) (s : State) :
  reachable deck s →
  cats s ≠ [] →
  readyCount s = resolvedCount (liveJobs s) ∧
  (isDeckReady s = true ↔
   Nat.min INITIAL_READY_COUNT (length (cats s)) ≤ readyCount s) ∧
  (INITIAL_READY_COUNT < length (cats s) → readyCount s = INITIAL_READY_COUNT →
   isDeckReady s = true ∧ ∃ i j, liveJobs s !! i = Some j ∧ phase j ≠ Resolved).
Proof.
  intros Hs Hne. destruct (reachable_inv deck s Hs) as [Hinv Hready].
  destruct (run_inv_live s Hinv) as (Hlen & _ & Hcnt & _).
  assert (isDeckReady s = true ↔ threshold s ≤ readyCount s) as Hiff.
  { split; [|done]. by destruct Hinv as (? & ? & ? & ? & ? & ? & ? & ? & ? & ?). }
  split; [done|]. split; [done|]. intros Hlt Hrc. split.
  - apply Hready. unfold threshold. lia.
  - apply unresolved_exists. lia.
Qed.

Lemma ready_at_threshold_witness :
  cats run_three_of_twelve ≠ [] ∧
  INITIAL_READY_COUNT < length (cats run_three_of_twelve) ∧
  readyCount run_three_of_twelve = INITIAL_READY_COUNT ∧
  isDeckReady run_three_of_twelve = true ∧
  ∃ i j, liveJobs run_three_of_twelve !! i = Some j ∧ phase j ≠ Resolved.
Proof.
  assert (cats run_three_of_twelve ≠ []) as Hne by (vm_compute; discriminate).
  assert (INITIAL_READY_COUNT < length (cats run_three_of_twelve)) as Hlt
    by (vm_compute; lia).
  assert (readyCount run_three_of_twelve = INITIAL_READY_COUNT) as Hrc
    by (vm_compute; reflexivity).
  split; [exact Hne|]. split; [exact Hlt|]. split; [exact Hrc|].
  refine (proj2 (proj2 (ready_at_threshold (generateDeck "d" TOTAL_CATS)
            run_three_of_twelve _ Hne)) Hlt Hrc).
  apply reachable_run. constructor.
Defined.

Lemma step_readyCount (s : State) (e : Event) :
  (∀ deckId, e ≠ StartOver deckId) →
  readyCount s ≤ readyCount (step s e) ≤ readyCount s + 1.
Proof.
  intros He. unfold step. rewrite thresholdEffect_readyCount.
  destruct e as [d|dx l| |t|deckId|g i r|g i r]; simpl.
  - destruct (handleChoice_frame d s) as (_ & _ & -> & _). lia.
  - destruct (onSwiping_frame dx l s) as (_ & _ & -> & _). lia.
  - destruct (onSwiped_frame s) as (_ & _ & -> & _). lia.
  - destruct (fireTimer_frame t s) as (_ & _ & -> & _). lia.
  - by destruct (He deckId).
  - apply fetchSettled_readyCount.
  - apply blobSettled_readyCount.
Qed.

(** C5. In every reachable state [readyCount] is the number of resolved jobs
    of the run of the installed deck, so each job counts once, and it is at
    most the length of the deck.  An event other than a reset leaves it where
    it is or adds one, and the settlements of a job that has resolved, through
    the cache-hit branch or through [finally], are ignored. *)
Theorem readyCount_once_per_job (deck : list CatCard) (s : State) (e : Event) :
  reachable deck s →
  (∀ deckId, e ≠ StartOver deckId) →
  readyCount s = resolvedCount (liveJobs s) ∧
  length (liveJobs s) = length (cats s) ∧
  readyCount s ≤ length (cats s) ∧
  readyCount s ≤ readyCount (step s e) ≤ readyCount s + 1 ∧
  readyCount (step s e) ≤ length (cats (step s e)) ∧
  (∀ g i j r rb, jobAt g i s = Some j → phase j = Resolved →
     fetchSettled g i r s = s ∧ blobSettled g i rb s = s).
Proof.
  intros Hs He. destruct (reachable_inv deck s Hs) as [Hinv _].
  destruct (run_inv_live s Hinv) as (Hlen & _ & Hcnt & _).
  assert (reachable deck (step s e)) as Hs' by (by constructor).
  destruct (reachable_inv deck _ Hs') as [Hinv' _].
  destruct (run_inv_live _ Hinv') as (Hlen' & _ & Hcnt' & _).
  pose proof (resolvedCount_le (liveJobs s)) as Hle.
  pose proof (resolvedCount_le (liveJobs (step s e))) as Hle'.
  split; [done|]. split; [done|]. split; [lia|].
  split; [by apply step_readyCount|]. split; [lia|].
  intros g i j r rb Hj Hph. unfold fetchSettled, blobSettled. rewrite Hj.
  destruct j as [u ph]. cbn [phase] in Hph. by subst ph.
Qed.

Lemma readyCount_once_per_job_witness :
  (∀ deckId, FetchSettled 0 1 (FetchResponse false) ≠ StartOver deckId) ∧
  readyCount run_three_of_twelve = resolvedCount (liveJobs run_three_of_twelve) ∧
  length (liveJobs run_three_of_twelve) = length (cats run_three_of_twelve) ∧
  readyCount run_three_of_twelve ≤ length (cats run_three_of_twelve) ∧
  readyCount run_three_of_twelve
    ≤ readyCount (step run_three_of_twelve (FetchSettled 0 1 (FetchResponse false)))
    ≤ readyCount run_three_of_twelve + 1 ∧
  readyCount (step run_three_of_twelve (FetchSettled 0 1 (FetchResponse false)))
    ≤ length (cats (step run_three_of_twelve (FetchSettled 0 1 (FetchResponse false)))) ∧
  (∀ g i j r rb, jobAt g i run_three_of_twelve = Some j → phase j = Resolved →
     fetchSettled g i r run_three_of_twelve = run_three_of_twelve ∧
     blobSettled g i rb run_three_of_twelve = run_three_of_twelve).
Proof.
  assert (∀ deckId, FetchSettled 0 1 (FetchResponse false) ≠ StartOver deckId) as He
    by discriminate.
  split; [exact He|].
  apply (readyCount_once_per_job (generateDeck "d" TOTAL_CATS)); [|exact He].
  apply reachable_run. constructor.
Defined.

(** ** Cancellation *)

Lemma thresholdEffect_fix (s : State) : ready_inv s → thresholdEffect s = s.
Proof.
  intros [_ Hready]. unfold thresholdEffect. fold (threshold s).
  destruct (isDeckReady s) eqn:Hr; [done|]. simpl.
  destruct (0 <? threshold s); [|done]. simpl.
  destruct (threshold s <=? readyCount s) eqn:Hle; [|done].
  apply Nat.leb_le in Hle. by specialize (Hready Hle).
Qed.

Lemma thresholdEffect_same (s s' : State) :
  cats s' = cats s → readyCount s' = readyCount s →
  isDeckReady s' = isDeckReady s →
  isDeckReady (thresholdEffect s) = isDeckReady s →
  isDeckReady (thresholdEffect s') = isDeckReady s'.
Proof.
  intros Hc Hrc Hrd. unfold thresholdEffect. rewrite Hc, Hrc, Hrd.
  destruct (isDeckReady s) eqn:Hr; simpl; [by rewrite Hrd|].
  destruct (_ && _); simpl; [done|]. by rewrite Hr, Hrd.
Qed.

(** The settlement of a job of a cancelled run. *)
Lemma cancelled_settlement (s : State) (g i : nat) (r : FetchResult) (rb : BlobResult) :
  ready_inv s → S g < length (passes s) →
  passCancelled g s = true ∧
  (readyCount (step s (FetchSettled g i r)) = readyCount s ∧
   imagePool (step s (FetchSettled g i r)) = imagePool s ∧
   isDeckReady (step s (FetchSettled g i r)) = isDeckReady s ∧
   objectUrls (step s (FetchSettled g i r)) = objectUrls s ∧
   controller (step s (FetchSettled g i r)) = controller s) ∧
  (readyCount (step s (BlobSettled g i rb)) = readyCount s ∧
   imagePool (step s (BlobSettled g i rb)) = imagePool s ∧
   isDeckReady (step s (BlobSettled g i rb)) = isDeckReady s ∧
   objectUrls (step s (BlobSettled g i rb)) = objectUrls s ∧
   controller (step s (BlobSettled g i rb)) = controller s).
Proof.
  intros Hinv Hg.
  assert (passCancelled g s = true) as Hc by (apply run_inv_cancelled; [apply Hinv|done]).
  pose proof (thresholdEffect_fix s Hinv) as Hfix.
  split; [done|]. split.
  - destruct (fetchSettled_cancelled g i r s Hc) as (Hrc & Hpool & Hrd & Hou & Hctl).
    unfold step. cbn [handle].
    rewrite thresholdEffect_readyCount, thresholdEffect_imagePool,
      thresholdEffect_controller.
    repeat split; try done.
    + rewrite <- Hrd. apply (thresholdEffect_same s); try done.
      * by apply controller_cats.
      * by rewrite Hfix.
    + by destruct (thresholdEffect_cases (fetchSettled g i r s)) as [-> | [_ ->]].
  - destruct (blobSettled_cancelled g i rb s Hc) as (Hrc & Hpool & Hrd & Hou & Hctl).
    unfold step. cbn [handle].
    rewrite thresholdEffect_readyCount, thresholdEffect_imagePool,
      thresholdEffect_controller.
    repeat split; try done.
    + rewrite <- Hrd. apply (thresholdEffect_same s); try done.
      * by apply controller_cats.
      * by rewrite Hfix.
    + by destruct (thresholdEffect_cases (blobSettled g i rb s)) as [-> | [_ ->]].
Qed.

Lemma superseded_run (s : State) (deckId : string) (es : list Event) (g : nat) :
  ready_inv s → g < length (passes s) →
  ready_inv (run (thresholdEffect (startOver deckId s)) es) ∧
  S g < length (passes (run (thresholdEffect (startOver deckId s)) es)).
Proof.
  intros Hinv Hg. split.
  - apply run_inv_run, startOver_inv_ready, Hinv.
  - pose proof (run_passes_length (thresholdEffect (startOver deckId s)) es) as Hlen.
    rewrite thresholdEffect_passes, startOver_passes_length in Hlen. lia.
Qed.

(** C4. After a reset, from whatever reachable state and however the
    component goes on, every run of the prefetch effect that existed before
    the reset is cancelled, and the settlement of any of its jobs, at [fetch]
    or at [blob()], changes neither [readyCount] nor the image pool, nor the
    readiness flag, the live object URLs or anything the controller owns.
    At the summary screen, where the reset button is, the reset and the
    effects it triggers are the step on [StartOver]. *)
Theorem superseded_settlement_noop
    (deck : list CatCard) (s : State) (deckId : string) (es : list Event)
    (g i : nat) (r : FetchResult) (rb : BlobResult) :
  reachable deck s →
  g < length (passes s) →
  let s' := run (thresholdEffect (startOver deckId s)) es in
  (screen s = summary →
   step s (StartOver deckId) = thresholdEffect (startOver deckId s)) ∧
  passCancelled g s' = true ∧
  (readyCount (step s' (FetchSettled g i r)) = readyCount s' ∧
   imagePool (step s' (FetchSettled g i r)) = imagePool s' ∧
   isDeckReady (step s' (FetchSettled g i r)) = isDeckReady s' ∧
   objectUrls (step s' (FetchSettled g i r)) = objectUrls s' ∧
   controller (step s' (FetchSettled g i r)) = controller s') ∧
  (readyCount (step s' (BlobSettled g i rb)) = readyCount s' ∧
   imagePool (step s' (BlobSettled g i rb)) = imagePool s' ∧
   isDeckReady (step s' (BlobSettled g i rb)) = isDeckReady s' ∧
   objectUrls (step s' (BlobSettled g i rb)) = objectUrls s' ∧
   controller (step s' (BlobSettled g i rb)) = controller s').
Proof.
  intros Hs Hg s'. split; [exact (step_StartOver deckId s)|].
  destruct (superseded_run s deckId es g (reachable_inv deck s Hs) Hg) as [Hinv' Hg'].
  exact (cancelled_settlement s' g i r rb Hinv' Hg').
Qed.

Lemma superseded_settlement_noop_witness :
  0 < length (passes run_summary_outstanding) ∧
  let s' := run (thresholdEffect (startOver "e" run_summary_outstanding))
              [FetchSettled 1 0 (FetchResponse true)] in
  (screen run_summary_outstanding = summary →
   step run_summary_outstanding (StartOver "e")
   = thresholdEffect (startOver "e" run_summary_outstanding)) ∧
  passCancelled 0 s' = true ∧
  (readyCount (step s' (FetchSettled 0 5 FetchRejected)) = readyCount s' ∧
   imagePool (step s' (FetchSettled 0 5 FetchRejected)) = imagePool s' ∧
   isDeckReady (step s' (FetchSettled 0 5 FetchRejected)) = isDeckReady s' ∧
   objectUrls (step s' (FetchSettled 0 5 FetchRejected)) = objectUrls s' ∧
   controller (step s' (FetchSettled 0 5 FetchRejected)) = controller s') ∧
  (readyCount (step s' (BlobSettled 0 5 BlobReady)) = readyCount s' ∧
   imagePool (step s' (BlobSettled 0 5 BlobReady)) = imagePool s' ∧
   isDeckReady (step s' (BlobSettled 0 5 BlobReady)) = isDeckReady s' ∧
   objectUrls (step s' (BlobSettled 0 5 BlobReady)) = objectUrls s' ∧
   controller (step s' (BlobSettled 0 5 BlobReady)) = controller s').
Proof.
  assert (0 < length (passes run_summary_outstanding)) as Hg
    by (vm_compute; lia).
  split; [exact Hg|].
  refine (superseded_settlement_noop (generateDeck "d" TOTAL_CATS)
            run_summary_outstanding "e" [FetchSettled 1 0 (FetchResponse true)]
            0 5 FetchRejected BlobReady _ Hg).
  unfold run_summary_outstanding, run_three_of_twelve.
  apply reachable_run, reachable_run. constructor.
Defined.

(** ** Reset *)

Lemma clearTimeout_owned (s : State) :
  timers_owned s → timers (clearTimeout (timeoutRef s) s) = ∅.
Proof.
  intros Htm. apply map_eq. intros t. rewrite lookup_empty.
  destruct (timers (clearTimeout (timeoutRef s) s) !! t) as [cl|] eqn:Ht; [|done].
  exfalso. unfold clearTimeout in Ht. destruct (timeoutRef s) as [t0|] eqn:Href.
  - cbn [timers upd_timers] in Ht. apply lookup_delete_Some in Ht as [Hne Ht].
    specialize (Htm t ltac:(eauto)). congruence.
  - specialize (Htm t ltac:(eauto)). congruence.
Qed.

Lemma resetDeck_controller (deckId : string) (s : State) :
  controller (resetDeck deckId s) =
    (generateDeck deckId TOTAL_CATS, 0, [], None, 0%Z, false, None,
     timers (clearTimeout (timeoutRef s) s), timerSeq s) ∧
  imagePool (resetDeck deckId s) = ∅ ∧
  inFlight (resetDeck deckId s) = ∅ ∧
  readyCount (resetDeck deckId s) = 0 ∧
  isDeckReady (resetDeck deckId s) = false.
Proof. rewrite resetDeck_eq. done. Qed.

(** The prefetch effect on a deck of which no card is a cache hit: nothing
    is counted, and with at least one card the loading screen stays. *)
Lemma prefetch_all_missed (s : State) :
  cats s ≠ [] → Forall (λ cat, cacheHit (imagePool s) cat = false) (cats s) →
  controller (thresholdEffect (prefetchEffect s)) = controller s ∧
  imagePool (thresholdEffect (prefetchEffect s)) = imagePool s ∧
  readyCount (thresholdEffect (prefetchEffect s)) = 0 ∧
  isDeckReady (thresholdEffect (prefetchEffect s)) = false ∧
  liveJobs (thresholdEffect (prefetchEffect s)) =
    (λ cat, {| jobUrl := url cat; phase := AwaitFetch |}) <$> cats s.
Proof.
  intros Hne Hmiss.
  destruct (prefetchEffect_spec s) as (Hps & Hctl & Hpool & _ & Hrc & Hrd).
  rewrite initJobs_miss in Hps, Hrc, Hrd by done.
  rewrite resolvedCount_miss in Hrc. rewrite forallb_miss in Hrd by done.
  assert (thresholdEffect (prefetchEffect s) = prefetchEffect s) as ->.
  { unfold thresholdEffect. rewrite Hrc, Hrd, (controller_cats _ _ Hctl).
    destruct (cats s); [done|]. by rewrite andb_false_r. }
  repeat split; try assumption.
  unfold liveJobs. by rewrite Hps, last_snoc.
Qed.

(** C7. [resetDeck] is a total function of the state.  When it returns,
    [timeoutRef] is cleared and the timeout it held is no longer pending (no
    timeout at all is, in a state where [timeoutRef] holds the only one), the
    image pool and the in-flight set are empty, the deck is a generated deck
    of [TOTAL_CATS] = 12 cards, [activeIndex] and [readyCount] are 0, the
    liked list is empty and the loading screen shows.  Once the prefetch
    effect has run on the new deck this still holds, except that the in-flight
    set then holds the requests of the new deck. *)
Theorem resetDeck_postcondition (deckId : string) (s : State) :
  (timeoutRef (resetDeck deckId s) = None ∧
   (∀ t, timeoutRef s = Some t → timers (resetDeck deckId s) !! t = None) ∧
   (timers_owned s → timers (resetDeck deckId s) = ∅) ∧
   imagePool (resetDeck deckId s) = ∅ ∧
   inFlight (resetDeck deckId s) = ∅ ∧
   cats (resetDeck deckId s) = generateDeck deckId TOTAL_CATS ∧
   length (cats (resetDeck deckId s)) = 12 ∧
   activeIndex (resetDeck deckId s) = 0 ∧
   liked (resetDeck deckId s) = [] ∧
   readyCount (resetDeck deckId s) = 0 ∧
   screen (resetDeck deckId s) = loading) ∧
  (timeoutRef (thresholdEffect (startOver deckId s)) = None ∧
   imagePool (thresholdEffect (startOver deckId s)) = ∅ ∧
   cats (thresholdEffect (startOver deckId s)) = generateDeck deckId TOTAL_CATS ∧
   activeIndex (thresholdEffect (startOver deckId s)) = 0 ∧
   liked (thresholdEffect (startOver deckId s)) = [] ∧
   readyCount (thresholdEffect (startOver deckId s)) = 0 ∧
   screen (thresholdEffect (startOver deckId s)) = loading).
Proof.
  destruct (resetDeck_controller deckId s) as (Hctl & Hpool & Hfl & Hrc & Hrd).
  destruct (controller_fields _ _ _ _ _ _ _ _ _ _ Hctl)
    as (Hcats & Hidx & Hliked & _ & _ & _ & Href & Htimers & _).
  assert (screen (resetDeck deckId s) = loading) as Hscreen.
  { unfold screen. by rewrite Hrd. }
  split.
  - rewrite Hcats, generateDeck_length.
    repeat split; try assumption; try reflexivity.
    + intros t Ht. rewrite Htimers, Ht. apply lookup_delete_eq.
    + intros Htm. rewrite Htimers. by apply clearTimeout_owned.
  - unfold startOver.
    destruct (prefetchCleanup_frame (resetDeck deckId s)) as (Hctl0 & Hpool0 & _).
    pose proof (controller_cats _ _ Hctl0) as Hcats0.
    rewrite Hctl in Hctl0. rewrite Hpool in Hpool0.
    destruct (prefetch_all_missed (prefetchCleanup (resetDeck deckId s)))
      as (Hctl1 & Hpool1 & Hrc1 & Hrd1 & _).
    { rewrite Hcats0, Hcats. unfold generateDeck. discriminate. }
    { rewrite Hcats0, Hcats, Hpool0. eapply Forall_impl; [apply generateDeck_remote|].
      intros cat [Hne _]. by apply cacheHit_empty. }
    rewrite Hctl0 in Hctl1. rewrite Hpool0 in Hpool1.
    destruct (controller_fields _ _ _ _ _ _ _ _ _ _ Hctl1)
      as (Hcats1 & Hidx1 & Hliked1 & _ & _ & _ & Href1 & _).
    repeat split; try assumption.
    unfold screen. by rewrite Hrd1.
Qed.

(** ** Releasing the image pool *)

(** C8. One call of [releasePool] empties the image pool and the in-flight
    set, and any number of further calls changes nothing at all; being a
    function of the state with no statement that throws, every call returns.
    A call revokes the value of every entry that starts with [blob:] and no
    other URL; in a reachable state these are all the live object URLs the
    pool holds.  A value that does not start with [blob:], such as the remote
    URL of a generated card stored as a fallback, is left alone. *)
Theorem releasePool_repeatable (s : State) (n : nat) :
  Nat.iter n releasePool (releasePool s) = releasePool s ∧
  imagePool (Nat.iter n releasePool (releasePool s)) = ∅ ∧
  inFlight (Nat.iter n releasePool (releasePool s)) = ∅ ∧
  (∀ k value, imagePool s !! k = Some value →
     startsWith "blob:" value = true → value ∉ objectUrls (releasePool s)) ∧
  (∀ u, u ∈ objectUrls s →
     ¬ (startsWith "blob:" u = true ∧ ∃ k, imagePool s !! k = Some u) →
     u ∈ objectUrls (releasePool s)) ∧
  (∀ deck k value, reachable deck s → imagePool s !! k = Some value →
     value ∈ objectUrls s → value ∉ objectUrls (releasePool s)) ∧
  (∀ value s0, startsWith "blob:" value = false → releaseEntry value s0 = s0) ∧
  (∀ deckId count cat s0, cat ∈ generateDeck deckId count →
     releaseEntry (url cat) s0 = s0).
Proof.
  assert (Nat.iter n releasePool (releasePool s) = releasePool s) as Hn.
  { induction n as [|n IH]; [done|]. simpl. rewrite IH. apply releasePool_idem. }
  assert (∀ value s0, startsWith "blob:" value = false → releaseEntry value s0 = s0)
    as Hremote.
  { intros value s0 Hb. unfold releaseEntry. by rewrite Hb. }
  rewrite Hn. destruct (releasePool_cleared s) as [Hpool Hfl].
  assert (∀ k value, imagePool s !! k = Some value →
            startsWith "blob:" value = true → value ∉ objectUrls (releasePool s))
    as Hrevoked.
  { intros k value Hk Hb Hin. apply releasePool_live in Hin as [_ Hin].
    apply Hin. eauto. }
  split; [done|]. split; [done|]. split; [done|].
  split; [exact Hrevoked|]. split; [|split; [|split]].
  - intros u Hu Hno. by apply releasePool_live.
  - intros deck k value Hs Hk Hin. apply (Hrevoked k value Hk).
    by apply (reachable_live_blob deck s Hs).
  - exact Hremote.
  - intros deckId count cat s0 Hcat. apply Hremote.
    pose proof (generateDeck_remote deckId count) as Hall.
    rewrite Forall_forall in Hall. by destruct (Hall cat Hcat).
Qed.

(** C9. [release(url)] looks at the entry stored under [url] only.  It takes
    the stored value out of the live object URLs exactly when that value
    starts with [blob:], the mark of a locally owned reference (in a
    reachable state every live object URL has it); every other
    live URL and the pool itself stay as they are, and for a value without
    that prefix, such as a remote URL kept as a fallback, the state is
    returned unchanged.  Releasing twice is the same as releasing once, and
    on a cleared pool it does nothing. *)
Theorem release_single_entry (url : string) (s : State) :
  (∀ value, imagePool s !! url = Some value → value ∈ objectUrls s →
     (value ∉ objectUrls (release url s) ↔ startsWith "blob:" value = true)) ∧
  (∀ value u, imagePool s !! url = Some value → u ≠ value →
     (u ∈ objectUrls (release url s) ↔ u ∈ objectUrls s)) ∧
  (∀ value, imagePool s !! url = Some value →
     startsWith "blob:" value = false → release url s = s) ∧
  (∀ deck value, reachable deck s → imagePool s !! url = Some value →
     value ∈ objectUrls s → value ∉ objectUrls (release url s)) ∧
  imagePool (release url s) = imagePool s ∧
  release url (release url s) = release url s ∧
  (imagePool s = ∅ → release url s = s).
Proof.
  unfold release. split; [|split; [|split; [|split; [|split; [|split]]]]].
  - intros value Hv Hin. rewrite Hv, releaseEntry_live.
    destruct (startsWith "blob:" value); naive_solver.
  - intros value u Hv Hne. rewrite Hv, releaseEntry_live.
    split; [by intros [? _] | intros ?; split; [done | by intros [? _]]].
  - intros value Hv Hb. rewrite Hv. unfold releaseEntry. by rewrite Hb.
  - intros deck value Hs Hv Hin. rewrite Hv, releaseEntry_live.
    pose proof (reachable_live_blob deck s Hs value Hin) as Hb.
    intros [_ Hno]. by apply Hno.
  - destruct (imagePool s !! url); [|done].
    rewrite releaseEntry_frame. by destruct s.
  - destruct (imagePool s !! url) as [v|] eqn:Hv; [|by rewrite Hv].
    replace (imagePool (releaseEntry v s)) with (imagePool s).
    + rewrite Hv. apply releaseEntry_idem.
    + rewrite (releaseEntry_frame v s). by destruct s.
  - intros ->. by rewrite lookup_empty.
Qed.

(** ** Classification *)

(** C10. While [isDeckReady] is false [handleChoice] returns the state it was
    given, whether or not there is a current card: the direction flag, the
    animating flag, the timers and [timeoutRef], [activeIndex] and the liked
    list are those of before, also once the effects have run. *)
Theorem classify_before_ready_noop (direction : Direction) (s : State) :
  isDeckReady s = false →
  handleChoice direction s = s ∧
  swipeDirection (step s (Choice direction)) = swipeDirection s ∧
  isAnimating (step s (Choice direction)) = isAnimating s ∧
  timers (step s (Choice direction)) = timers s ∧
  timeoutRef (step s (Choice direction)) = timeoutRef s ∧
  activeIndex (step s (Choice direction)) = activeIndex s ∧
  liked (step s (Choice direction)) = liked s.
Proof.
  intros Hr. pose proof (handleChoice_guard direction s Hr) as Hh.
  split; [done|]. unfold step, handle. rewrite Hh.
  destruct (controller_fields _ _ _ _ _ _ _ _ _ _ (thresholdEffect_controller s))
    as (_ & ? & ? & ? & _ & ? & ? & ? & _).
  by repeat split.
Qed.

Lemma classify_before_ready_noop_witness :
  isDeckReady (App "d") = false ∧
  is_Some (currentCat (App "d")) ∧
  handleChoice DirRight (App "d") = App "d" ∧
  swipeDirection (step (App "d") (Choice DirRight)) = swipeDirection (App "d") ∧
  isAnimating (step (App "d") (Choice DirRight)) = isAnimating (App "d") ∧
  timers (step (App "d") (Choice DirRight)) = timers (App "d") ∧
  timeoutRef (step (App "d") (Choice DirRight)) = timeoutRef (App "d") ∧
  activeIndex (step (App "d") (Choice DirRight)) = activeIndex (App "d") ∧
  liked (step (App "d") (Choice DirRight)) = liked (App "d").
Proof.
  assert (isDeckReady (App "d") = false) as Hr by (vm_compute; reflexivity).
  split; [exact Hr|]. split; [vm_compute; eauto|].
  exact (classify_before_ready_noop DirRight (App "d") Hr).
Defined.

Lemma fetchSettled_controller (g i : nat) (r : FetchResult) (s : State) :
  controller (fetchSettled g i r s) = controller s.
Proof.
  unfold fetchSettled. destruct (jobAt g i s) as [[url []]|]; try done.
  destruct (fetchFailed r) eqn:Hr.
  - rewrite afterFetch_failed by done. cbv zeta.
    destruct (afterAll_cases g (setPhase g i (settlePromise (Normal Resolved))
      (if passCancelled g s then discard url s else record url url s)))
      as [-> | (_ & _ & _ & _ & ->)];
    by destruct (passCancelled g s).
  - destruct r as [|[]]; try done. rewrite afterFetch_ok. cbv zeta.
    by destruct (afterAll_cases g (setPhase g i (settlePromise (Normal AwaitBlob)) s))
      as [-> | (_ & _ & _ & _ & ->)].
Qed.

Lemma blobSettled_controller (g i : nat) (r : BlobResult) (s : State) :
  controller (blobSettled g i r s) = controller s.
Proof.
  unfold blobSettled. destruct (jobAt g i s) as [[url []]|]; try done.
  destruct r; [rewrite afterBlob_rejected | rewrite afterBlob_ready]; cbv zeta.
  - destruct (afterAll_cases g (setPhase g i (settlePromise (Normal Resolved))
      (if passCancelled g s then discard url s else record url url s)))
      as [-> | (_ & _ & _ & _ & ->)];
    by destruct (passCancelled g s).
  - destruct (afterAll_cases g (setPhase g i (settlePromise (Normal Resolved))
      (if passCancelled g s then discard url s
       else record url (createObjectURL s).1 (createObjectURL s).2)))
      as [-> | (_ & _ & _ & _ & ->)];
    by destruct (passCancelled g s).
Qed.

Lemma pendingChoice_controller (t : nat) (closure : Direction * CatCard) (s s' : State) :
  controller s' = controller s → pendingChoice t closure s → pendingChoice t closure s'.
Proof.
  unfold controller, pendingChoice, currentCat. intros Hctl.
  repeat (apply pair_equal_spec in Hctl as [Hctl ?]). congruence.
Qed.

(** While a classification is pending, every event but its own timeout leaves
    the controller as it is. *)
Lemma pendingChoice_step (t : nat) (closure : Direction * CatCard) (s : State) (e : Event) :
  pendingChoice t closure s → keepsTimer t e → controller (step s e) = controller s.
Proof.
  intros (Htm & Href & Han & Hsd & Hcur) He. unfold step.
  rewrite thresholdEffect_controller.
  destruct e as [d|dx l| |t'|deckId|g i r|g i r]; simpl.
  - unfold handleChoice. by rewrite Hcur, Han.
  - unfold onSwiping. by rewrite Hcur, Han.
  - unfold onSwiped. by rewrite Hsd.
  - unfold fireTimer. rewrite Htm, lookup_singleton_ne; [done|]. simpl in He. congruence.
  - assert (isComplete s = false) as Hcomplete.
    { unfold isComplete. apply Nat.leb_gt. unfold currentCat in Hcur.
      by eapply lookup_lt_Some. }
    unfold screen. rewrite Hcomplete. by destruct (isDeckReady s).
  - apply fetchSettled_controller.
  - apply blobSettled_controller.
Qed.

Lemma pendingChoice_run (t : nat) (closure : Direction * CatCard) (s : State)
    (es : list Event) :
  pendingChoice t closure s → Forall (keepsTimer t) es →
  controller (run s es) = controller s.
Proof.
  intros Hp Hes. revert s Hp. induction Hes as [|e es He _ IH]; intros s Hp; [done|].
  simpl. pose proof (pendingChoice_step t closure s e Hp He) as Hctl.
  rewrite IH; [done|]. by eapply pendingChoice_controller.
Qed.

Lemma handleChoice_accepts (direction : Direction) (chosenCat : CatCard) (s : State) :
  timers_owned s → currentCat s = Some chosenCat →
  isAnimating s = false → isDeckReady s = true →
  controller (handleChoice direction s) =
    (cats s, activeIndex s, liked s, Some direction, dragX s, true,
     Some (timerSeq s), {[timerSeq s := (direction, chosenCat)]}, S (timerSeq s)).
Proof.
  intros Htm Hcur Han Hrd. unfold handleChoice. rewrite Hcur, Han, Hrd.
  cbn [orb negb]. unfold setTimeout, controller.
  cbn [cats activeIndex liked swipeDirection dragX isAnimating timeoutRef timers
       timerSeq upd_timeoutRef upd_timerSeq upd_timers upd_isAnimating
       upd_swipeDirection].
  pose proof (clearTimeout_owned s Htm) as Hclear.
  assert (timers (clearTimeout (timeoutRef s)
            (upd_isAnimating (λ _, true) (upd_swipeDirection (λ _, Some direction) s)))
          = ∅) as ->.
  { rewrite <- Hclear. by destruct (timeoutRef s). }
  assert (∀ h s0, cats (clearTimeout h s0) = cats s0 ∧
                  activeIndex (clearTimeout h s0) = activeIndex s0 ∧
                  liked (clearTimeout h s0) = liked s0 ∧
                  swipeDirection (clearTimeout h s0) = swipeDirection s0 ∧
                  dragX (clearTimeout h s0) = dragX s0 ∧
                  isAnimating (clearTimeout h s0) = isAnimating s0 ∧
                  timerSeq (clearTimeout h s0) = timerSeq s0) as Hframe
    by (by intros [] ?).
  destruct (Hframe (timeoutRef s)
    (upd_isAnimating (λ _, true) (upd_swipeDirection (λ _, Some direction) s)))
    as (-> & -> & -> & -> & -> & -> & ->).
  by rewrite insert_empty.
Qed.

(** C6. From a state in which [handleChoice] accepts a classification of the
    current card, the call raises the direction and animating flags and
    starts one timeout.  Whatever happens before that timeout comes due
    (further classify calls, swipes, settlements of the prefetch, clicks),
    [activeIndex] and the liked list stay as they were and a further classify
    call returns the state unchanged.  When the timeout comes due,
    [activeIndex] is one more, the liked list has the classified card appended
    for [right] and is unchanged for [left], and in the same step the
    direction and animating flags and [timeoutRef] are cleared; no timeout is
    left, so nothing commits a second time. *)
Theorem classification_commits_once
    (deck : list CatCard) (s : State) (direction : Direction) (chosenCat : CatCard)
    (es : list Event) :
  reachable deck s →
  currentCat s = Some chosenCat →
  isAnimating s = false →
  isDeckReady s = true →
  Forall (keepsTimer (timerSeq s)) es →
  let s1 := step s (Choice direction) in
  let s2 := run s1 es in
  let s3 := step s2 (TimerFired (timerSeq s)) in
  (swipeDirection s1 = Some direction ∧ isAnimating s1 = true ∧
   timeoutRef s1 = Some (timerSeq s) ∧ activeIndex s1 = activeIndex s ∧
   liked s1 = liked s) ∧
  (activeIndex s2 = activeIndex s ∧ liked s2 = liked s ∧
   swipeDirection s2 = Some direction ∧ isAnimating s2 = true ∧
   ∀ direction', handleChoice direction' s2 = s2) ∧
  (activeIndex s3 = activeIndex s + 1 ∧
   liked s3 = match direction with
              | DirRight => liked s ++ [chosenCat]
              | DirLeft => liked s
              end ∧
   swipeDirection s3 = None ∧ isAnimating s3 = false ∧
   timeoutRef s3 = None ∧ timers s3 = ∅ ∧
   ∀ t, step s3 (TimerFired t) = s3).
Proof.
  intros Hs Hcur Han Hrd Hes s1 s2 s3.
  destruct (reachable_inv deck s Hs) as [Hinv _].
  assert (timers_owned s) as Htm
    by (by destruct Hinv as (? & ? & ? & ? & ? & ? & ? & ? & ? & ?)).
  pose proof (handleChoice_accepts direction chosenCat s Htm Hcur Han Hrd) as Hctl1.
  assert (controller s1 = controller (handleChoice direction s)) as Hs1
    by apply thresholdEffect_controller.
  rewrite Hctl1 in Hs1.
  destruct (controller_fields _ _ _ _ _ _ _ _ _ _ Hs1)
    as (Hc1 & Hi1 & Hl1 & Hd1 & _ & Ha1 & Hr1 & Ht1 & _).
  assert (pendingChoice (timerSeq s) (direction, chosenCat) s1) as Hp1.
  { unfold pendingChoice, currentCat. rewrite Hc1, Hi1. by repeat split. }
  pose proof (pendingChoice_run _ _ s1 es Hp1 Hes) as Hctl2. fold s2 in Hctl2.
  pose proof (pendingChoice_controller _ _ _ _ Hctl2 Hp1)
    as (Ht2 & Hr2 & Ha2 & Hd2 & Hcur2).
  rewrite Hs1 in Hctl2.
  destruct (controller_fields _ _ _ _ _ _ _ _ _ _ Hctl2)
    as (Hc2 & Hi2 & Hl2 & _ & _ & _ & _ & _ & _).
  assert (controller s3 = controller (fireTimer (timerSeq s) s2)) as Hs3
    by apply thresholdEffect_controller.
  assert (controller (fireTimer (timerSeq s) s2) =
          (cats s2, activeIndex s2 + 1,
           match direction with
           | DirRight => liked s2 ++ [chosenCat]
           | DirLeft => liked s2
           end, None, 0%Z, false, None, ∅, timerSeq s2)) as Hfire.
  { unfold fireTimer. rewrite Ht2, lookup_singleton_eq.
    unfold controller, commitChoice.
    destruct direction; simpl; rewrite Ht2, delete_singleton_eq; done. }
  rewrite Hfire in Hs3.
  destruct (controller_fields _ _ _ _ _ _ _ _ _ _ Hs3)
    as (_ & Hi3 & Hl3 & Hd3 & _ & Ha3 & Hr3 & Ht3 & _).
  split; [by repeat split|].
  split; [|split; [|split; [|split; [|split; [|split; [|split]]]]]].
  - repeat split; try done. intros direction'. unfold handleChoice.
    by rewrite Hcur2, Ha2.
  - by rewrite Hi3, Hi2.
  - by rewrite Hl3, Hl2.
  - exact Hd3.
  - exact Ha3.
  - exact Hr3.
  - exact Ht3.
  - intros t. unfold step. cbn [handle]. unfold fireTimer.
    rewrite Ht3, lookup_empty. apply thresholdEffect_fix.
    apply (reachable_inv deck). unfold s3, s2, s1.
    constructor. apply reachable_run. by constructor.
Qed.

Lemma classification_commits_once_witness :
  currentCat run_three_failed = Some first_card ∧
  isAnimating run_three_failed = false ∧
  isDeckReady run_three_failed = true ∧
  Forall (keepsTimer (timerSeq run_three_failed))
    [Choice DirLeft; Swiped; StartOver "z"; TimerFired 7; Choice DirRight] ∧
  let s1 := step run_three_failed (Choice DirRight) in
  let s2 := run s1 [Choice DirLeft; Swiped; StartOver "z"; TimerFired 7;
                    Choice DirRight] in
  let s3 := step s2 (TimerFired (timerSeq run_three_failed)) in
  (swipeDirection s1 = Some DirRight ∧ isAnimating s1 = true ∧
   timeoutRef s1 = Some (timerSeq run_three_failed) ∧
   activeIndex s1 = activeIndex run_three_failed ∧
   liked s1 = liked run_three_failed) ∧
  (activeIndex s2 = activeIndex run_three_failed ∧
   liked s2 = liked run_three_failed ∧
   swipeDirection s2 = Some DirRight ∧ isAnimating s2 = true ∧
   ∀ direction', handleChoice direction' s2 = s2) ∧
  (activeIndex s3 = activeIndex run_three_failed + 1 ∧
   liked s3 = liked run_three_failed ++ [first_card] ∧
   swipeDirection s3 = None ∧ isAnimating s3 = false ∧
   timeoutRef s3 = None ∧ timers s3 = ∅ ∧
   ∀ t, step s3 (TimerFired t) = s3).
Proof.
  assert (currentCat run_three_failed = Some first_card) as Hcur
    by (vm_compute; reflexivity).
  assert (isAnimating run_three_failed = false) as Han by (vm_compute; reflexivity).
  assert (isDeckReady run_three_failed = true) as Hrd by (vm_compute; reflexivity).
  assert (Forall (keepsTimer (timerSeq run_three_failed))
            [Choice DirLeft; Swiped; StartOver "z"; TimerFired 7; Choice DirRight])
    as Hes.
  { repeat constructor. vm_compute. discriminate. }
  split; [exact Hcur|]. split; [exact Han|]. split; [exact Hrd|]. split; [exact Hes|].
  apply (classification_commits_once (generateDeck "d" 3) run_three_failed
           DirRight first_card _); [|exact Hcur|exact Han|exact Hrd|exact Hes].
  unfold run_three_failed. apply reachable_run. constructor.
Defined.

(** ** Failed requests *)

Lemma afterAll_frame (g : nat) (s : State) :
  imagePool (afterAll g s) = imagePool s ∧
  inFlight (afterAll g s) = inFlight s ∧
  readyCount (afterAll g s) = readyCount s.
Proof. by destruct (afterAll_cases g s) as [-> | (_ & _ & _ & _ & ->)]. Qed.

Lemma thresholdEffect_inFlight (s : State) : inFlight (thresholdEffect s) = inFlight s.
Proof. threshold_frame s. Qed.

Lemma jobAt_frame (g i : nat) (s s' : State) :
  passes s' = passes s → jobAt g i s' = jobAt g i s.
Proof. unfold jobAt. by intros ->. Qed.

Lemma jobAt_setPhase (g i : nat) (ph : Phase) (j : Job) (s : State) :
  jobAt g i s = Some j → jobAt g i (setPhase g i ph s) = Some (withPhase ph j).
Proof.
  unfold jobAt, setPhase. cbn [passes upd_passes]. intros Hj.
  rewrite list_lookup_alter, decide_True by done.
  destruct (passes s !! g) as [p|]; [|done]. simpl in *.
  by rewrite list_lookup_alter, decide_True, Hj by done.
Qed.

(** The step in which a request that was still awaited fails. *)
Lemma failed_step (s : State) (g i : nat) (url : string) (r : FetchResult) :
  jobAt g i s = Some {| jobUrl := url; phase := AwaitFetch |} →
  fetchFailed r = true →
  passes (step s (FetchSettled g i r)) =
    passes (setPhase g i Resolved s) ∧
  jobAt g i (step s (FetchSettled g i r)) = Some {| jobUrl := url; phase := Resolved |} ∧
  inFlight (step s (FetchSettled g i r)) = inFlight s ∖ {[url]} ∧
  imagePool (step s (FetchSettled g i r)) =
    (if passCancelled g s then imagePool s else <[url:=url]> (imagePool s)) ∧
  readyCount (step s (FetchSettled g i r)) =
    (if passCancelled g s then readyCount s else readyCount s + 1).
Proof.
  intros Hj Hr. unfold step. cbn [handle].
  rewrite thresholdEffect_passes, thresholdEffect_inFlight, thresholdEffect_imagePool,
    thresholdEffect_readyCount.
  rewrite (jobAt_frame g i _ _ (thresholdEffect_passes _)).
  unfold fetchSettled. rewrite Hj, afterFetch_failed by done. cbv zeta.
  rewrite (jobAt_frame g i _ _ (afterAll_passes _ _)), afterAll_passes.
  destruct (afterAll_frame g (setPhase g i (settlePromise (Normal Resolved))
    (if passCancelled g s then discard url s else record url url s)))
    as (-> & -> & ->).
  cbn [settlePromise].
  assert (jobAt g i (if passCancelled g s then discard url s else record url url s)
          = Some {| jobUrl := url; phase := AwaitFetch |}) as Hj'.
  { rewrite <- Hj. apply jobAt_frame. by destruct (passCancelled g s). }
  rewrite (jobAt_setPhase _ _ _ _ _ Hj').
  by destruct (passCancelled g s).
Qed.

Lemma liveJobs_single (s : State) (p : Pass) : passes s = [p] → liveJobs s = fetchJobs p.
Proof. unfold liveJobs. by intros ->. Qed.

Lemma fallback_step (s : State) (f : nat * FetchResult) :
  fallback_inv s → fetchFailed f.2 = true →
  fallback_inv (step s (failureOf f)) ∧
  cats (step s (failureOf f)) = cats s ∧
  ∀ i j, liveJobs s !! i = Some j →
         ∃ j', liveJobs (step s (failureOf f)) !! i = Some j' ∧
               (i = f.1 ∨ phase j = Resolved → phase j' = Resolved).
Proof.
  destruct f as [i0 r]. unfold failureOf. cbn [fst snd].
  intros (Hinv & Hlen & Hjobs) Hr.
  pose proof (step_inv s (FetchSettled 0 i0 r) Hinv) as Hinv'.
  destruct Hinv as [Hrun Hready].
  destruct Hrun as (older & p & Hp & Hc & Hrest).
  assert (older = []) as ->.
  { rewrite Hp, length_app in Hlen. simpl in Hlen. destruct older; [done|simpl in Hlen; lia]. }
  simpl in Hp. pose proof (liveJobs_single s p Hp) as Hlive.
  assert (jobAt 0 i0 s = fetchJobs p !! i0) as HjobAt.
  { unfold jobAt. by rewrite Hp. }
  assert (passCancelled 0 s = false) as Hnc.
  { unfold passCancelled. by rewrite Hp. }
  destruct (fetchJobs p !! i0) as [[u ph]|] eqn:Hi0.
  2: { (* no such job: the event is ignored *)
    assert (step s (FetchSettled 0 i0 r) = s) as ->.
    { unfold step. cbn [handle]. unfold fetchSettled. rewrite HjobAt.
      apply thresholdEffect_fix. split; [by exists [], p|done]. }
    split; [split; [split; [by exists [], p|done]|done]|]. split; [done|].
    intros i j Hj. exists j. split; [done|]. intros [-> | Hres]; [|done].
    rewrite Hlive in Hj. congruence. }
  destruct (Hjobs i0 {| jobUrl := u; phase := ph |}) as [Hw | [Hres _]];
    [by rewrite Hlive| |]; cbn [phase] in *; subst ph.
  2: { (* already settled: the event is ignored *)
    assert (step s (FetchSettled 0 i0 r) = s) as ->.
    { unfold step. cbn [handle]. unfold fetchSettled. rewrite HjobAt.
      apply thresholdEffect_fix. split; [by exists [], p|done]. }
    split; [split; [split; [by exists [], p|done]|done]|]. split; [done|].
    intros i j Hj. exists j. split; [done|]. intros [-> | Hres]; [|done].
    rewrite Hlive, Hi0 in Hj. by injection Hj as <-. }
  destruct (failed_step s 0 i0 u r HjobAt Hr) as (Hps' & _ & _ & Hpool' & _).
  rewrite Hnc in Hpool'.
  assert (passes (step s (FetchSettled 0 i0 r)) =
          [withJobs (alter (withPhase Resolved) i0) p]) as Hp'.
  { rewrite Hps'. unfold setPhase. cbn [passes upd_passes]. by rewrite Hp. }
  pose proof (liveJobs_single _ _ Hp') as Hlive'. cbn [withJobs fetchJobs] in Hlive'.
  assert (cats (step s (FetchSettled 0 i0 r)) = cats s) as Hcats.
  { unfold step. rewrite thresholdEffect_cats. cbn [handle].
    apply controller_cats, fetchSettled_controller. }
  split; [split; [done|split]|split; [done|]].
  - by rewrite Hp'.
  - intros i j. rewrite Hlive', Hpool', list_lookup_alter.
    destruct (decide (i0 = i)) as [<- | Hne].
    + rewrite Hi0. intros [= <-]. right. split; [done|]. apply lookup_insert_eq.
    + intros Hj. destruct (Hjobs i j) as [Hw | [Hres Hpool]];
        [by rewrite Hlive|by left|].
      right. split; [done|]. rewrite lookup_insert. by case_decide; [f_equal|].
  - intros i j. rewrite Hlive, Hlive', list_lookup_alter.
    destruct (decide (i0 = i)) as [<- | Hne].
    + rewrite Hi0. intros [= <-]. by eexists.
    + intros Hj. exists j. split; [done|]. by intros [-> | Hres].
Qed.

Lemma fallback_run (s : State) (fails : list (nat * FetchResult)) :
  fallback_inv s → Forall (λ f, fetchFailed f.2 = true) fails →
  fallback_inv (run s (failureOf <$> fails)) ∧
  cats (run s (failureOf <$> fails)) = cats s ∧
  ∀ i j, liveJobs s !! i = Some j →
         ∃ j', liveJobs (run s (failureOf <$> fails)) !! i = Some j' ∧
               (i ∈ fails.*1 ∨ phase j = Resolved → phase j' = Resolved).
Proof.
  intros Hinv Hfails. revert s Hinv.
  induction Hfails as [|f fails Hf _ IH]; intros s Hinv.
  - split; [done|]. split; [done|]. intros i j Hj. exists j. split; [done|].
    intros [Hin | Hres]; [|done]. by apply elem_of_nil in Hin.
  - destruct (fallback_step s f Hinv Hf) as (Hinv1 & Hcats1 & Hjobs1).
    destruct (IH _ Hinv1) as (Hinv2 & Hcats2 & Hjobs2).
    change (run s (failureOf <$> f :: fails))
      with (run (step s (failureOf f)) (failureOf <$> fails)).
    split; [done|]. split; [congruence|].
    intros i j Hj. destruct (Hjobs1 i j Hj) as (j1 & Hj1 & Hres1).
    destruct (Hjobs2 i j1 Hj1) as (j2 & Hj2 & Hres2).
    exists j2. split; [done|]. intros [Hin | Hres].
    + apply elem_of_cons in Hin as [-> | Hin]; [|by apply Hres2; left].
      apply Hres2. right. apply Hres1. by left.
    + apply Hres2. right. apply Hres1. by right.
Qed.

Lemma mount_fallback_inv (deck : list CatCard) :
  Forall (λ cat, url cat ≠ "") deck →
  fallback_inv (mount deck) ∧ cats (mount deck) = deck.
Proof.
  intros Hurls. unfold mount.
  destruct (prefetchEffect_spec (initial deck)) as (Hps & Hctl & Hpool & _).
  cbn [initial passes imagePool cats] in Hps, Hpool.
  rewrite initJobs_miss in Hps
    by (eapply Forall_impl; [exact Hurls|]; intros cat Hne; by apply cacheHit_empty).
  rewrite app_nil_l in Hps.
  assert (passes (thresholdEffect (prefetchEffect (initial deck))) =
          [{| cancelled := false;
              fetchJobs := (λ cat, {| jobUrl := url cat; phase := AwaitFetch |}) <$> deck |}])
    as Hps' by (by rewrite thresholdEffect_passes).
  split; [split; [apply mount_inv|split]|].
  - by rewrite Hps'.
  - intros i j. rewrite (liveJobs_single _ _ Hps'). cbn [fetchJobs].
    rewrite list_lookup_fmap. destruct (deck !! i); [|done]. intros [= <-]. by left.
  - rewrite thresholdEffect_cats. apply (controller_cats _ _ Hctl).
Qed.

(** C3, as stated, fails for a run that was cancelled: after a reset at the
    summary screen, the sixth request of the first deck is still awaited;
    when it fails, no entry is stored under its URL and [readyCount] does
    not move. *)
Lemma failed_fetch_fallback_counterexample :
  jobAt 0 5 (step run_summary_outstanding (StartOver "e"))
    = Some {| jobUrl := sixth_url; phase := AwaitFetch |} ∧
  fetchFailed FetchRejected = true ∧
  ¬ (imagePool (run (step run_summary_outstanding (StartOver "e"))
                  [FetchSettled 0 5 FetchRejected]) !! sixth_url = Some sixth_url ∧
     readyCount (run (step run_summary_outstanding (StartOver "e"))
                  [FetchSettled 0 5 FetchRejected])
     = readyCount (step run_summary_outstanding (StartOver "e")) + 1).
Proof.
  split; [vm_compute; reflexivity|]. split; [reflexivity|].
  intros [Hpool _]. vm_compute in Hpool. discriminate.
Qed.

(** C3, amended.  When a request that a job awaits fails (the [fetch]
    promise rejects, or the response is not [ok]), the job resolves, so no
    error leaves it, and its URL leaves the in-flight set.  If the run of the
    job has not been cancelled, the URL itself is stored under the URL in the
    image pool and [readyCount] goes up by one; if the run was cancelled, the
    pool and [readyCount] stay as they are.  In particular, from the mount of
    any deck of cards with a URL, once a failure has reached every request
    (three of them for a deck of three), [readyCount] is the length of the
    deck, the deck is ready and every card has its own URL as its pool
    value.  No part of a job, from its start to its last [await], ends by
    throwing, whatever the request returns, so in no reachable state has the
    promise of a job rejected. *)
Theorem failed_fetch_fallback :
  (∀ (s : State) (g i : nat) (url : string) (r : FetchResult),
     jobAt g i s = Some {| jobUrl := url; phase := AwaitFetch |} →
     fetchFailed r = true →
     (afterFetch g url r s).2 = Normal Resolved ∧
     jobAt g i (step s (FetchSettled g i r))
       = Some {| jobUrl := url; phase := Resolved |} ∧
     (url ∉ inFlight (step s (FetchSettled g i r))) ∧
     (passCancelled g s = false →
        imagePool (step s (FetchSettled g i r)) !! url = Some url ∧
        readyCount (step s (FetchSettled g i r)) = readyCount s + 1) ∧
     (passCancelled g s = true →
        imagePool (step s (FetchSettled g i r)) = imagePool s ∧
        readyCount (step s (FetchSettled g i r)) = readyCount s)) ∧
  (∀ (deck : list CatCard) (fails : list (nat * FetchResult)),
     Forall (λ cat, url cat ≠ "") deck →
     Forall (λ f, fetchFailed f.2 = true) fails →
     (∀ i, i < length deck → i ∈ fails.*1) →
     readyCount (run (mount deck) (failureOf <$> fails)) = length deck ∧
     isDeckReady (run (mount deck) (failureOf <$> fails)) = true ∧
     ∀ cat, cat ∈ deck →
            imagePool (run (mount deck) (failureOf <$> fails)) !! url cat
            = Some (url cat)) ∧
  (∀ (s : State) (g : nat) (cat : CatCard) (url : string)
     (r : FetchResult) (rb : BlobResult),
     (∃ ph, (startJob g cat s).2 = Normal ph) ∧
     (∃ ph, (afterFetch g url r s).2 = Normal ph) ∧
     (afterBlob g url rb s).2 = Normal Resolved) ∧
  (∀ (deck : list CatCard) (s : State) (g i : nat) (j : Job) (e : Error),
     reachable deck s → jobAt g i s = Some j → phase j ≠ Rejected e).
Proof.
  split; [|split; [|split]].
  - intros s g i url r Hj Hr.
    destruct (failed_step s g i url r Hj Hr) as (_ & Hj' & Hfl & Hpool & Hrc).
    split; [by rewrite afterFetch_failed|]. split; [done|]. split; [|split].
    + rewrite Hfl. set_solver.
    + intros Hc. rewrite Hc in Hpool, Hrc. split; [|done].
      rewrite Hpool. apply lookup_insert_eq.
    + intros Hc. by rewrite Hc in Hpool, Hrc.
  - intros deck fails Hurls Hfails Hcover.
    destruct (mount_fallback_inv deck Hurls) as (Hinv0 & Hcats0).
    destruct (fallback_run (mount deck) fails Hinv0 Hfails)
      as (Hinv & Hcats & Hjobs).
    rewrite Hcats0 in Hcats.
    destruct Hinv as ([Hrun Hready] & _ & Hfall).
    destruct (run_inv_live _ Hrun) as (Hlen & Hurl & Hcnt & _).
    destruct Hinv0 as ([Hrun0 _] & _ & _).
    destruct (run_inv_live _ Hrun0) as (Hlen0 & _).
    rewrite Hcats in Hlen, Hurl. rewrite Hcats0 in Hlen0.
    assert (∀ i j, liveJobs (run (mount deck) (failureOf <$> fails)) !! i = Some j →
                   phase j = Resolved) as Hall.
    { intros i j Hj. pose proof (lookup_lt_Some _ _ _ Hj) as Hi. rewrite Hlen in Hi.
      destruct (lookup_lt_is_Some_2 (liveJobs (mount deck)) i) as [j0 Hj0]; [lia|].
      destruct (Hjobs i j0 Hj0) as (j' & Hj' & Hres).
      rewrite Hj in Hj'. injection Hj' as <-. apply Hres. left. by apply Hcover. }
    assert (readyCount (run (mount deck) (failureOf <$> fails)) = length deck) as Hn.
    { rewrite Hcnt, <- Hlen. apply resolvedCount_all, forallb_resolved.
      by apply Forall_lookup_2. }
    split; [done|]. split.
    + apply Hready. rewrite Hn. etrans; [apply threshold_le|]. by rewrite Hcats.
    + intros cat Hcat. apply list_elem_of_lookup in Hcat as [i Hi].
      assert ((jobUrl <$> liveJobs (run (mount deck) (failureOf <$> fails))) !! i
              = Some (url cat)) as Hju
        by (by rewrite Hurl, list_lookup_fmap, Hi).
      rewrite list_lookup_fmap in Hju.
      destruct (liveJobs (run (mount deck) (failureOf <$> fails)) !! i)
        as [j|] eqn:Hj; [|done].
      injection Hju as <-.
      destruct (Hfall i j Hj) as [Hw | [_ Hpool]]; [|done].
      rewrite (Hall i j Hj) in Hw. done.
  - intros s g cat url r rb. split; [|split].
    + rewrite startJob_eq. destruct (cacheHit (imagePool s) cat); by eexists.
    + destruct (afterFetch_normal g url r s) as (ph & Hph & _). by exists ph.
    + apply afterBlob_normal.
  - intros deck s g i j e Hs Hj. pose proof (reachable_no_reject deck s Hs) as Hno.
    unfold jobAt in Hj. destruct (passes s !! g) as [p|] eqn:Hp; [|done].
    cbn in Hj. unfold no_reject in Hno. rewrite Forall_lookup in Hno.
    specialize (Hno g p Hp). rewrite Forall_lookup in Hno. by apply (Hno i j).
Qed.

Lemma failed_fetch_fallback_witness :
  (jobAt 0 1 (App "d")
     = Some {| jobUrl := "https://cataas.com/cat?width=560&height=720&format=jpg&deck=d-1";
               phase := AwaitFetch |} ∧
   fetchFailed (FetchResponse false) = true ∧
   passCancelled 0 (App "d") = false ∧
   imagePool (step (App "d") (FetchSettled 0 1 (FetchResponse false)))
     !! "https://cataas.com/cat?width=560&height=720&format=jpg&deck=d-1"
   = Some "https://cataas.com/cat?width=560&height=720&format=jpg&deck=d-1" ∧
   readyCount (step (App "d") (FetchSettled 0 1 (FetchResponse false)))
   = readyCount (App "d") + 1) ∧
  (Forall (λ cat, url cat ≠ "") (generateDeck "d" 3) ∧
   Forall (λ f, fetchFailed f.2 = true)
     [(2, FetchRejected); (0, FetchResponse false); (1, FetchRejected)] ∧
   (∀ i, i < length (generateDeck "d" 3) →
         i ∈ [(2, FetchRejected); (0, FetchResponse false); (1, FetchRejected)].*1) ∧
   readyCount (run (mount (generateDeck "d" 3))
                 (failureOf <$> [(2, FetchRejected); (0, FetchResponse false);
                                 (1, FetchRejected)])) = length (generateDeck "d" 3) ∧
   isDeckReady (run (mount (generateDeck "d" 3))
                  (failureOf <$> [(2, FetchRejected); (0, FetchResponse false);
                                  (1, FetchRejected)])) = true ∧
   ∀ cat, cat ∈ generateDeck "d" 3 →
          imagePool (run (mount (generateDeck "d" 3))
                       (failureOf <$> [(2, FetchRejected); (0, FetchResponse false);
                                       (1, FetchRejected)])) !! url cat
          = Some (url cat)).
Proof.
  split.
  - assert (jobAt 0 1 (App "d")
      = Some {| jobUrl := "https://cataas.com/cat?width=560&height=720&format=jpg&deck=d-1";
                phase := AwaitFetch |}) as Hj by (vm_compute; reflexivity).
    assert (passCancelled 0 (App "d") = false) as Hc by (vm_compute; reflexivity).
    split; [exact Hj|]. split; [reflexivity|]. split; [exact Hc|].
    destruct (proj1 failed_fetch_fallback (App "d") 0 1 _ (FetchResponse false)
                Hj eq_refl) as (_ & _ & _ & Hlive & _).
    exact (Hlive Hc).
  - assert (Forall (λ cat, url cat ≠ "") (generateDeck "d" 3)) as Hurls
      by (repeat constructor; discriminate).
    assert (Forall (λ f : nat * FetchResult, fetchFailed f.2 = true)
              [(2, FetchRejected); (0, FetchResponse false); (1, FetchRejected)])
      as Hfails by (repeat constructor).
    assert (∀ i, i < length (generateDeck "d" 3) →
              i ∈ [(2, FetchRejected); (0, FetchResponse false); (1, FetchRejected)].*1)
      as Hcover.
    { intros i Hi. simpl in Hi. cbn [fmap list_fmap fst].
      destruct i as [|[|[|i]]]; [| | |lia]; set_solver. }
    split; [exact Hurls|]. split; [exact Hfails|]. split; [exact Hcover|].
    exact (proj1 (proj2 failed_fetch_fallback) _ _ Hurls Hfails Hcover).
Defined.

(** ** Worked runs *)

(** The scenario of the deck of three: after one accept, one card is liked
    and the second card is current. *)
Example accept_first_of_three :
  let s := run run_three_failed [Choice DirRight; TimerFired 0] in
  activeIndex s = 1 ∧ liked s = [first_card] ∧ screen s = browsing.
Proof. vm_compute. by repeat split. Qed.

(** Twelve cards swiped through lead to the summary; a reset from there
    leads back to the loading screen with an empty pool. *)
Example summary_then_reset :
  screen run_summary_outstanding = summary ∧
  length (liked run_summary_outstanding) = 12 ∧
  let s := step run_summary_outstanding (StartOver "e") in
  screen s = loading ∧ activeIndex s = 0 ∧ liked s = [] ∧ imagePool s = ∅ ∧
  readyCount s = 0 ∧ size (inFlight s) = 12.
Proof. vm_compute. by repeat split. Qed.

(** A successful request stores a fresh [blob:] URL, which [releasePool]
    revokes; the fallback of a failed one is not an object URL. *)
Example pool_after_three :
  imagePool run_three_of_twelve
    !! "https://cataas.com/cat?width=560&height=720&format=jpg&deck=d-2"
  = Some "blob:0" ∧
  imagePool run_three_of_twelve
    !! "https://cataas.com/cat?width=560&height=720&format=jpg&deck=d-4"
  = Some "https://cataas.com/cat?width=560&height=720&format=jpg&deck=d-4" ∧
  elements (objectUrls run_three_of_twelve) = ["blob:0"] ∧
  elements (objectUrls (unmount run_three_of_twelve)) = [].
Proof. vm_compute. by repeat split. Qed.

(** * Further properties *)

(** ** Generated decks, again *)

Lemma generateDeck_lookup (deckId : string) (count i : nat) (cat : CatCard) :
  generateDeck deckId count !! i = Some cat →
  i < count ∧
  id cat = deckId +:+ "-" +:+ pretty i ∧
  url cat = "https://cataas.com/cat?width=560&height=720&format=jpg&deck=" +:+ id cat.
Proof.
  unfold generateDeck. rewrite list_lookup_fmap. intros Hi.
  destruct (seq 0 count !! i) as [n|] eqn:Hn; [|done].
  apply lookup_seq in Hn as [-> Hlt]. injection Hi as <-. by repeat split.
Qed.

Lemma generateDeck_id_inj (deckId : string) (count i j : nat) (ci cj : CatCard) :
  generateDeck deckId count !! i = Some ci →
  generateDeck deckId count !! j = Some cj →
  id ci = id cj → i = j.
Proof.
  intros Hi Hj Heq.
  apply generateDeck_lookup in Hi as (_ & Hi & _).
  apply generateDeck_lookup in Hj as (_ & Hj & _).
  rewrite Hi, Hj in Heq. by repeat (apply (inj _) in Heq).
Qed.

Lemma generateDeck_NoDup (deckId : string) (count : nat) :
  NoDup (id <$> generateDeck deckId count) ∧
  NoDup (url <$> generateDeck deckId count).
Proof.
  split.
  - apply NoDup_alt. intros i j x. rewrite !list_lookup_fmap.
    destruct (generateDeck deckId count !! i) as [ci|] eqn:Hi; [|done].
    destruct (generateDeck deckId count !! j) as [cj|] eqn:Hj; [|done].
    intros [= <-] [= Heq]. by apply (generateDeck_id_inj deckId count i j ci cj).
  - apply NoDup_alt. intros i j x. rewrite !list_lookup_fmap.
    destruct (generateDeck deckId count !! i) as [ci|] eqn:Hi; [|done].
    destruct (generateDeck deckId count !! j) as [cj|] eqn:Hj; [|done].
    intros [= <-] [= Heq]. apply (generateDeck_id_inj deckId count i j ci cj Hi Hj).
    pose proof (generateDeck_lookup _ _ _ _ Hi) as (_ & _ & Hui).
    pose proof (generateDeck_lookup _ _ _ _ Hj) as (_ & _ & Huj).
    rewrite Hui, Huj in Heq. by apply (inj _) in Heq.
Qed.

(** X1. [generateDeck(count)] returns [count] cards whose ids are pairwise
    different and whose URLs are pairwise different; the URL of a card is
    the fixed address followed by its id, so it is neither empty nor an
    object URL. *)
Theorem generateDeck_distinct (deckId : string) (count : nat) :
  length (generateDeck deckId count) = count ∧
  NoDup (id <$> generateDeck deckId count) ∧
  NoDup (url <$> generateDeck deckId count) ∧
  ∀ cat, cat ∈ generateDeck deckId count →
         url cat = "https://cataas.com/cat?width=560&height=720&format=jpg&deck="
                   +:+ id cat ∧
         url cat ≠ "" ∧ startsWith "blob:" (url cat) = false.
Proof.
  split; [apply generateDeck_length|].
  destruct (generateDeck_NoDup deckId count) as [Hid Hurl].
  split; [done|]. split; [done|].
  intros cat Hcat. split.
  - apply list_elem_of_lookup in Hcat as [i Hi].
    by apply generateDeck_lookup in Hi as (_ & _ & ?).
  - exact (proj1 (Forall_forall _ _) (generateDeck_remote deckId count) cat Hcat).
Qed.

Lemma startOver_cats (deckId : string) (s : State) :
  cats (startOver deckId s) = generateDeck deckId TOTAL_CATS.
Proof.
  unfold startOver.
  destruct (prefetchEffect_spec (prefetchCleanup (resetDeck deckId s)))
    as (_ & Hctl & _).
  rewrite (controller_cats _ _ Hctl).
  rewrite (controller_cats _ _ (proj1 (prefetchCleanup_frame (resetDeck deckId s)))).
  by rewrite resetDeck_eq.
Qed.

Lemma handle_cats (e : Event) (s : State) :
  cats (handle e s) = cats s ∨
  ∃ deckId, cats (handle e s) = generateDeck deckId TOTAL_CATS.
Proof.
  destruct e as [d|dx l| |t|deckId|g i r|g i r]; cbn [handle].
  - left. apply handleChoice_frame.
  - left. apply onSwiping_frame.
  - left. apply onSwiped_frame.
  - left. apply fireTimer_frame.
  - destruct (screen s); [by left | by left |].
    right. exists deckId. apply startOver_cats.
  - left. exact (controller_cats _ _ (fetchSettled_controller g i r s)).
  - left. exact (controller_cats _ _ (blobSettled_controller g i r s)).
Qed.

Lemma mount_cats (deck : list CatCard) : cats (mount deck) = deck.
Proof.
  unfold mount. rewrite thresholdEffect_cats.
  by destruct (prefetchEffect_spec (initial deck)) as (_ & -> %controller_cats & _).
Qed.

Lemma reachable_cats (deck : list CatCard) (s : State) :
  reachable deck s →
  cats s = deck ∨ ∃ deckId, cats s = generateDeck deckId TOTAL_CATS.
Proof.
  induction 1 as [|s e _ IH]; [left; apply mount_cats|].
  unfold step. rewrite thresholdEffect_cats.
  destruct (handle_cats e s) as [-> | ?]; [done | by right].
Qed.

(** ** What a render shows *)

Lemma browsing_currentCat (s : State) :
  screen s = browsing → isDeckReady s = true ∧ is_Some (currentCat s).
Proof.
  unfold screen, isComplete, currentCat.
  destruct (isDeckReady s); [|done]. cbn [negb].
  destruct (length (cats s) <=? activeIndex s) eqn:Hlen; [done|].
  intros _. split; [done|]. apply lookup_lt_is_Some. by apply Nat.leb_gt in Hlen.
Qed.

(** X2. The card stack is the window of at most three cards that starts at
    the current card: it is empty exactly when the deck is complete, its
    top is the current card, and on the browsing screen there is always a
    current card, so the placeholder for a missing one is never shown
    there. *)
Theorem upcomingCats_window (s : State) :
  length (upcomingCats s) = Nat.min 3 (length (cats s) - activeIndex s) ∧
  (∀ k, k < 3 → upcomingCats s !! k = cats s !! (activeIndex s + k)) ∧
  head (upcomingCats s) = currentCat s ∧
  (upcomingCats s = [] ↔ isComplete s = true) ∧
  (screen s = browsing → ∃ cat, currentCat s = Some cat ∧
                               head (upcomingCats s) = Some cat).
Proof.
  assert (length (upcomingCats s) = Nat.min 3 (length (cats s) - activeIndex s)) as Hlen.
  { unfold upcomingCats. by rewrite length_take, length_drop. }
  assert (head (upcomingCats s) = currentCat s) as Hhead.
  { unfold upcomingCats, currentCat.
    rewrite head_lookup, lookup_take_lt, lookup_drop by lia. by rewrite Nat.add_0_r. }
  split; [done|]. split; [|split; [done|split]].
  - intros k Hk. unfold upcomingCats. by rewrite lookup_take_lt, lookup_drop.
  - unfold isComplete. rewrite Nat.leb_le. split.
    + intros Hnil. rewrite Hnil in Hlen. cbn [length] in Hlen. lia.
    + intros Hle. apply nil_length_inv. lia.
  - intros Hb. apply browsing_currentCat in Hb as [_ [cat Hcat]].
    exists cat. by rewrite Hhead.
Qed.

(** X3. The buttons are disabled exactly when [handleChoice] would ignore
    the click, and on the browsing screen exactly while a classification is
    animating. *)
Theorem controlsDisabled_guard (direction : Direction) (s : State) :
  (controlsDisabled s = true ↔ handleChoice direction s = s) ∧
  (screen s = browsing → controlsDisabled s = isAnimating s).
Proof.
  split.
  - unfold controlsDisabled, handleChoice. destruct (currentCat s) as [cat|]; [|done].
    destruct (isAnimating s || negb (isDeckReady s)) eqn:Hg; [done|].
    split; [done|]. intros Heq. apply orb_false_elim in Hg as [Han _].
    apply (f_equal isAnimating) in Heq. revert Heq. unfold setTimeout, clearTimeout.
    cbn [upd_timeoutRef upd_timerSeq upd_timers upd_isAnimating upd_swipeDirection
         timeoutRef isAnimating].
    destruct (timeoutRef s); simpl; congruence.
  - intros Hb. apply browsing_currentCat in Hb as [Hrd [cat Hcat]].
    unfold controlsDisabled. rewrite Hcat, Hrd. cbn [negb]. apply orb_false_r.
Qed.

(** ** Progress *)

Lemma thresholdEffect_ready (s : State) :
  isDeckReady s = true → thresholdEffect s = s.
Proof. intros Hrd. destruct (thresholdEffect_cases s) as [-> | [? _]]; congruence. Qed.

Lemma thresholdEffect_keeps_ready (s : State) :
  isDeckReady s = true → isDeckReady (thresholdEffect s) = true.
Proof. intros Hrd. by rewrite thresholdEffect_ready. Qed.

Lemma afterAll_ready (g : nat) (s : State) :
  isDeckReady s = true → isDeckReady (afterAll g s) = true.
Proof. intros Hrd. by destruct (afterAll_cases g s) as [-> | (_ & _ & _ & _ & ->)]. Qed.

Lemma fetchSettled_keeps_ready (g i : nat) (r : FetchResult) (s : State) :
  isDeckReady s = true → isDeckReady (fetchSettled g i r s) = true.
Proof.
  intros Hrd. unfold fetchSettled. destruct (jobAt g i s) as [[url []]|]; try done.
  destruct (fetchFailed r) eqn:Hr.
  - rewrite afterFetch_failed by done. cbv zeta. apply afterAll_ready.
    by destruct (passCancelled g s).
  - destruct r as [|[]]; try done. rewrite afterFetch_ok. cbv zeta.
    by apply afterAll_ready.
Qed.

Lemma blobSettled_keeps_ready (g i : nat) (r : BlobResult) (s : State) :
  isDeckReady s = true → isDeckReady (blobSettled g i r s) = true.
Proof.
  intros Hrd. unfold blobSettled. destruct (jobAt g i s) as [[url []]|]; try done.
  destruct r.
  - rewrite afterBlob_rejected. cbv zeta. apply afterAll_ready.
    by destruct (passCancelled g s).
  - rewrite afterBlob_ready. cbv zeta. apply afterAll_ready.
    by destruct (passCancelled g s).
Qed.

Lemma fireTimer_cases (t : nat) (s : State) :
  (timers s !! t = None ∧ fireTimer t s = s) ∨
  ∃ direction chosenCat,
    timers s !! t = Some (direction, chosenCat) ∧
    controller (fireTimer t s) =
      (cats s, activeIndex s + 1,
       match direction with
       | DirRight => liked s ++ [chosenCat]
       | DirLeft => liked s
       end, None, 0%Z, false, None, delete t (timers s), timerSeq s).
Proof.
  unfold fireTimer. destruct (timers s !! t) as [[direction chosenCat]|]; [|by left].
  right. exists direction, chosenCat. split; [done|]. by destruct direction.
Qed.

Lemma handle_progress (e : Event) (s : State) :
  (∀ deckId, e ≠ StartOver deckId) →
  cats (handle e s) = cats s ∧
  activeIndex s ≤ activeIndex (handle e s) ≤ activeIndex s + 1 ∧
  liked s `prefix_of` liked (handle e s) ∧
  (isDeckReady s = true → isDeckReady (handle e s) = true).
Proof.
  intros Hne.
  assert (∀ s', controller s' = controller s →
            (isDeckReady s = true → isDeckReady s' = true) →
            cats s' = cats s ∧ activeIndex s ≤ activeIndex s' ≤ activeIndex s + 1 ∧
            liked s `prefix_of` liked s' ∧
            (isDeckReady s = true → isDeckReady s' = true)) as Hsame.
  { intros s' Hctl Hrd.
    destruct (controller_fields s' _ _ _ _ _ _ _ _ _ Hctl) as (-> & -> & -> & _).
    repeat split; [lia | lia | done | done]. }
  destruct e as [d|dx l| |t|deckId|g i r|g i r]; cbn [handle].
  - destruct (handleChoice_frame d s) as (Hcats & _ & _ & Hrd & _).
    split; [done|]. rewrite Hrd.
    unfold handleChoice. destruct (currentCat s); [|repeat split; (lia || done)].
    destruct (isAnimating s || negb (isDeckReady s)); [repeat split; (lia || done)|].
    unfold clearTimeout, setTimeout. cbn [upd_timeoutRef upd_timerSeq
      upd_timers upd_isAnimating upd_swipeDirection timeoutRef].
    destruct (timeoutRef s); cbn; repeat split; (lia || done).
  - unfold onSwiping. destruct (currentCat s); [|repeat split; (lia || done)].
    destruct (isAnimating s); cbn; repeat split; (lia || done).
  - unfold onSwiped. destruct (swipeDirection s); cbn; repeat split; (lia || done).
  - destruct (fireTimer_frame t s) as (Hcats & _ & _ & Hrd & _).
    rewrite Hrd. destruct (fireTimer_cases t s) as [[_ ->] | (d & c & _ & Hctl)];
      [repeat split; (lia || done)|].
    destruct (controller_fields _ _ _ _ _ _ _ _ _ _ Hctl) as (_ & -> & -> & _).
    repeat split; [done | lia | lia | | done].
    destruct d; [done | by apply prefix_app_r].
  - by destruct (Hne deckId).
  - apply Hsame; [apply fetchSettled_controller | apply fetchSettled_keeps_ready].
  - apply Hsame; [apply blobSettled_controller | apply blobSettled_keeps_ready].
Qed.

(** X4. Only the reset goes back: any other event leaves the deck alone,
    advances the index by at most one, only appends to the liked cards,
    keeps a ready deck ready, and so never returns to an earlier screen. *)
Theorem step_progress (s : State) (e : Event) :
  (∀ deckId, e ≠ StartOver deckId) →
  cats (step s e) = cats s ∧
  activeIndex s ≤ activeIndex (step s e) ≤ activeIndex s + 1 ∧
  liked s `prefix_of` liked (step s e) ∧
  (isDeckReady s = true → isDeckReady (step s e) = true) ∧
  screenRank (screen s) ≤ screenRank (screen (step s e)).
Proof.
  intros Hne. unfold step.
  destruct (handle_progress e s Hne) as (Hcats & [Hidx1 Hidx2] & Hliked & Hrd).
  pose proof (thresholdEffect_controller (handle e s)) as Hctl.
  destruct (controller_fields _ _ _ _ _ _ _ _ _ _ Hctl) as (Hc & Ha & Hl & _).
  assert (isDeckReady s = true → isDeckReady (thresholdEffect (handle e s)) = true)
    as Hrd' by (intros H; by apply thresholdEffect_keeps_ready, Hrd).
  rewrite Hc, Ha, Hl. repeat split; try done.
  unfold screen, isComplete. rewrite Hc, Ha, Hcats.
  destruct (isDeckReady s); [|cbn; lia]. rewrite Hrd' by done. cbn [negb].
  destruct (length (cats s) <=? activeIndex s) eqn:Hlen; cbn [negb].
  - apply Nat.leb_le in Hlen.
    assert ((length (cats s) <=? activeIndex (handle e s)) = true) as ->
      by (apply Nat.leb_le; lia).
    done.
  - destruct (length (cats s) <=? activeIndex (handle e s)); cbn; lia.
Qed.

Lemma step_progress_witness :
  (∀ deckId, TimerFired 0 ≠ StartOver deckId) ∧
  activeIndex (step (step run_three_failed (Choice DirRight)) (TimerFired 0)) = 1 ∧
  screenRank (screen (step run_three_failed (Choice DirRight)))
  ≤ screenRank (screen (step (step run_three_failed (Choice DirRight)) (TimerFired 0))).
Proof.
  assert (∀ deckId, TimerFired 0 ≠ StartOver deckId) as Hne by done.
  split; [exact Hne|]. split; [by vm_compute|].
  apply (step_progress (step run_three_failed (Choice DirRight)) (TimerFired 0) Hne).
Defined.

(** ** The controller *)

Lemma ctrl_inv_intro (s : State) c a l sd dx an tr tm ts :
  controller s = (c, a, l, sd, dx, an, tr, tm, ts) →
  a ≤ length c → l `sublist_of` take a c →
  (if an
   then ∃ t closure, tm = {[t := closure]} ∧ tr = Some t ∧ sd = Some closure.1 ∧
                     c !! a = Some closure.2
   else tm = ∅ ∧ tr = None ∧ sd = None) →
  ctrl_inv s.
Proof.
  intros Hctl Ha Hl Hpending.
  destruct (controller_fields _ _ _ _ _ _ _ _ _ _ Hctl)
    as (Hc & Hi & Hlk & Hsd & _ & Han & Htr & Htm & _).
  unfold ctrl_inv, pendingChoice, currentCat.
  rewrite Hc, Hi, Hlk, Hsd, Han, Htr, Htm.
  split; [done|]. split; [done|]. destruct an; [|done].
  destruct Hpending as (t & closure & ? & ? & ? & ?). by exists t, closure.
Qed.

Lemma ctrl_inv_controller (s s' : State) :
  controller s' = controller s → ctrl_inv s → ctrl_inv s'.
Proof.
  intros Hctl (Ha & Hl & Hpending).
  refine (ctrl_inv_intro s' _ _ _ _ _ _ _ _ _ Hctl Ha Hl _).
  destruct (isAnimating s); [|done].
  destruct Hpending as (t & closure & ? & ? & _ & ? & ?). by exists t, closure.
Qed.

Lemma ctrl_inv_timers_owned (s : State) : ctrl_inv s → timers_owned s.
Proof.
  intros (_ & _ & Hpending) t [closure' Ht]. destruct (isAnimating s).
  - destruct Hpending as (t0 & closure & Htm & Href & _).
    rewrite Htm in Ht. apply lookup_singleton_Some in Ht as [<- _]. done.
  - destruct Hpending as (Htm & _). by rewrite Htm, lookup_empty in Ht.
Qed.

Lemma handleChoice_ctrl_inv (direction : Direction) (s : State) :
  ctrl_inv s → ctrl_inv (handleChoice direction s).
Proof.
  intros Hinv. pose proof (ctrl_inv_timers_owned s Hinv) as Hown.
  destruct (currentCat s) as [cat|] eqn:Hcat;
    [|unfold handleChoice; by rewrite Hcat].
  destruct (isAnimating s) eqn:Han; [unfold handleChoice; by rewrite Hcat, Han|].
  destruct (isDeckReady s) eqn:Hrd; [|by rewrite handleChoice_guard].
  destruct Hinv as (Ha & Hl & _).
  refine (ctrl_inv_intro _ _ _ _ _ _ _ _ _ _
            (handleChoice_accepts direction cat s Hown Hcat Han Hrd) Ha Hl _).
  by exists (timerSeq s), (direction, cat).
Qed.

Lemma fireTimer_ctrl_inv (t : nat) (s : State) :
  ctrl_inv s → ctrl_inv (fireTimer t s).
Proof.
  intros Hinv.
  destruct (fireTimer_cases t s) as [[_ ->] | (d & c & Ht & Hctl)]; [done|].
  destruct Hinv as (Ha & Hl & Hpending). destruct (isAnimating s).
  - destruct Hpending as (t0 & closure & Htm & _ & _ & _ & Hcur).
    rewrite Htm in Ht. apply lookup_singleton_Some in Ht as [-> ->].
    unfold currentCat in Hcur. cbn [snd] in Hcur.
    refine (ctrl_inv_intro _ _ _ _ _ _ _ _ _ _ Hctl _ _ _).
    + apply lookup_lt_Some in Hcur. lia.
    + rewrite Nat.add_1_r, (take_S_r _ _ _ Hcur).
      destruct d; [by apply sublist_inserts_r | by apply sublist_app].
    + rewrite Htm. by rewrite delete_singleton_eq.
  - destruct Hpending as (Htm & _). by rewrite Htm, lookup_empty in Ht.
Qed.

Lemma onSwiping_ctrl_inv (deltaX : Z) (dirLeft : bool) (s : State) :
  ctrl_inv s → ctrl_inv (onSwiping deltaX dirLeft s).
Proof.
  intros Hinv. unfold onSwiping. destruct (currentCat s); [|done].
  destruct (isAnimating s) eqn:Han; [done|].
  destruct Hinv as (Ha & Hl & Hpending). rewrite Han in Hpending.
  by refine (ctrl_inv_intro _ _ _ _ _ _ _ _ _ _ eq_refl Ha Hl _); rewrite Han.
Qed.

Lemma onSwiped_ctrl_inv (s : State) : ctrl_inv s → ctrl_inv (onSwiped s).
Proof.
  intros Hinv. unfold onSwiped. destruct (swipeDirection s) eqn:Hsd; [done|].
  destruct Hinv as (Ha & Hl & Hpending).
  refine (ctrl_inv_intro _ _ _ _ _ _ _ _ _ _ eq_refl Ha Hl _).
  destruct (isAnimating s); [|by rewrite Hsd in Hpending |- *].
  destruct Hpending as (t & closure & ? & ? & _ & ? & ?). rewrite Hsd.
  exists t, closure. by rewrite <- Hsd.
Qed.

Lemma startOver_controller (deckId : string) (s : State) :
  timers_owned s →
  controller (startOver deckId s) =
    (generateDeck deckId TOTAL_CATS, 0, [], None, 0%Z, false, None, ∅, timerSeq s).
Proof.
  intros Hown. unfold startOver.
  destruct (prefetchEffect_spec (prefetchCleanup (resetDeck deckId s)))
    as (_ & -> & _).
  rewrite (proj1 (prefetchCleanup_frame (resetDeck deckId s))).
  rewrite (proj1 (resetDeck_controller deckId s)).
  by rewrite (clearTimeout_owned s Hown).
Qed.

Lemma startOver_ctrl_inv (deckId : string) (s : State) :
  ctrl_inv s → ctrl_inv (startOver deckId s).
Proof.
  intros Hinv.
  refine (ctrl_inv_intro _ _ _ _ _ _ _ _ _ _
            (startOver_controller deckId s (ctrl_inv_timers_owned s Hinv)) _ _ _).
  - lia.
  - apply sublist_nil_l.
  - done.
Qed.

Lemma handle_ctrl_inv (e : Event) (s : State) : ctrl_inv s → ctrl_inv (handle e s).
Proof.
  intros Hinv. destruct e as [d|dx l| |t|deckId|g i r|g i r]; cbn [handle].
  - by apply handleChoice_ctrl_inv.
  - by apply onSwiping_ctrl_inv.
  - by apply onSwiped_ctrl_inv.
  - by apply fireTimer_ctrl_inv.
  - destruct (screen s); try assumption. by apply startOver_ctrl_inv.
  - exact (ctrl_inv_controller _ _ (fetchSettled_controller g i r s) Hinv).
  - exact (ctrl_inv_controller _ _ (blobSettled_controller g i r s) Hinv).
Qed.

Lemma step_ctrl_inv (s : State) (e : Event) : ctrl_inv s → ctrl_inv (step s e).
Proof.
  intros Hinv. unfold step.
  exact (ctrl_inv_controller _ _ (thresholdEffect_controller (handle e s))
           (handle_ctrl_inv e s Hinv)).
Qed.

Lemma mount_ctrl_inv (deck : list CatCard) : ctrl_inv (mount deck).
Proof.
  unfold mount.
  apply (ctrl_inv_controller (initial deck)).
  - rewrite thresholdEffect_controller.
    by destruct (prefetchEffect_spec (initial deck)) as (_ & -> & _).
  - refine (ctrl_inv_intro _ _ _ _ _ _ _ _ _ _ eq_refl _ _ _); cbn.
    + lia.
    + apply sublist_nil_l.
    + done.
Qed.

Lemma reachable_ctrl_inv (deck : list CatCard) (s : State) :
  reachable deck s → ctrl_inv s.
Proof.
  induction 1 as [|s e _ IH]; [apply mount_ctrl_inv | by apply step_ctrl_inv].
Qed.

(** X5. In every state the component reaches, the index is within the deck
    and the liked cards are cards already passed, in deck order and
    without repetition of a position; while a classification animates,
    exactly one timeout is pending, [timeoutRef] holds it and it will commit
    the current card; otherwise no timeout is pending, [timeoutRef] is
    cleared and no direction is set. *)
Theorem controller_invariant (deck : list CatCard) (s : State) :
  reachable deck s →
  activeIndex s ≤ length (cats s) ∧
  liked s `sublist_of` take (activeIndex s) (cats s) ∧
  length (liked s) ≤ activeIndex s ∧
  (isAnimating s = true →
   ∃ t direction chosenCat,
     timers s = {[t := (direction, chosenCat)]} ∧ timeoutRef s = Some t ∧
     swipeDirection s = Some direction ∧ currentCat s = Some chosenCat) ∧
  (isAnimating s = false →
   timers s = ∅ ∧ timeoutRef s = None ∧ swipeDirection s = None).
Proof.
  intros Hs. destruct (reachable_ctrl_inv deck s Hs) as (Ha & Hl & Hpending).
  split; [done|]. split; [done|]. split; [|split].
  - apply sublist_length in Hl. rewrite length_take in Hl. lia.
  - intros Han. rewrite Han in Hpending.
    destruct Hpending as (t & [d c] & Htm & Href & _ & Hsd & Hcur).
    by exists t, d, c.
  - intros Han. by rewrite Han in Hpending.
Qed.

Lemma controller_invariant_witness :
  isAnimating (step run_three_failed (Choice DirRight)) = true ∧
  ∃ t direction chosenCat,
    timers (step run_three_failed (Choice DirRight)) = {[t := (direction, chosenCat)]} ∧
    timeoutRef (step run_three_failed (Choice DirRight)) = Some t ∧
    swipeDirection (step run_three_failed (Choice DirRight)) = Some direction ∧
    currentCat (step run_three_failed (Choice DirRight)) = Some chosenCat.
Proof.
  assert (reachable (generateDeck "d" 3) (step run_three_failed (Choice DirRight)))
    as Hs by (apply reachable_step, reachable_run, reachable_mount).
  assert (isAnimating (step run_three_failed (Choice DirRight)) = true) as Han
    by (by vm_compute).
  split; [exact Han|].
  exact (proj1 (proj2 (proj2 (proj2
    (controller_invariant (generateDeck "d" 3) _ Hs)))) Han).
Defined.

(** ** Classifying card after card *)

Lemma classify_once (direction : Direction) (chosenCat : CatCard) (s : State) :
  ctrl_inv s → isDeckReady s = true → isAnimating s = false →
  currentCat s = Some chosenCat →
  let s' := step (step s (Choice direction)) (TimerFired (timerSeq s)) in
  controller s' =
    (cats s, activeIndex s + 1,
     match direction with
     | DirRight => liked s ++ [chosenCat]
     | DirLeft => liked s
     end, None, 0%Z, false, None, ∅, S (timerSeq s)) ∧
  isDeckReady s' = true.
Proof.
  intros Hinv Hrd Han Hcur. pose proof (ctrl_inv_timers_owned s Hinv) as Hown.
  pose proof (handleChoice_accepts direction chosenCat s Hown Hcur Han Hrd) as Hctl.
  destruct (handleChoice_frame direction s) as (_ & _ & _ & Hrd1 & _).
  rewrite Hrd in Hrd1.
  assert (step s (Choice direction) = handleChoice direction s) as Hstep1
    by (unfold step; cbn [handle]; by apply thresholdEffect_ready).
  cbv zeta. rewrite Hstep1.
  destruct (controller_fields _ _ _ _ _ _ _ _ _ _ Hctl)
    as (Hc & Hi & Hl & _ & _ & _ & _ & Htm & Hts).
  destruct (fireTimer_frame (timerSeq s) (handleChoice direction s))
    as (_ & _ & _ & Hrd2 & _).
  rewrite Hrd1 in Hrd2.
  assert (step (handleChoice direction s) (TimerFired (timerSeq s))
          = fireTimer (timerSeq s) (handleChoice direction s)) as ->
    by (unfold step; cbn [handle]; by apply thresholdEffect_ready).
  split; [|done].
  destruct (fireTimer_cases (timerSeq s) (handleChoice direction s))
    as [[Hnone _] | (d & c & Ht & ->)].
  - by rewrite Htm, lookup_singleton_eq in Hnone.
  - rewrite Htm, lookup_singleton_eq in Ht. injection Ht as <- <-.
    by rewrite Hc, Hi, Hl, Htm, Hts, delete_singleton_eq.
Qed.

Lemma classifyAll_core (ds : list Direction) (s : State) :
  ctrl_inv s → isDeckReady s = true → isAnimating s = false →
  activeIndex s + length ds ≤ length (cats s) →
  let s' := run s (classifyAll (timerSeq s) ds) in
  cats s' = cats s ∧
  activeIndex s' = activeIndex s + length ds ∧
  liked s' = liked s ++ accepted ds (drop (activeIndex s) (cats s)) ∧
  isAnimating s' = false ∧ timers s' = ∅ ∧ isDeckReady s' = true.
Proof.
  revert s. induction ds as [|d ds IH]; intros s Hinv Hrd Han Hlen.
  - cbn. rewrite Nat.add_0_r, app_nil_r. repeat split; try done.
    destruct Hinv as (_ & _ & Hpending). rewrite Han in Hpending. apply Hpending.
  - cbn [length] in Hlen.
    destruct (lookup_lt_is_Some_2 (cats s) (activeIndex s) ltac:(lia)) as [c Hcur].
    destruct (classify_once d c s Hinv Hrd Han Hcur) as [Hctl Hrd'].
    set (s1 := step (step s (Choice d)) (TimerFired (timerSeq s))) in *.
    assert (ctrl_inv s1) as Hinv' by (by do 2 apply step_ctrl_inv).
    destruct (controller_fields _ _ _ _ _ _ _ _ _ _ Hctl)
      as (Hc & Hi & Hl & _ & _ & Han' & _ & _ & Hts).
    specialize (IH s1 Hinv' Hrd' Han'). rewrite Hc, Hi, Hl, Hts in IH.
    specialize (IH ltac:(lia)).
    change (run s (classifyAll (timerSeq s) (d :: ds)))
      with (run s1 (classifyAll (S (timerSeq s)) ds)).
    cbv zeta in IH |- *. destruct IH as (-> & -> & -> & -> & -> & ->).
    repeat split; try done; [cbn [length]; lia|].
    rewrite (drop_S _ _ _ Hcur), Nat.add_1_r.
    destruct d; cbn [accepted]; [done|]. by rewrite <- app_assoc.
Qed.

(** X6. Classifying card after card: from a ready state in which nothing
    animates, a list of classifications, each followed by its timeout,
    advances the index by their number and appends to the liked cards the
    accepted ones among the cards passed, in order; classifying all
    remaining cards ends on the summary screen. *)
Theorem classifyAll_run (deck : list CatCard) (s : State) (ds : list Direction) :
  reachable deck s →
  isDeckReady s = true → isAnimating s = false →
  activeIndex s + length ds ≤ length (cats s) →
  let s' := run s (classifyAll (timerSeq s) ds) in
  cats s' = cats s ∧
  activeIndex s' = activeIndex s + length ds ∧
  liked s' = liked s ++ accepted ds (drop (activeIndex s) (cats s)) ∧
  isAnimating s' = false ∧ timers s' = ∅ ∧
  (activeIndex s + length ds = length (cats s) → screen s' = summary) ∧
  (activeIndex s + length ds < length (cats s) → screen s' = browsing).
Proof.
  intros Hs Hrd Han Hlen.
  destruct (classifyAll_core ds s (reachable_ctrl_inv deck s Hs) Hrd Han Hlen)
    as (Hc & Hi & Hl & Han' & Htm & Hrd').
  cbv zeta. repeat split; try assumption.
  - intros Hall. unfold screen, isComplete. rewrite Hrd', Hc, Hi. cbn [negb].
    by rewrite (proj2 (Nat.leb_le _ _)) by lia.
  - intros Hsome. unfold screen, isComplete. rewrite Hrd', Hc, Hi. cbn [negb].
    by rewrite (proj2 (Nat.leb_gt _ _)) by lia.
Qed.

Lemma classifyAll_run_witness :
  (isDeckReady run_three_of_twelve = true ∧
   isAnimating run_three_of_twelve = false ∧
   activeIndex run_three_of_twelve + length [DirRight; DirLeft; DirRight]
   ≤ length (cats run_three_of_twelve)) ∧
  let s' := run run_three_of_twelve
              (classifyAll (timerSeq run_three_of_twelve)
                 [DirRight; DirLeft; DirRight]) in
  cats s' = cats run_three_of_twelve ∧
  activeIndex s' = activeIndex run_three_of_twelve + length [DirRight; DirLeft; DirRight] ∧
  liked s' =
    liked run_three_of_twelve ++
    accepted [DirRight; DirLeft; DirRight]
      (drop (activeIndex run_three_of_twelve) (cats run_three_of_twelve)) ∧
  isAnimating s' = false ∧ timers s' = ∅ ∧
  (activeIndex run_three_of_twelve + length [DirRight; DirLeft; DirRight]
   = length (cats run_three_of_twelve) → screen s' = summary) ∧
  (activeIndex run_three_of_twelve + length [DirRight; DirLeft; DirRight]
   < length (cats run_three_of_twelve) → screen s' = browsing).
Proof.
  assert (isDeckReady run_three_of_twelve = true) as Hrd by (vm_compute; reflexivity).
  assert (isAnimating run_three_of_twelve = false) as Han by (vm_compute; reflexivity).
  assert (activeIndex run_three_of_twelve + length [DirRight; DirLeft; DirRight]
          ≤ length (cats run_three_of_twelve)) as Hlen by (vm_compute; lia).
  split; [exact (conj Hrd (conj Han Hlen))|].
  apply (classifyAll_run (generateDeck "d" TOTAL_CATS) run_three_of_twelve
           [DirRight; DirLeft; DirRight]); [|exact Hrd|exact Han|exact Hlen].
  unfold run_three_of_twelve. apply reachable_run. constructor.
Defined.

Example three_classified :
  activeIndex run_three_classified = 3 ∧
  length (liked run_three_classified) = 2 ∧
  screen run_three_classified = browsing ∧
  controlsDisabled run_three_classified = false ∧
  length (upcomingCats run_three_classified) = 3.
Proof. by vm_compute. Qed.

(** ** The deck of the application *)

(** X7. The deck of the application is always one that [generateDeck] made:
    twelve cards with pairwise different ids and pairwise different URLs,
    none of them empty or an object URL.  So the keys of the cards in the
    stack, and of the liked cards in the summary, never repeat. *)
Theorem App_deck_generated (deckId0 : string) (s : State) :
  reachable (generateDeck deckId0 TOTAL_CATS) s →
  (∃ deckId, cats s = generateDeck deckId TOTAL_CATS) ∧
  length (cats s) = 12 ∧
  NoDup (id <$> cats s) ∧ NoDup (url <$> cats s) ∧
  Forall (λ cat, url cat ≠ "" ∧ startsWith "blob:" (url cat) = false) (cats s) ∧
  NoDup (id <$> upcomingCats s) ∧ NoDup (id <$> liked s).
Proof.
  intros Hs.
  assert (∃ deckId, cats s = generateDeck deckId TOTAL_CATS) as [deckId Hd].
  { destruct (reachable_cats _ _ Hs) as [Hd | Hd]; [by exists deckId0 | done]. }
  destruct (reachable_ctrl_inv _ s Hs) as (_ & Hliked & _).
  destruct (generateDeck_NoDup deckId TOTAL_CATS) as [Hid Hurl].
  split; [by exists deckId|]. unfold upcomingCats. rewrite Hd in *.
  split; [apply generateDeck_length|].
  split; [done|]. split; [done|]. split; [apply generateDeck_remote|]. split.
  - apply (sublist_NoDup _ _ Hid), fmap_sublist.
    etrans; [apply sublist_take | apply sublist_drop].
  - apply (sublist_NoDup _ _ Hid), fmap_sublist.
    etrans; [exact Hliked | apply sublist_take].
Qed.

Lemma App_deck_generated_witness :
  (∃ deckId, cats (step run_summary_outstanding (StartOver "e"))
             = generateDeck deckId TOTAL_CATS) ∧
  length (cats (step run_summary_outstanding (StartOver "e"))) = 12 ∧
  NoDup (id <$> cats (step run_summary_outstanding (StartOver "e"))) ∧
  NoDup (url <$> cats (step run_summary_outstanding (StartOver "e"))) ∧
  Forall (λ cat, url cat ≠ "" ∧ startsWith "blob:" (url cat) = false)
    (cats (step run_summary_outstanding (StartOver "e"))) ∧
  NoDup (id <$> upcomingCats (step run_summary_outstanding (StartOver "e"))) ∧
  NoDup (id <$> liked (step run_summary_outstanding (StartOver "e"))).
Proof.
  apply (App_deck_generated "d").
  apply reachable_step. unfold run_summary_outstanding. apply reachable_run.
  unfold run_three_of_twelve. apply reachable_run. constructor.
Defined.

(** ** The image cache and the jobs *)

Lemma liveJobs_passes (s s' : State) : passes s' = passes s → liveJobs s' = liveJobs s.
Proof. unfold liveJobs. by intros ->. Qed.

Lemma liveJobs_setPhase (g i : nat) (ph : Phase) (s : State) :
  liveJobs (setPhase g i ph s) =
    if decide (S g = length (passes s))
    then alter (withPhase ph) i (liveJobs s)
    else liveJobs s.
Proof.
  unfold liveJobs, setPhase. cbn [passes upd_passes].
  rewrite !last_lookup, length_alter, list_lookup_alter.
  destruct (decide (S g = length (passes s))) as [Hg|Hg].
  - rewrite decide_True by lia. assert (pred (length (passes s)) = g) as -> by lia.
    by destruct (passes s !! g).
  - destruct (decide (g = pred (length (passes s)))) as [->|]; [|done].
    assert (passes s = []) as -> by (destruct (passes s); [done | simpl in Hg; lia]).
    done.
Qed.

Lemma jobAt_live (g i : nat) (s : State) :
  S g = length (passes s) → jobAt g i s = liveJobs s !! i.
Proof.
  intros Hg. unfold jobAt, liveJobs. rewrite last_lookup.
  assert (pred (length (passes s)) = g) as -> by lia.
  by destruct (passes s !! g).
Qed.

Lemma jobAt_lt (g i : nat) (j : Job) (s : State) :
  jobAt g i s = Some j → g < length (passes s).
Proof.
  unfold jobAt. destruct (passes s !! g) as [p|] eqn:Hp; [|done].
  intros _. by apply lookup_lt_Some in Hp.
Qed.

Lemma afterAll_resources (g : nat) (s : State) :
  passes (afterAll g s) = passes s ∧ imagePool (afterAll g s) = imagePool s ∧
  inFlight (afterAll g s) = inFlight s ∧ objectUrls (afterAll g s) = objectUrls s.
Proof. by destruct (afterAll_cases g s) as [-> | (_ & _ & _ & _ & ->)]. Qed.

Lemma fetchSettled_settles (g i : nat) (r : FetchResult) (s : State) :
  settles g i s (fetchSettled g i r s).
Proof.
  unfold fetchSettled. destruct (jobAt g i s) as [[u []]|] eqn:Hj; try by left.
  right. exists u, AwaitFetch. destruct (fetchFailed r) eqn:Hr.
  - exists Resolved. rewrite afterFetch_failed by done. cbv zeta.
    cbn [settlePromise]. split; [done|]. split; [done|].
    destruct (afterAll_resources g (setPhase g i Resolved
      (if passCancelled g s then discard u s else record u u s)))
      as (-> & -> & -> & ->).
    split; [by destruct (passCancelled g s)|]. right. split; [done|].
    destruct (passCancelled g s); [done|]. split; [done|]. exists u. split; [done|].
    by left.
  - destruct r as [|[]]; try done. exists AwaitBlob. rewrite afterFetch_ok. cbv zeta.
    cbn [settlePromise]. split; [done|]. split; [done|].
    destruct (afterAll_resources g (setPhase g i AwaitBlob s)) as (-> & -> & -> & ->).
    split; [done|]. by left.
Qed.

Lemma blobSettled_settles (g i : nat) (r : BlobResult) (s : State) :
  settles g i s (blobSettled g i r s).
Proof.
  unfold blobSettled. destruct (jobAt g i s) as [[u []]|] eqn:Hj; try by left.
  right. exists u, AwaitBlob, Resolved. split; [done|]. split; [done|].
  destruct r; [rewrite afterBlob_rejected | rewrite afterBlob_ready]; cbv zeta;
    cbn [settlePromise].
  - destruct (afterAll_resources g (setPhase g i Resolved
      (if passCancelled g s then discard u s else record u u s)))
      as (-> & -> & -> & ->).
    split; [by destruct (passCancelled g s)|]. right. split; [done|].
    destruct (passCancelled g s); [done|]. split; [done|]. exists u. split; [done|].
    by left.
  - destruct (afterAll_resources g (setPhase g i Resolved
      (if passCancelled g s then discard u s
       else record u (createObjectURL s).1 (createObjectURL s).2)))
      as (-> & -> & -> & ->).
    split; [by destruct (passCancelled g s)|]. right. split; [done|].
    destruct (passCancelled g s); [done|]. split; [done|].
    exists (createObjectURL s).1. split; [done|]. right.
    split; [apply createObjectURL_blob | done].
Qed.

Lemma cache_inv_shrink (s s' : State) :
  liveJobs s' = liveJobs s → imagePool s' = imagePool s →
  objectUrls s' = objectUrls s → inFlight s' ⊆ inFlight s →
  cache_inv s → cache_inv s'.
Proof.
  intros Hj Hp Ho Hf (H1 & H2 & H3 & H4). unfold cache_inv.
  rewrite Hj, Hp, Ho. split; [done|]. split; [done|]. split; [done|].
  intros u Hu. by apply H4, Hf.
Qed.

Lemma blob_nonempty (value : string) : startsWith "blob:" value = true → value ≠ "".
Proof. by intros Hb ->. Qed.

(** A waiting job of the latest run moves on. *)
Lemma settle_cache_inv (s s' : State) (i : nat) (u : string) (ph ph' : Phase) :
  cache_inv s →
  liveJobs s !! i = Some {| jobUrl := u; phase := ph |} → suspended ph = true →
  liveJobs s' = alter (withPhase ph') i (liveJobs s) →
  objectUrls s ⊆ objectUrls s' →
  (ph' = AwaitBlob ∧ imagePool s' = imagePool s ∧ inFlight s' = inFlight s) ∨
  (ph' = Resolved ∧ inFlight s' = inFlight s ∖ {[u]} ∧
   ∃ value, imagePool s' = <[u:=value]> (imagePool s) ∧
            (value = u ∨ (value ∈ objectUrls s' ∧ startsWith "blob:" value = true))) →
  cache_inv s'.
Proof.
  intros (H1 & H2 & H3 & H4) Hi Hsusp Hjobs Hou Hcase.
  assert (∀ i0 j0, liveJobs s !! i0 = Some j0 → phase j0 = Resolved → i0 ≠ i) as Hres.
  { intros i0 j0 Hi0 Hph ->. rewrite Hi in Hi0. injection Hi0 as <-.
    simpl in Hph. by rewrite Hph in Hsusp. }
  assert (∀ i0 j0, i0 ≠ i → liveJobs s !! i0 = Some j0 → liveJobs s' !! i0 = Some j0)
    as Hother.
  { intros i0 j0 Hne Hi0. by rewrite Hjobs, list_lookup_alter_ne. }
  assert (liveJobs s' !! i = Some {| jobUrl := u; phase := ph' |}) as Hi'.
  { by rewrite Hjobs, list_lookup_alter_eq, Hi. }
  assert (∀ i0 j0, liveJobs s' !! i0 = Some j0 → i0 ≠ i → liveJobs s !! i0 = Some j0)
    as Hback.
  { intros i0 j0 Hi0 Hne. by rewrite Hjobs, list_lookup_alter_ne in Hi0. }
  assert (u ≠ "") as Hu by exact (H1 i _ Hi Hsusp).
  destruct Hcase as [(-> & Hpool & Hfl) | (-> & Hfl & value & Hpool & Hvalue)].
  - unfold cache_inv. rewrite Hpool, Hfl. split; [|split; [|split]].
    + intros i0 j0 Hi0 Hs0. destruct (decide (i0 = i)) as [->|Hne].
      * rewrite Hi' in Hi0. by injection Hi0 as <-.
      * apply (H1 i0 j0); [by apply Hback | done].
    + intros k v Hk. destruct (H2 k v Hk) as (Hv & (i0 & j0 & Hi0 & Hk0 & Hph0) & Hlive).
      split; [done|]. split.
      * exists i0, j0. split; [|done]. apply Hother; [by eapply Hres | done].
      * destruct Hlive as [? | [? ?]]; [by left | right]. split; [by apply Hou | done].
    + intros i0 j0 Hi0 Hph0 Hne0. destruct (decide (i0 = i)) as [->|Hne].
      * rewrite Hi' in Hi0. by injection Hi0 as <-.
      * apply (H3 i0 j0); [by apply Hback | done | done].
    + intros u' Hu'. destruct (H4 u' Hu') as (i0 & j0 & Hi0 & Hk0 & Hs0).
      destruct (decide (i0 = i)) as [->|Hne].
      * rewrite Hi in Hi0. injection Hi0 as <-. by exists i, {| jobUrl := u; phase := AwaitBlob |}.
      * exists i0, j0. split; [by apply Hother | done].
  - unfold cache_inv. rewrite Hpool, Hfl. split; [|split; [|split]].
    + intros i0 j0 Hi0 Hs0. destruct (decide (i0 = i)) as [->|Hne].
      * rewrite Hi' in Hi0. by injection Hi0 as <-.
      * apply (H1 i0 j0); [by apply Hback | done].
    + intros k v Hk. apply lookup_insert_Some in Hk as [[<- <-] | [Hne Hk]].
      * split; [destruct Hvalue as [-> | [_ Hb]]; [done | by apply blob_nonempty]|].
        split; [by exists i, {| jobUrl := u; phase := Resolved |}|].
        destruct Hvalue as [-> | ?]; [by left | by right].
      * destruct (H2 k v Hk) as (Hv & (i0 & j0 & Hi0 & Hk0 & Hph0) & Hlive).
        split; [done|]. split.
        -- exists i0, j0. split; [|done]. apply Hother; [by eapply Hres | done].
        -- destruct Hlive as [? | [? ?]]; [by left | right].
           split; [by apply Hou | done].
    + intros i0 j0 Hi0 Hph0 Hne0. destruct (decide (i0 = i)) as [->|Hne].
      * rewrite Hi' in Hi0. injection Hi0 as <-. simpl. rewrite lookup_insert_eq. eauto.
      * apply lookup_insert_is_Some. destruct (decide (u = jobUrl j0)); [by left|].
        right. split; [done|]. apply (H3 i0 j0); [by apply Hback | done | done].
    + intros u' Hu'. apply elem_of_difference in Hu' as [Hu' Hne'].
      destruct (H4 u' Hu') as (i0 & j0 & Hi0 & Hk0 & Hs0).
      exists i0, j0. split; [|done]. apply Hother; [|done].
      intros ->. rewrite Hi in Hi0. injection Hi0 as <-. simpl in Hk0. set_solver.
Qed.

Lemma settles_cases (g i : nat) (s s' : State) :
  run_inv s → settles g i s s' →
  (liveJobs s' = liveJobs s ∧ imagePool s' = imagePool s ∧
   objectUrls s' = objectUrls s ∧ inFlight s' ⊆ inFlight s) ∨
  (∃ u ph ph',
     liveJobs s !! i = Some {| jobUrl := u; phase := ph |} ∧ suspended ph = true ∧
     liveJobs s' = alter (withPhase ph') i (liveJobs s) ∧
     ((ph' = AwaitBlob ∧ imagePool s' = imagePool s ∧ inFlight s' = inFlight s ∧
       objectUrls s' = objectUrls s) ∨
      (ph' = Resolved ∧ inFlight s' = inFlight s ∖ {[u]} ∧
       ∃ value, imagePool s' = <[u:=value]> (imagePool s) ∧
         ((value = u ∧ objectUrls s' = objectUrls s) ∨
          (startsWith "blob:" value = true ∧
           objectUrls s' = {[value]} ∪ objectUrls s))))).
Proof.
  intros Hinv [-> | (u & ph & ph' & Hj & Hs & Hps & Hcase)]; [by left|].
  pose proof (jobAt_lt _ _ _ _ Hj) as Hlt.
  assert (liveJobs s' = liveJobs (setPhase g i ph' s)) as Hlive
    by (by apply liveJobs_passes).
  rewrite liveJobs_setPhase in Hlive.
  destruct (decide (S g = length (passes s))) as [Hg|Hg].
  - right. exists u, ph, ph'. rewrite <- (jobAt_live g i s Hg).
    split; [done|]. split; [done|]. split; [done|].
    assert (passCancelled g s = false) as Hc.
    { destruct (run_inv_live s Hinv) as (_ & _ & _ & Hc).
      by assert (pred (length (passes s)) = g) as <- by lia. }
    rewrite Hc in Hcase. destruct Hcase as [? | (? & ? & ?)]; [by left | by right].
  - left. assert (passCancelled g s = true) as Hc
      by (apply run_inv_cancelled; [done | lia]).
    rewrite Hc in Hcase.
    destruct Hcase as [(_ & ? & -> & ?) | (_ & -> & ? & ?)]; repeat split; try done.
    set_solver.
Qed.

Lemma settles_cache_inv (g i : nat) (s s' : State) :
  run_inv s → cache_inv s → settles g i s s' → cache_inv s'.
Proof.
  intros Hinv Hcache Hset.
  destruct (settles_cases g i s s' Hinv Hset)
    as [(Hj & Hp & Ho & Hf) | (u & ph & ph' & Hi & Hs & Hj & Hcase)].
  - by apply (cache_inv_shrink s).
  - refine (settle_cache_inv s s' i u ph ph' Hcache Hi Hs Hj _ _).
    + destruct Hcase as [(_ & _ & _ & ->) | (_ & _ & v & _ & [[_ ->] | [_ ->]])];
        set_solver.
    + destruct Hcase as [(-> & ? & ? & _) | (-> & ? & v & ? & Hv)]; [by left|].
      right. split; [done|]. split; [done|]. exists v. split; [done|].
      destruct Hv as [[-> _] | [Hb ->]]; [by left | right]. split; [set_solver | done].
Qed.

Lemma settles_tight_inv (g i : nat) (s s' : State) :
  run_inv s → cache_inv s → tight_inv s → cats s' = cats s →
  settles g i s s' → tight_inv s'.
Proof.
  intros Hinv (_ & H2 & _) [Hnd Htight] Hcats Hset. unfold tight_inv. rewrite Hcats.
  split; [done|].
  destruct (settles_cases g i s s' Hinv Hset)
    as [(_ & -> & -> & _) | (u & ph & ph' & Hi & Hs & Hj & Hcase)]; [done|].
  destruct Hcase as [(_ & -> & _ & ->) | (_ & _ & v & -> & Hv)]; [done|].
  assert (imagePool s !! u = None) as Hfresh.
  { destruct (imagePool s !! u) as [v0|] eqn:Hu; [exfalso|done].
    destruct (H2 u v0 Hu) as (_ & (i0 & j0 & Hi0 & Hk0 & Hph0) & _).
    destruct (run_inv_live s Hinv) as (_ & Hurl & _). rewrite <- Hurl in Hnd.
    assert (i0 = i) as ->.
    { apply (NoDup_lookup _ _ _ u Hnd); rewrite list_lookup_fmap.
      - by rewrite Hi0; simpl; rewrite Hk0.
      - by rewrite Hi. }
    rewrite Hi in Hi0. injection Hi0 as <-. simpl in Hph0. by rewrite Hph0 in Hs. }
  assert (∀ x, x ∈ objectUrls s → ∃ k, <[u:=v]> (imagePool s) !! k = Some x) as Hold.
  { intros x Hx. destruct (Htight x Hx) as [k Hk]. exists k.
    rewrite lookup_insert_ne; [done|]. intros <-. by rewrite Hfresh in Hk. }
  destruct Hv as [[_ ->] | [_ ->]]; [done|].
  intros x Hx. apply elem_of_union in Hx as [Hx | Hx]; [|by apply Hold].
  apply elem_of_singleton in Hx as ->. exists u. by rewrite lookup_insert_eq.
Qed.

(** ** The image cache across the handlers *)

Lemma mapJobs_inFlight (g : nat) (deck : list CatCard) (s : State) (u : string) :
  u ∈ inFlight (mapJobs g deck s).1 →
  u ∈ inFlight s ∨
  ∃ cat, cat ∈ deck ∧ url cat = u ∧ cacheHit (imagePool s) cat = false.
Proof.
  revert s. induction deck as [|cat deck IH]; intros s; simpl; [by left|].
  rewrite startJob_eq. destruct (cacheHit (imagePool s) cat) eqn:Hhit.
  - destruct (passCancelled g s).
    + specialize (IH s). destruct (mapJobs g deck s) as [s2 jobs]. simpl in *.
      intros Hu. destruct (IH Hu) as [? | (cat' & ? & ? & ?)]; [by left | right].
      exists cat'. split; [by apply list_elem_of_further | done].
    + specialize (IH (upd_readyCount (λ count, count + 1) s)).
      destruct (mapJobs g deck _) as [s2 jobs]. simpl in *.
      intros Hu. destruct (IH Hu) as [? | (cat' & ? & ? & ?)]; [by left | right].
      exists cat'. split; [by apply list_elem_of_further | done].
  - specialize (IH (upd_inFlight (union {[url cat]}) s)).
    destruct (mapJobs g deck _) as [s2 jobs]. simpl in *.
    intros Hu. destruct (IH Hu) as [Hin | (cat' & ? & ? & ?)].
    + apply elem_of_union in Hin as [Hin | ?]; [|by left].
      apply elem_of_singleton in Hin as ->. right. exists cat.
      split; [apply list_elem_of_here | done].
    + right. exists cat'. split; [by apply list_elem_of_further | done].
Qed.

Lemma prefetchEffect_inFlight (s : State) (u : string) :
  u ∈ inFlight (prefetchEffect s) →
  u ∈ inFlight s ∨
  ∃ cat, cat ∈ cats s ∧ url cat = u ∧ cacheHit (imagePool s) cat = false.
Proof.
  unfold prefetchEffect. cbv zeta.
  set (s3 := upd_readyCount _ _).
  change (cats s3) with (cats s).
  destruct (0 <? length (cats s)); [|by left].
  unfold loadDeck.
  pose proof (mapJobs_inFlight (length (passes s)) (cats s3) s3 u) as Hmap.
  destruct (mapJobs (length (passes s)) (cats s3) s3) as [s1 jobs].
  rewrite (proj1 (proj2 (proj2 (afterAll_resources _ _)))). exact Hmap.
Qed.

Lemma prefetchEffect_liveJobs (s : State) :
  liveJobs (prefetchEffect s) = initJobs (imagePool s) (cats s).
Proof.
  destruct (prefetchEffect_spec s) as (Hps & _). unfold liveJobs.
  by rewrite Hps, last_snoc.
Qed.

Lemma initJobs_lookup (pool : gmap string string) (deck : list CatCard) (i : nat)
    (j : Job) :
  initJobs pool deck !! i = Some j →
  ∃ cat, deck !! i = Some cat ∧ jobUrl j = url cat ∧
         phase j = if cacheHit pool cat then Resolved else AwaitFetch.
Proof.
  unfold initJobs. rewrite list_lookup_fmap.
  destruct (deck !! i) as [cat|]; [|done]. intros [= <-]. by exists cat.
Qed.

(** A run of the prefetch effect that starts from an empty pool. *)
Lemma prefetchEffect_cache_inv (s : State) :
  imagePool s = ∅ → inFlight s = ∅ → cache_inv (prefetchEffect s).
Proof.
  intros Hpool Hfl. unfold cache_inv. rewrite prefetchEffect_liveJobs.
  destruct (prefetchEffect_spec s) as (_ & _ & -> & _). rewrite Hpool.
  split; [|split; [|split]].
  - intros i j Hi Hs. apply initJobs_lookup in Hi as (cat & _ & -> & Hph).
    intros Hempty. rewrite Hph in Hs. unfold cacheHit in Hs.
    by rewrite bool_decide_eq_true_2 in Hs.
  - intros k value Hk. by rewrite lookup_empty in Hk.
  - intros i j Hi Hph Hne. apply initJobs_lookup in Hi as (cat & _ & Hurl & Hph').
    rewrite Hurl in Hne. rewrite cacheHit_empty in Hph' by done. congruence.
  - intros u Hu. apply prefetchEffect_inFlight in Hu as [Hu | (cat & Hcat & <- & Hmiss)].
    + rewrite Hfl in Hu. set_solver.
    + apply list_elem_of_lookup in Hcat as [i Hi].
      exists i, {| jobUrl := url cat; phase := AwaitFetch |}.
      split; [|done]. unfold initJobs. rewrite list_lookup_fmap, Hi. simpl.
      by rewrite Hpool in Hmiss; rewrite Hmiss.
Qed.

Lemma prefetchEffect_tight_inv (s : State) :
  NoDup (url <$> cats s) → objectUrls s = ∅ → tight_inv (prefetchEffect s).
Proof.
  intros Hnd Hou. destruct (prefetchEffect_spec s) as (_ & Hctl & _ & Hou' & _).
  unfold tight_inv. rewrite (controller_cats _ _ Hctl), Hou', Hou.
  split; [done|]. set_solver.
Qed.

Lemma prefetchCleanup_inFlight (s : State) : inFlight (prefetchCleanup s) = inFlight s.
Proof. done. Qed.

Lemma clearTimeout_resources (handle : option nat) (s : State) :
  passes (clearTimeout handle s) = passes s ∧
  imagePool (clearTimeout handle s) = imagePool s ∧
  inFlight (clearTimeout handle s) = inFlight s ∧
  objectUrls (clearTimeout handle s) = objectUrls s.
Proof. by destruct handle. Qed.

Lemma releasePool_revokes_all (s : State) :
  live_blob s → (∀ u, u ∈ objectUrls s → ∃ k, imagePool s !! k = Some u) →
  objectUrls (releasePool s) = ∅.
Proof.
  intros Hlive Htight. apply elem_of_equiv_empty_L. intros u Hu.
  apply releasePool_live in Hu as [Hin Hnot]. apply Hnot.
  split; [by apply Hlive | by apply Htight].
Qed.

Lemma startOver_cache_inv (deckId : string) (s : State) :
  cache_inv (startOver deckId s).
Proof.
  unfold startOver. apply prefetchEffect_cache_inv.
  - rewrite (proj1 (proj2 (prefetchCleanup_frame (resetDeck deckId s)))).
    apply resetDeck_controller.
  - rewrite prefetchCleanup_inFlight. apply resetDeck_controller.
Qed.

Lemma resetDeck_objectUrls (deckId : string) (s : State) :
  live_blob s → (∀ u, u ∈ objectUrls s → ∃ k, imagePool s !! k = Some u) →
  objectUrls (resetDeck deckId s) = ∅.
Proof.
  intros Hlive Htight. rewrite resetDeck_eq. cbn [objectUrls].
  destruct (clearTimeout_resources (timeoutRef s) s) as (_ & Hpool & _ & Hou).
  apply releasePool_revokes_all.
  - intros u. rewrite Hou. apply Hlive.
  - intros u. rewrite Hou, Hpool. apply Htight.
Qed.

Lemma startOver_tight_inv (deckId : string) (s : State) :
  live_blob s → tight_inv s → tight_inv (startOver deckId s).
Proof.
  intros Hlive [_ Htight]. unfold startOver. apply prefetchEffect_tight_inv.
  - rewrite (controller_cats _ _ (proj1 (prefetchCleanup_frame (resetDeck deckId s)))).
    rewrite (proj1 (controller_fields _ _ _ _ _ _ _ _ _ _
               (proj1 (resetDeck_controller deckId s)))).
    apply generateDeck_NoDup.
  - rewrite (proj2 (proj2 (prefetchCleanup_frame (resetDeck deckId s)))).
    by apply resetDeck_objectUrls.
Qed.

(** What the handlers of the controller leave alone. *)
Lemma handleChoice_resources (direction : Direction) (s : State) :
  passes (handleChoice direction s) = passes s ∧
  imagePool (handleChoice direction s) = imagePool s ∧
  inFlight (handleChoice direction s) = inFlight s ∧
  objectUrls (handleChoice direction s) = objectUrls s.
Proof.
  unfold handleChoice. destruct (currentCat s); [|done].
  destruct (isAnimating s || negb (isDeckReady s)); [done|].
  unfold clearTimeout. simpl. by destruct (timeoutRef s).
Qed.

Lemma fireTimer_resources (t : nat) (s : State) :
  passes (fireTimer t s) = passes s ∧
  imagePool (fireTimer t s) = imagePool s ∧
  inFlight (fireTimer t s) = inFlight s ∧
  objectUrls (fireTimer t s) = objectUrls s.
Proof. unfold fireTimer. by destruct (timers s !! t) as [[[] cat]|]. Qed.

Lemma onSwiping_resources (deltaX : Z) (dirLeft : bool) (s : State) :
  passes (onSwiping deltaX dirLeft s) = passes s ∧
  imagePool (onSwiping deltaX dirLeft s) = imagePool s ∧
  inFlight (onSwiping deltaX dirLeft s) = inFlight s ∧
  objectUrls (onSwiping deltaX dirLeft s) = objectUrls s.
Proof.
  unfold onSwiping. destruct (currentCat s); [|done]. by destruct (isAnimating s).
Qed.

Lemma onSwiped_resources (s : State) :
  passes (onSwiped s) = passes s ∧
  imagePool (onSwiped s) = imagePool s ∧
  inFlight (onSwiped s) = inFlight s ∧
  objectUrls (onSwiped s) = objectUrls s.
Proof. unfold onSwiped. by destruct (swipeDirection s). Qed.

Lemma thresholdEffect_resources (s : State) :
  passes (thresholdEffect s) = passes s ∧
  imagePool (thresholdEffect s) = imagePool s ∧
  inFlight (thresholdEffect s) = inFlight s ∧
  objectUrls (thresholdEffect s) = objectUrls s.
Proof. by destruct (thresholdEffect_cases s) as [-> | [_ ->]]. Qed.

Lemma cache_inv_resources (s s' : State) :
  passes s' = passes s ∧ imagePool s' = imagePool s ∧
  inFlight s' = inFlight s ∧ objectUrls s' = objectUrls s →
  cache_inv s → cache_inv s'.
Proof.
  intros (Hps & Hpool & Hfl & Hou). apply cache_inv_shrink; try done.
  - by apply liveJobs_passes.
  - by rewrite Hfl.
Qed.

Lemma tight_inv_resources (s s' : State) :
  cats s' = cats s →
  passes s' = passes s ∧ imagePool s' = imagePool s ∧
  inFlight s' = inFlight s ∧ objectUrls s' = objectUrls s →
  tight_inv s → tight_inv s'.
Proof. intros Hcats (_ & Hpool & _ & Hou). unfold tight_inv. by rewrite Hcats, Hpool, Hou. Qed.

Lemma handle_cache_inv (e : Event) (s : State) :
  run_inv s → cache_inv s → cache_inv (handle e s).
Proof.
  intros Hinv Hcache. destruct e as [d|dx l| |t|deckId|g i r|g i r]; cbn [handle].
  - exact (cache_inv_resources _ _ (handleChoice_resources d s) Hcache).
  - exact (cache_inv_resources _ _ (onSwiping_resources dx l s) Hcache).
  - exact (cache_inv_resources _ _ (onSwiped_resources s) Hcache).
  - exact (cache_inv_resources _ _ (fireTimer_resources t s) Hcache).
  - destruct (screen s); try assumption. apply startOver_cache_inv.
  - exact (settles_cache_inv g i s _ Hinv Hcache (fetchSettled_settles g i r s)).
  - exact (settles_cache_inv g i s _ Hinv Hcache (blobSettled_settles g i r s)).
Qed.

Lemma handle_tight_inv (e : Event) (s : State) :
  run_inv s → cache_inv s → live_blob s → tight_inv s → tight_inv (handle e s).
Proof.
  intros Hinv Hcache Hlive Htight.
  destruct e as [d|dx l| |t|deckId|g i r|g i r]; cbn [handle].
  - exact (tight_inv_resources _ _ (proj1 (handleChoice_frame d s))
             (handleChoice_resources d s) Htight).
  - exact (tight_inv_resources _ _ (proj1 (onSwiping_frame dx l s))
             (onSwiping_resources dx l s) Htight).
  - exact (tight_inv_resources _ _ (proj1 (onSwiped_frame s))
             (onSwiped_resources s) Htight).
  - exact (tight_inv_resources _ _ (proj1 (fireTimer_frame t s))
             (fireTimer_resources t s) Htight).
  - destruct (screen s); try assumption. by apply startOver_tight_inv.
  - exact (settles_tight_inv g i s _ Hinv Hcache Htight
             (controller_cats _ _ (fetchSettled_controller g i r s))
             (fetchSettled_settles g i r s)).
  - exact (settles_tight_inv g i s _ Hinv Hcache Htight
             (controller_cats _ _ (blobSettled_controller g i r s))
             (blobSettled_settles g i r s)).
Qed.

Lemma mount_cache_inv (deck : list CatCard) : cache_inv (mount deck).
Proof.
  unfold mount.
  apply (cache_inv_resources (prefetchEffect (initial deck)));
    [apply thresholdEffect_resources|].
  by apply prefetchEffect_cache_inv.
Qed.

Lemma mount_tight_inv (deck : list CatCard) :
  NoDup (url <$> deck) → tight_inv (mount deck).
Proof.
  intros Hnd. unfold mount.
  apply (tight_inv_resources (prefetchEffect (initial deck)));
    [apply thresholdEffect_cats | apply thresholdEffect_resources|].
  by apply prefetchEffect_tight_inv.
Qed.

Lemma reachable_cache_inv (deck : list CatCard) (s : State) :
  reachable deck s → cache_inv s.
Proof.
  induction 1 as [|s e Hs IH]; [apply mount_cache_inv|]. unfold step.
  apply (cache_inv_resources (handle e s)); [apply thresholdEffect_resources|].
  apply handle_cache_inv; [|done]. apply (reachable_inv deck s Hs).
Qed.

Lemma reachable_tight_inv (deck : list CatCard) (s : State) :
  NoDup (url <$> deck) → reachable deck s → tight_inv s.
Proof.
  intros Hnd. induction 1 as [|s e Hs IH]; [by apply mount_tight_inv|]. unfold step.
  apply (tight_inv_resources (handle e s));
    [apply thresholdEffect_cats | apply thresholdEffect_resources|].
  apply handle_tight_inv; [apply (reachable_inv deck s Hs) | | | done].
  - by apply (reachable_cache_inv deck).
  - by apply (reachable_live_blob deck).
Qed.

(** ** What the cache holds *)

Lemma live_job_card (s : State) (i : nat) (j : Job) :
  run_inv s → liveJobs s !! i = Some j →
  ∃ cat, cats s !! i = Some cat ∧ url cat = jobUrl j.
Proof.
  intros Hinv Hi. destruct (run_inv_live s Hinv) as (_ & Hurl & _).
  assert ((url <$> cats s) !! i = Some (jobUrl j)) as Hc
    by (by rewrite <- Hurl, list_lookup_fmap, Hi).
  rewrite list_lookup_fmap in Hc. destruct (cats s !! i) as [cat|]; [|done].
  exists cat. split; [done|]. by injection Hc.
Qed.

Lemma card_live_job (s : State) (i : nat) (cat : CatCard) :
  run_inv s → cats s !! i = Some cat →
  ∃ j, liveJobs s !! i = Some j ∧ jobUrl j = url cat.
Proof.
  intros Hinv Hi. destruct (run_inv_live s Hinv) as (_ & Hurl & _).
  assert ((jobUrl <$> liveJobs s) !! i = Some (url cat)) as Hc
    by (by rewrite Hurl, list_lookup_fmap, Hi).
  rewrite list_lookup_fmap in Hc. destruct (liveJobs s !! i) as [j|]; [|done].
  exists j. split; [done|]. by injection Hc.
Qed.

(** X8. Every entry of the image pool belongs to a card of the current deck
    whose job has resolved in the latest run of the prefetch effect; its
    value is the URL of the card itself or an object URL that is still
    live, and never the empty string. *)
Theorem imagePool_entries (deck : list CatCard) (s : State) (k value : string) :
  reachable deck s →
  imagePool s !! k = Some value →
  (∃ i cat j, cats s !! i = Some cat ∧ url cat = k ∧
              liveJobs s !! i = Some j ∧ phase j = Resolved) ∧
  value ≠ "" ∧
  (value = k ∨ (value ∈ objectUrls s ∧ startsWith "blob:" value = true)).
Proof.
  intros Hs Hk. destruct (reachable_inv deck s Hs) as [Hinv _].
  destruct (reachable_cache_inv deck s Hs) as (_ & H2 & _).
  destruct (H2 k value Hk) as (Hne & (i & j & Hi & Hurl & Hph) & Hvalue).
  split; [|done]. destruct (live_job_card s i j Hinv Hi) as (cat & Hcat & Hu).
  exists i, cat, j. repeat split; try done. by rewrite Hu.
Qed.

Lemma imagePool_entries_witness :
  (∃ i cat j, cats run_three_of_twelve !! i = Some cat ∧
              url cat = "https://cataas.com/cat?width=560&height=720&format=jpg&deck=d-2" ∧
              liveJobs run_three_of_twelve !! i = Some j ∧ phase j = Resolved) ∧
  "blob:0" ≠ "" ∧
  ("blob:0" = "https://cataas.com/cat?width=560&height=720&format=jpg&deck=d-2" ∨
   ("blob:0" ∈ objectUrls run_three_of_twelve ∧ startsWith "blob:" "blob:0" = true)).
Proof.
  assert (imagePool run_three_of_twelve
            !! "https://cataas.com/cat?width=560&height=720&format=jpg&deck=d-2"
          = Some "blob:0") as Hk by (vm_compute; reflexivity).
  apply (imagePool_entries (generateDeck "d" TOTAL_CATS) run_three_of_twelve _ _);
    [|exact Hk].
  unfold run_three_of_twelve. apply reachable_run. constructor.
Defined.

(** X9. What a card shows: its [src] is its own URL or a live object URL,
    never a revoked one; the skeleton covers it exactly while the pool has
    no entry for it, and then the [src] is the remote URL. *)
Theorem displaySrc_live (deck : list CatCard) (s : State) (cat : CatCard) :
  reachable deck s →
  (displaySrc s cat = url cat ∨
   (displaySrc s cat ∈ objectUrls s ∧ startsWith "blob:" (displaySrc s cat) = true)) ∧
  (isImageReady s cat = true ↔ is_Some (cachedSrc s cat)) ∧
  (isImageReady s cat = false → displaySrc s cat = url cat).
Proof.
  intros Hs. destruct (reachable_cache_inv deck s Hs) as (_ & H2 & _).
  unfold displaySrc, isImageReady, cachedSrc.
  destruct (imagePool s !! url cat) as [value|] eqn:Hk; simpl.
  - destruct (H2 _ _ Hk) as (Hne & _ & Hvalue).
    rewrite bool_decide_eq_false_2 by done. simpl.
    split; [|split; [by split; eauto | done]].
    destruct Hvalue as [-> | ?]; [by left | by right].
  - split; [by left|]. split; [|done]. split; [done | by intros [? ?]].
Qed.

Lemma displaySrc_live_witness :
  (displaySrc run_three_of_twelve first_card = url first_card ∨
   (displaySrc run_three_of_twelve first_card ∈ objectUrls run_three_of_twelve ∧
    startsWith "blob:" (displaySrc run_three_of_twelve first_card) = true)) ∧
  (isImageReady run_three_of_twelve first_card = true ↔
   is_Some (cachedSrc run_three_of_twelve first_card)) ∧
  (isImageReady run_three_of_twelve first_card = false →
   displaySrc run_three_of_twelve first_card = url first_card).
Proof.
  apply (displaySrc_live (generateDeck "d" TOTAL_CATS)).
  unfold run_three_of_twelve. apply reachable_run. constructor.
Defined.

(** X10. With pairwise different URLs in the deck, the skeleton of a card
    that has a URL is shown exactly until the job of that card resolves. *)
Theorem skeleton_until_resolved
    (deck : list CatCard) (s : State) (i : nat) (cat : CatCard) (j : Job) :
  reachable deck s → NoDup (url <$> deck) →
  cats s !! i = Some cat → url cat ≠ "" → liveJobs s !! i = Some j →
  isImageReady s cat = isResolved j.
Proof.
  intros Hs Hnd Hcat Hne Hj. destruct (reachable_inv deck s Hs) as [Hinv _].
  destruct (reachable_cache_inv deck s Hs) as (_ & H2 & H3 & _).
  destruct (reachable_tight_inv deck s Hnd Hs) as [Hnd' _].
  destruct (card_live_job s i cat Hinv Hcat) as (j' & Hj' & Hurl).
  rewrite Hj in Hj'. injection Hj' as <-.
  unfold isImageReady, cachedSrc, isResolved.
  destruct (imagePool s !! url cat) as [value|] eqn:Hk.
  - destruct (H2 _ _ Hk) as (Hv & (i0 & j0 & Hi0 & Hurl0 & Hph0) & _).
    rewrite bool_decide_eq_false_2 by done. simpl.
    destruct (live_job_card s i0 j0 Hinv Hi0) as (cat0 & Hcat0 & Hu0).
    assert (i0 = i) as ->.
    { apply (NoDup_lookup _ _ _ (url cat) Hnd'); rewrite list_lookup_fmap.
      - rewrite Hcat0. simpl. by rewrite Hu0, Hurl0.
      - by rewrite Hcat. }
    rewrite Hj in Hi0. injection Hi0 as <-. by rewrite Hph0.
  - destruct (phase j) eqn:Hph; try done.
    rewrite <- Hurl in Hne, Hk. destruct (H3 i j Hj Hph Hne) as [? Hsome]. congruence.
Qed.

Lemma skeleton_until_resolved_witness :
  NoDup (url <$> generateDeck "d" TOTAL_CATS) ∧
  cats run_three_of_twelve !! 0 = Some first_card ∧
  url first_card ≠ "" ∧
  liveJobs run_three_of_twelve !! 0
  = Some {| jobUrl := url first_card; phase := AwaitBlob |} ∧
  isImageReady run_three_of_twelve first_card
  = isResolved {| jobUrl := url first_card; phase := AwaitBlob |}.
Proof.
  assert (NoDup (url <$> generateDeck "d" TOTAL_CATS)) as Hnd
    by apply generateDeck_NoDup.
  assert (cats run_three_of_twelve !! 0 = Some first_card) as Hcat
    by (vm_compute; reflexivity).
  assert (url first_card ≠ "") as Hne by (vm_compute; discriminate).
  assert (liveJobs run_three_of_twelve !! 0
          = Some {| jobUrl := url first_card; phase := AwaitBlob |}) as Hj
    by (vm_compute; reflexivity).
  split; [exact Hnd|]. split; [exact Hcat|]. split; [exact Hne|]. split; [exact Hj|].
  apply (skeleton_until_resolved (generateDeck "d" TOTAL_CATS) run_three_of_twelve 0
           first_card _); [|exact Hnd|exact Hcat|exact Hne|exact Hj].
  unfold run_three_of_twelve. apply reachable_run. constructor.
Defined.

(** X11. Every URL in the in-flight set is the URL of a card whose job in
    the latest run of the prefetch effect is still waiting, so the set is
    empty once all those jobs have resolved; with pairwise different URLs in
    the deck, a URL in flight has no pool entry yet. *)
Theorem inFlight_awaited (deck : list CatCard) (s : State) :
  reachable deck s →
  (∀ u, u ∈ inFlight s →
     u ≠ "" ∧
     ∃ i cat j, cats s !! i = Some cat ∧ url cat = u ∧
                liveJobs s !! i = Some j ∧ suspended (phase j) = true) ∧
  (Forall (λ j, phase j = Resolved) (liveJobs s) → inFlight s = ∅) ∧
  (NoDup (url <$> deck) → ∀ u, u ∈ inFlight s → imagePool s !! u = None).
Proof.
  intros Hs. destruct (reachable_inv deck s Hs) as [Hinv _].
  destruct (reachable_cache_inv deck s Hs) as (H1 & H2 & _ & H4).
  split; [|split].
  - intros u Hu. destruct (H4 u Hu) as (i & j & Hi & Hurl & Hsusp).
    split; [rewrite <- Hurl; by apply (H1 i)|].
    destruct (live_job_card s i j Hinv Hi) as (cat & Hcat & Hc).
    exists i, cat, j. repeat split; try done. by rewrite Hc.
  - intros Hall. apply elem_of_equiv_empty_L. intros u Hu.
    destruct (H4 u Hu) as (i & j & Hi & _ & Hsusp).
    rewrite (Forall_lookup_1 _ _ _ _ Hall Hi) in Hsusp. done.
  - intros Hnd u Hu. destruct (reachable_tight_inv deck s Hnd Hs) as [Hnd' _].
    destruct (run_inv_live s Hinv) as (_ & Hjobs & _). rewrite <- Hjobs in Hnd'.
    destruct (H4 u Hu) as (i & j & Hi & Hurl & Hsusp).
    destruct (imagePool s !! u) as [value|] eqn:Hk; [exfalso|done].
    destruct (H2 _ _ Hk) as (_ & (i0 & j0 & Hi0 & Hurl0 & Hph0) & _).
    assert (i0 = i) as ->.
    { apply (NoDup_lookup _ _ _ u Hnd'); rewrite list_lookup_fmap.
      - rewrite Hi0. simpl. by rewrite Hurl0.
      - rewrite Hi. simpl. by rewrite Hurl. }
    rewrite Hi in Hi0. injection Hi0 as <-. by rewrite Hph0 in Hsusp.
Qed.

Lemma inFlight_awaited_witness :
  (∀ u, u ∈ inFlight run_three_of_twelve →
     u ≠ "" ∧
     ∃ i cat j, cats run_three_of_twelve !! i = Some cat ∧ url cat = u ∧
                liveJobs run_three_of_twelve !! i = Some j ∧
                suspended (phase j) = true) ∧
  (Forall (λ j, phase j = Resolved) (liveJobs run_three_of_twelve) →
   inFlight run_three_of_twelve = ∅) ∧
  (NoDup (url <$> generateDeck "d" TOTAL_CATS) →
   ∀ u, u ∈ inFlight run_three_of_twelve → imagePool run_three_of_twelve !! u = None).
Proof.
  apply (inFlight_awaited (generateDeck "d" TOTAL_CATS)).
  unfold run_three_of_twelve. apply reachable_run. constructor.
Defined.

(** ** Object URLs *)

Lemma unmount_objectUrls (s : State) :
  live_blob s → (∀ u, u ∈ objectUrls s → ∃ k, imagePool s !! k = Some u) →
  objectUrls (unmount s) = ∅.
Proof.
  intros Hlive Htight. unfold unmount. cbv zeta.
  rewrite (proj2 (proj2 (prefetchCleanup_frame _))).
  apply releasePool_revokes_all.
  - intros u Hu. apply Hlive. revert Hu. by destruct (timeoutRef s).
  - intros u Hu.
    assert (u ∈ objectUrls s) as Hu' by (revert Hu; by destruct (timeoutRef s)).
    destruct (Htight u Hu') as [k Hk]. exists k. rewrite <- Hk.
    by destruct (timeoutRef s).
Qed.

(** X12. No object URL leaks: with pairwise different URLs in the deck,
    every live object URL is the value of a pool entry, so [releasePool]
    revokes all of them, and after [resetDeck] or the unmount cleanup none
    is live. *)
Theorem objectUrls_owned (deck : list CatCard) (s : State) (deckId : string) :
  reachable deck s → NoDup (url <$> deck) →
  (∀ u, u ∈ objectUrls s →
     startsWith "blob:" u = true ∧ ∃ k, imagePool s !! k = Some u) ∧
  objectUrls (releasePool s) = ∅ ∧
  objectUrls (resetDeck deckId s) = ∅ ∧
  objectUrls (unmount s) = ∅.
Proof.
  intros Hs Hnd. pose proof (reachable_live_blob deck s Hs) as Hlive.
  destruct (reachable_tight_inv deck s Hnd Hs) as [_ Htight].
  split; [|split; [|split]].
  - intros u Hu. split; [by apply Hlive | by apply Htight].
  - by apply releasePool_revokes_all.
  - by apply resetDeck_objectUrls.
  - by apply unmount_objectUrls.
Qed.

Lemma objectUrls_owned_witness :
  NoDup (url <$> generateDeck "d" TOTAL_CATS) ∧
  (∀ u, u ∈ objectUrls run_three_of_twelve →
     startsWith "blob:" u = true ∧ ∃ k, imagePool run_three_of_twelve !! k = Some u) ∧
  objectUrls (releasePool run_three_of_twelve) = ∅ ∧
  objectUrls (resetDeck "e" run_three_of_twelve) = ∅ ∧
  objectUrls (unmount run_three_of_twelve) = ∅.
Proof.
  assert (NoDup (url <$> generateDeck "d" TOTAL_CATS)) as Hnd
    by apply generateDeck_NoDup.
  split; [exact Hnd|].
  apply (objectUrls_owned (generateDeck "d" TOTAL_CATS)); [|exact Hnd].
  unfold run_three_of_twelve. apply reachable_run. constructor.
Defined.

(** Two cards with one URL: the second object URL overwrites the first in
    the pool, and [releasePool] leaves the first one live.  [generateDeck]
    never makes such a deck. *)
Example twin_deck_leak :
  elements (objectUrls run_twins_fetched) = ["blob:1"; "blob:0"] ∧
  imagePool run_twins_fetched !! "https://cataas.com/cat" = Some "blob:1" ∧
  elements (objectUrls (unmount run_twins_fetched)) = ["blob:0"].
Proof. by vm_compute. Qed.

(** ** An image that arrives *)

Lemma flag_only (s s' : State) :
  s' = s ∨ s' = upd_isDeckReady (λ _, true) s →
  passes s' = passes s ∧ imagePool s' = imagePool s ∧ inFlight s' = inFlight s ∧
  objectUrls s' = objectUrls s ∧ objectSeq s' = objectSeq s ∧
  readyCount s' = readyCount s.
Proof. by intros [-> | ->]. Qed.

Lemma thresholdEffect_flag_only (s : State) :
  thresholdEffect s = s ∨ thresholdEffect s = upd_isDeckReady (λ _, true) s.
Proof. destruct (thresholdEffect_cases s) as [? | [_ ?]]; [by left | by right]. Qed.

Lemma afterAll_flag_only (g : nat) (s : State) :
  afterAll g s = s ∨ afterAll g s = upd_isDeckReady (λ _, true) s.
Proof. destruct (afterAll_cases g s) as [? | (_ & _ & _ & _ & ?)]; [by left | by right]. Qed.

Lemma passCancelled_passes (g : nat) (s s' : State) :
  passes s' = passes s → passCancelled g s' = passCancelled g s.
Proof. unfold passCancelled. by intros ->. Qed.

Lemma fetch_ok_step (s : State) (g i : nat) (u : string) :
  jobAt g i s = Some {| jobUrl := u; phase := AwaitFetch |} →
  let s1 := step s (FetchSettled g i (FetchResponse true)) in
  passes s1 = passes (setPhase g i AwaitBlob s) ∧
  jobAt g i s1 = Some {| jobUrl := u; phase := AwaitBlob |} ∧
  imagePool s1 = imagePool s ∧ inFlight s1 = inFlight s ∧
  objectUrls s1 = objectUrls s ∧ objectSeq s1 = objectSeq s ∧
  readyCount s1 = readyCount s.
Proof.
  intros Hj. cbv zeta. unfold step. cbn [handle]. unfold fetchSettled.
  rewrite Hj, afterFetch_ok. cbv zeta. cbn [settlePromise].
  destruct (flag_only _ _ (thresholdEffect_flag_only
             (afterAll g (setPhase g i AwaitBlob s))))
    as (Hps & -> & -> & -> & -> & ->).
  destruct (flag_only _ _ (afterAll_flag_only g (setPhase g i AwaitBlob s)))
    as (Hps' & -> & -> & -> & -> & ->).
  rewrite (jobAt_frame g i _ _ Hps), (jobAt_frame g i _ _ Hps'), Hps, Hps'.
  by rewrite (jobAt_setPhase _ _ _ _ _ Hj).
Qed.

Lemma blob_step (s : State) (g i : nat) (u : string) (r : BlobResult) :
  jobAt g i s = Some {| jobUrl := u; phase := AwaitBlob |} →
  passCancelled g s = false →
  let s2 := step s (BlobSettled g i r) in
  let value := match r with
               | BlobReady => "blob:" +:+ pretty (objectSeq s)
               | BlobRejected => u
               end in
  jobAt g i s2 = Some {| jobUrl := u; phase := Resolved |} ∧
  imagePool s2 = <[u:=value]> (imagePool s) ∧
  inFlight s2 = inFlight s ∖ {[u]} ∧
  objectUrls s2 = match r with
                  | BlobReady => {[value]} ∪ objectUrls s
                  | BlobRejected => objectUrls s
                  end ∧
  readyCount s2 = readyCount s + 1.
Proof.
  intros Hj Hc. cbv zeta. unfold step. cbn [handle]. unfold blobSettled.
  rewrite Hj.
  destruct r; [rewrite afterBlob_rejected | rewrite afterBlob_ready];
    rewrite Hc; cbv zeta; cbn [settlePromise].
  - destruct (flag_only _ _ (thresholdEffect_flag_only
               (afterAll g (setPhase g i Resolved (record u u s)))))
      as (Hps & -> & -> & -> & _ & ->).
    destruct (flag_only _ _ (afterAll_flag_only g (setPhase g i Resolved (record u u s))))
      as (Hps' & -> & -> & -> & _ & ->).
    rewrite (jobAt_frame g i _ _ Hps), (jobAt_frame g i _ _ Hps').
    assert (jobAt g i (record u u s) = Some {| jobUrl := u; phase := AwaitBlob |})
      as Hj' by (by rewrite <- Hj; apply jobAt_frame).
    by rewrite (jobAt_setPhase _ _ _ _ _ Hj').
  - destruct (flag_only _ _ (thresholdEffect_flag_only
               (afterAll g (setPhase g i Resolved
                  (record u (createObjectURL s).1 (createObjectURL s).2)))))
      as (Hps & -> & -> & -> & _ & ->).
    destruct (flag_only _ _ (afterAll_flag_only g (setPhase g i Resolved
                (record u (createObjectURL s).1 (createObjectURL s).2))))
      as (Hps' & -> & -> & -> & _ & ->).
    rewrite (jobAt_frame g i _ _ Hps), (jobAt_frame g i _ _ Hps').
    assert (jobAt g i (record u (createObjectURL s).1 (createObjectURL s).2)
            = Some {| jobUrl := u; phase := AwaitBlob |})
      as Hj' by (by rewrite <- Hj; apply jobAt_frame).
    by rewrite (jobAt_setPhase _ _ _ _ _ Hj').
Qed.

(** X13. An image that arrives, in a run that is not cancelled: the
    response alone stores and counts nothing and the request stays in
    flight; when its body has been read, a fresh object URL is created and
    stored under the URL of the card, the card is counted once and leaves
    the in-flight set, and the card shows the object URL without a
    skeleton.  If reading the body fails, the URL itself is stored, as for
    a failed request. *)
Theorem image_fetched (s : State) (g i : nat) (u : string) (cat : CatCard) :
  jobAt g i s = Some {| jobUrl := u; phase := AwaitFetch |} →
  passCancelled g s = false → url cat = u →
  let s1 := step s (FetchSettled g i (FetchResponse true)) in
  let s2 := step s1 (BlobSettled g i BlobReady) in
  let s2' := step s1 (BlobSettled g i BlobRejected) in
  (jobAt g i s1 = Some {| jobUrl := u; phase := AwaitBlob |} ∧
   imagePool s1 = imagePool s ∧ inFlight s1 = inFlight s ∧
   objectUrls s1 = objectUrls s ∧ readyCount s1 = readyCount s) ∧
  (jobAt g i s2 = Some {| jobUrl := u; phase := Resolved |} ∧
   imagePool s2 = <[u:="blob:" +:+ pretty (objectSeq s)]> (imagePool s) ∧
   objectUrls s2 = {["blob:" +:+ pretty (objectSeq s)]} ∪ objectUrls s ∧
   inFlight s2 = inFlight s ∖ {[u]} ∧
   readyCount s2 = readyCount s + 1 ∧
   displaySrc s2 cat = "blob:" +:+ pretty (objectSeq s) ∧
   isImageReady s2 cat = true) ∧
  (jobAt g i s2' = Some {| jobUrl := u; phase := Resolved |} ∧
   imagePool s2' = <[u:=u]> (imagePool s) ∧
   objectUrls s2' = objectUrls s ∧
   inFlight s2' = inFlight s ∖ {[u]} ∧
   readyCount s2' = readyCount s + 1).
Proof.
  intros Hj Hc Hcat.
  destruct (fetch_ok_step s g i u Hj) as (Hps & Hj1 & Hpool & Hfl & Hou & Hseq & Hrc).
  cbv zeta in *.
  set (s1 := step s (FetchSettled g i (FetchResponse true))) in *.
  assert (passCancelled g s1 = false) as Hc1.
  { rewrite (passCancelled_passes g _ _ Hps). by rewrite passCancelled_setPhase. }
  split; [done|]. split.
  - destruct (blob_step s1 g i u BlobReady Hj1 Hc1) as (Hj2 & Hpool2 & Hfl2 & Hou2 & Hrc2).
    cbv zeta in *. rewrite Hpool, Hfl, Hou, Hseq, Hrc in *.
    repeat split; try assumption.
    + unfold displaySrc, cachedSrc. by rewrite Hpool2, Hcat, lookup_insert_eq.
    + unfold isImageReady, cachedSrc. by rewrite Hpool2, Hcat, lookup_insert_eq.
  - destruct (blob_step s1 g i u BlobRejected Hj1 Hc1)
      as (Hj2 & Hpool2 & Hfl2 & Hou2 & Hrc2).
    cbv zeta in *. rewrite Hpool, Hfl, Hou, Hrc in *. done.
Qed.

Lemma image_fetched_witness :
  jobAt 0 1 (App "d")
  = Some {| jobUrl := "https://cataas.com/cat?width=560&height=720&format=jpg&deck=d-1";
            phase := AwaitFetch |} ∧
  passCancelled 0 (App "d") = false ∧
  let s1 := step (App "d") (FetchSettled 0 1 (FetchResponse true)) in
  let s2 := step s1 (BlobSettled 0 1 BlobReady) in
  imagePool s2 =
    <["https://cataas.com/cat?width=560&height=720&format=jpg&deck=d-1"
      :="blob:" +:+ pretty (objectSeq (App "d"))]> (imagePool (App "d")) ∧
  readyCount s2 = readyCount (App "d") + 1.
Proof.
  assert (jobAt 0 1 (App "d")
          = Some {| jobUrl := "https://cataas.com/cat?width=560&height=720&format=jpg&deck=d-1";
                    phase := AwaitFetch |}) as Hj by (vm_compute; reflexivity).
  assert (passCancelled 0 (App "d") = false) as Hc by (vm_compute; reflexivity).
  split; [exact Hj|]. split; [exact Hc|].
  destruct (image_fetched (App "d") 0 1 _
              {| id := "d-1";
                 url := "https://cataas.com/cat?width=560&height=720&format=jpg&deck=d-1" |}
              Hj Hc eq_refl) as (_ & (_ & Hpool & _ & _ & Hrc & _) & _).
  exact (conj Hpool Hrc).
Defined.

(** ** Unmounting *)

Lemma all_cancelled (g : nat) (s : State) :
  Forall (λ q, cancelled q = true) (passes s) → passCancelled g s = true.
Proof.
  intros Hall. unfold passCancelled. destruct (passes s !! g) as [p|] eqn:Hp; [|done].
  exact (Forall_lookup_1 (λ q, cancelled q = true) _ _ _ Hall Hp).
Qed.

Lemma setPhase_all_cancelled (g i : nat) (ph : Phase) (s : State) :
  Forall (λ q, cancelled q = true) (passes s) →
  Forall (λ q, cancelled q = true) (passes (setPhase g i ph s)).
Proof.
  intros Hall. unfold setPhase. cbn [passes upd_passes].
  apply Forall_alter; [done|]. by intros q _ Hq.
Qed.

Lemma prefetchCleanup_all_cancelled (s : State) (older : list Pass) (p : Pass) :
  passes s = older ++ [p] → Forall (λ q, cancelled q = true) older →
  Forall (λ q, cancelled q = true) (passes (prefetchCleanup s)).
Proof.
  intros Hp Hold. unfold prefetchCleanup, upd_passes. cbn [passes]. rewrite Hp.
  rewrite length_app, Nat.add_1_r. cbn [pred].
  rewrite <- (Nat.add_0_r (length older)), alter_app_r.
  apply Forall_app. split; [done|]. by repeat constructor.
Qed.

Lemma unmount_frame (s : State) :
  controller (unmount s) =
    (cats s, activeIndex s, liked s, swipeDirection s, dragX s, isAnimating s,
     None, timers (clearTimeout (timeoutRef s) s), timerSeq s) ∧
  passes (unmount s) = passes (prefetchCleanup s) ∧
  imagePool (unmount s) = ∅ ∧ inFlight (unmount s) = ∅ ∧
  readyCount (unmount s) = readyCount s ∧ isDeckReady (unmount s) = isDeckReady s.
Proof.
  unfold unmount. cbv zeta.
  set (s2 := upd_timeoutRef (λ _, None) (clearTimeout (timeoutRef s) s)).
  destruct (releasePool_cleared s2) as [Hpool Hfl].
  destruct (releasePool_frame s2) as (Hctl & Hps & _).
  rewrite (releasePool_eq s2). unfold prefetchCleanup, controller.
  cbn [cats activeIndex liked swipeDirection dragX isAnimating timeoutRef timers
       timerSeq passes imagePool inFlight readyCount isDeckReady
       upd_passes upd_inFlight upd_imagePool upd_objectUrls].
  unfold s2. by destruct (timeoutRef s).
Qed.

Lemma unmount_released (s : State) :
  run_inv s → live_blob s →
  (∀ u, u ∈ objectUrls s → ∃ k, imagePool s !! k = Some u) →
  released (unmount s).
Proof.
  intros (older & p & Hp & _ & Hold & _ & _ & _ & _ & Hown) Hlive Htight.
  destruct (unmount_frame s) as (Hctl & Hps & Hpool & Hfl & _).
  destruct (controller_fields _ _ _ _ _ _ _ _ _ _ Hctl) as (_ & _ & _ & _ & _ & _ & _ & Htm & _).
  unfold released. rewrite Htm, Hpool, Hfl, Hps.
  split; [by apply clearTimeout_owned|]. split; [done|]. split; [done|].
  split; [by apply unmount_objectUrls|].
  by apply (prefetchCleanup_all_cancelled s older p).
Qed.

Lemma settles_released (g i : nat) (s s' : State) :
  released s → settles g i s s' → controller s' = controller s →
  imagePool s' = imagePool s → objectUrls s' = objectUrls s →
  released s'.
Proof.
  intros (Htm & Hpool & Hfl & Hou & Hall) Hset Hctl Hpool' Hou'.
  destruct (controller_fields _ _ _ _ _ _ _ _ _ _ Hctl)
    as (_ & _ & _ & _ & _ & _ & _ & Htm' & _).
  unfold released. rewrite Htm', Hpool', Hou'.
  split; [done|]. split; [done|].
  destruct Hset as [-> | (u & ph & ph' & _ & _ & Hps & Hcase)]; [done|].
  split; [|split; [done|]].
  - destruct Hcase as [(_ & _ & -> & _) | (_ & -> & _)]; [done|]. set_solver.
  - rewrite Hps. by apply setPhase_all_cancelled.
Qed.

Lemma background_released (e : Event) (s : State) :
  background e = true → released s →
  released (handle e s) ∧ controller (handle e s) = controller s ∧
  readyCount (handle e s) = readyCount s ∧ isDeckReady (handle e s) = isDeckReady s.
Proof.
  intros He Hrel. pose proof Hrel as (Htm & _ & _ & _ & Hall).
  destruct e as [d|dx l| |t|deckId|g i r|g i r]; try discriminate He; cbn [handle].
  - unfold fireTimer. by rewrite Htm, lookup_empty.
  - destruct (fetchSettled_cancelled g i r s (all_cancelled g s Hall))
      as (Hrc & Hpool' & Hrd & Hou' & Hctl).
    split; [|done].
    exact (settles_released g i s _ Hrel (fetchSettled_settles g i r s) Hctl Hpool' Hou').
  - destruct (blobSettled_cancelled g i r s (all_cancelled g s Hall))
      as (Hrc & Hpool' & Hrd & Hou' & Hctl).
    split; [|done].
    exact (settles_released g i s _ Hrel (blobSettled_settles g i r s) Hctl Hpool' Hou').
Qed.

Lemma background_run (es : list Event) (s : State) :
  Forall (λ e, background e = true) es → released s →
  released (foldl (λ s0 e, handle e s0) s es) ∧
  controller (foldl (λ s0 e, handle e s0) s es) = controller s ∧
  readyCount (foldl (λ s0 e, handle e s0) s es) = readyCount s ∧
  isDeckReady (foldl (λ s0 e, handle e s0) s es) = isDeckReady s.
Proof.
  revert s. induction es as [|e es IH]; intros s Hes Hrel; [done|].
  apply Forall_cons in Hes as [He Hes].
  destruct (background_released e s He Hrel) as (Hrel' & Hctl & Hrc & Hrd).
  destruct (IH (handle e s) Hes Hrel') as (? & Hctl' & Hrc' & Hrd').
  cbn [foldl]. rewrite Hctl', Hrc', Hrd'. done.
Qed.

(** X14. The unmount cleanup, for a deck with pairwise different URLs:
    afterwards no timeout is pending, the pool and the in-flight set are
    empty, no object URL is live and every run of the prefetch effect is
    cancelled; and whatever timeouts come due or promises settle later,
    this stays so and no state of the component changes. *)
Theorem unmount_releases (deck : list CatCard) (s : State) (es : list Event) :
  reachable deck s → NoDup (url <$> deck) →
  Forall (λ e, background e = true) es →
  let s' := foldl (λ s0 e, handle e s0) (unmount s) es in
  timers s' = ∅ ∧ timeoutRef s' = None ∧
  imagePool s' = ∅ ∧ inFlight s' = ∅ ∧ objectUrls s' = ∅ ∧
  Forall (λ q, cancelled q = true) (passes s') ∧
  cats s' = cats s ∧ activeIndex s' = activeIndex s ∧ liked s' = liked s ∧
  readyCount s' = readyCount s ∧ isDeckReady s' = isDeckReady s.
Proof.
  intros Hs Hnd Hes. destruct (reachable_inv deck s Hs) as [Hinv _].
  pose proof (reachable_live_blob deck s Hs) as Hlive.
  destruct (reachable_tight_inv deck s Hnd Hs) as [_ Htight].
  pose proof (unmount_released s Hinv Hlive Htight) as Hrel.
  destruct (background_run es (unmount s) Hes Hrel)
    as ((Htm & Hpool & Hfl & Hou & Hall) & Hctl & Hrc & Hrd).
  destruct (unmount_frame s) as (Hctl0 & _ & _ & _ & Hrc0 & Hrd0).
  rewrite Hctl0 in Hctl.
  destruct (controller_fields _ _ _ _ _ _ _ _ _ _ Hctl)
    as (Hc & Hi & Hl & _ & _ & _ & Href & _).
  cbv zeta. rewrite Hrc, Hrd, Hrc0, Hrd0. repeat split; assumption.
Qed.

Lemma unmount_releases_witness :
  NoDup (url <$> generateDeck "d" TOTAL_CATS) ∧
  Forall (λ e, background e = true)
    [BlobSettled 0 0 BlobReady; FetchSettled 0 1 FetchRejected; TimerFired 0] ∧
  let s' := foldl (λ s0 e, handle e s0) (unmount run_three_of_twelve)
              [BlobSettled 0 0 BlobReady; FetchSettled 0 1 FetchRejected;
               TimerFired 0] in
  timers s' = ∅ ∧ timeoutRef s' = None ∧
  imagePool s' = ∅ ∧ inFlight s' = ∅ ∧ objectUrls s' = ∅ ∧
  Forall (λ q, cancelled q = true) (passes s') ∧
  cats s' = cats run_three_of_twelve ∧
  activeIndex s' = activeIndex run_three_of_twelve ∧
  liked s' = liked run_three_of_twelve ∧
  readyCount s' = readyCount run_three_of_twelve ∧
  isDeckReady s' = isDeckReady run_three_of_twelve.
Proof.
  assert (NoDup (url <$> generateDeck "d" TOTAL_CATS)) as Hnd
    by apply generateDeck_NoDup.
  assert (Forall (λ e, background e = true)
            [BlobSettled 0 0 BlobReady; FetchSettled 0 1 FetchRejected; TimerFired 0])
    as Hes by (repeat constructor).
  split; [exact Hnd|]. split; [exact Hes|].
  apply (unmount_releases (generateDeck "d" TOTAL_CATS) run_three_of_twelve _);
    [|exact Hnd|exact Hes].
  unfold run_three_of_twelve. apply reachable_run. constructor.
Defined.

(** ** How a run of the prefetch effect starts *)

Lemma mapJobs_inFlight_2 (g : nat) (deck : list CatCard) (s : State) (u : string) :
  u ∈ inFlight s ∨
  (∃ cat, cat ∈ deck ∧ url cat = u ∧ cacheHit (imagePool s) cat = false) →
  u ∈ inFlight (mapJobs g deck s).1.
Proof.
  revert s. induction deck as [|cat deck IH]; intros s; simpl.
  { intros [? | (cat & Hcat & _)]; [done|]. by apply elem_of_nil in Hcat. }
  rewrite startJob_eq. intros Hu.
  destruct (cacheHit (imagePool s) cat) eqn:Hhit.
  - assert (u ∈ inFlight s ∨
            ∃ cat', cat' ∈ deck ∧ url cat' = u ∧ cacheHit (imagePool s) cat' = false)
      as Hu'.
    { destruct Hu as [? | (cat' & Hcat' & ? & Hmiss)]; [by left|].
      apply elem_of_cons in Hcat' as [-> | ?]; [congruence|]. right. by exists cat'. }
    destruct (passCancelled g s).
    + specialize (IH s Hu'). by destruct (mapJobs g deck s).
    + specialize (IH (upd_readyCount (λ count, count + 1) s) Hu').
      by destruct (mapJobs g deck _).
  - specialize (IH (upd_inFlight (union {[url cat]}) s)).
    destruct (mapJobs g deck _) as [s2 jobs]. simpl in *. apply IH.
    destruct Hu as [? | (cat' & Hcat' & ? & Hmiss)]; [left; set_solver|].
    apply elem_of_cons in Hcat' as [-> | ?]; [left; set_solver|]. right. by exists cat'.
Qed.

Lemma prefetchEffect_inFlight_2 (s : State) (u : string) :
  (∃ cat, cat ∈ cats s ∧ url cat = u ∧ cacheHit (imagePool s) cat = false) →
  u ∈ inFlight (prefetchEffect s).
Proof.
  intros Hu. unfold prefetchEffect. cbv zeta.
  set (s3 := upd_readyCount _ _).
  change (cats s3) with (cats s).
  destruct (0 <? length (cats s)) eqn:Hlen.
  - unfold loadDeck.
    pose proof (mapJobs_inFlight_2 (length (passes s)) (cats s3) s3 u (or_intror Hu))
      as Hmap.
    destruct (mapJobs (length (passes s)) (cats s3) s3) as [s1 jobs].
    rewrite (proj1 (proj2 (proj2 (afterAll_resources _ _)))). exact Hmap.
  - destruct Hu as (cat & Hcat & _). apply Nat.ltb_ge in Hlen.
    destruct (cats s); [by apply elem_of_nil in Hcat | simpl in Hlen; lia].
Qed.

Lemma cold_start (s : State) :
  imagePool s = ∅ → inFlight s = ∅ →
  cats s ≠ [] → Forall (λ cat, url cat ≠ "") (cats s) →
  liveJobs (thresholdEffect (prefetchEffect s)) = allRequested (cats s) ∧
  (∀ u, u ∈ inFlight (thresholdEffect (prefetchEffect s)) ↔ u ∈ url <$> cats s) ∧
  imagePool (thresholdEffect (prefetchEffect s)) = ∅ ∧
  readyCount (thresholdEffect (prefetchEffect s)) = 0 ∧
  isDeckReady (thresholdEffect (prefetchEffect s)) = false ∧
  controller (thresholdEffect (prefetchEffect s)) = controller s.
Proof.
  intros Hpool Hfl Hne Hurls.
  assert (Forall (λ cat, cacheHit (imagePool s) cat = false) (cats s)) as Hmiss.
  { rewrite Hpool. eapply Forall_impl; [exact Hurls|]. intros cat. apply cacheHit_empty. }
  destruct (prefetch_all_missed s Hne Hmiss) as (Hctl & Hpool' & Hrc & Hrd & Hjobs).
  rewrite Hpool', Hpool. repeat split; try assumption.
  - rewrite thresholdEffect_inFlight. intros Hu.
    apply prefetchEffect_inFlight in Hu as [Hu | (cat & Hcat & <- & _)].
    + rewrite Hfl in Hu. set_solver.
    + by apply list_elem_of_fmap_2.
  - rewrite thresholdEffect_inFlight. intros Hu.
    apply list_elem_of_fmap in Hu as (cat & -> & Hcat).
    apply prefetchEffect_inFlight_2. exists cat. split; [done|]. split; [done|].
    exact (proj1 (Forall_forall _ _) Hmiss cat Hcat).
Qed.

Lemma loading_screen (s : State) : isDeckReady s = false → screen s = loading.
Proof. unfold screen. by intros ->. Qed.

(** X15. Every run of the prefetch effect starts cold: on mount of a deck
    of cards that all have a URL, and after every reset, the pool is empty,
    so no card is a cache hit, one request per card is in flight, nothing
    is counted and the loading screen shows. *)
Theorem prefetch_cold_start (deck : list CatCard) (s : State) (deckId : string) :
  (deck ≠ [] → Forall (λ cat, url cat ≠ "") deck →
   liveJobs (mount deck) = allRequested deck ∧
   (∀ u, u ∈ inFlight (mount deck) ↔ u ∈ url <$> deck) ∧
   imagePool (mount deck) = ∅ ∧ readyCount (mount deck) = 0 ∧
   screen (mount deck) = loading) ∧
  (screen s = summary →
   liveJobs (step s (StartOver deckId))
   = allRequested (generateDeck deckId TOTAL_CATS) ∧
   (∀ u, u ∈ inFlight (step s (StartOver deckId))
         ↔ u ∈ url <$> generateDeck deckId TOTAL_CATS) ∧
   imagePool (step s (StartOver deckId)) = ∅ ∧
   readyCount (step s (StartOver deckId)) = 0 ∧
   screen (step s (StartOver deckId)) = loading).
Proof.
  split.
  - intros Hne Hurls. unfold mount.
    destruct (cold_start (initial deck) eq_refl eq_refl Hne Hurls)
      as (Hjobs & Hfl & Hpool & Hrc & Hrd & _).
    repeat split; try assumption; try apply Hfl. by apply loading_screen.
  - intros Hsum. rewrite (step_StartOver deckId s Hsum). unfold startOver.
    pose proof (prefetchCleanup_frame (resetDeck deckId s)) as (Hctl & Hpool & _).
    pose proof (resetDeck_controller deckId s) as (Hctl0 & Hpool0 & Hfl0 & _).
    rewrite Hctl0 in Hctl.
    destruct (controller_fields _ _ _ _ _ _ _ _ _ _ Hctl) as (Hcats & _).
    rewrite Hpool0 in Hpool.
    assert (inFlight (prefetchCleanup (resetDeck deckId s)) = ∅) as Hfl
      by (by rewrite prefetchCleanup_inFlight).
    assert (cats (prefetchCleanup (resetDeck deckId s)) ≠ []) as Hne
      by (by rewrite Hcats).
    assert (Forall (λ cat, url cat ≠ "") (cats (prefetchCleanup (resetDeck deckId s))))
      as Hurls.
    { rewrite Hcats. eapply Forall_impl; [apply generateDeck_remote|].
      by intros cat [? _]. }
    destruct (cold_start _ Hpool Hfl Hne Hurls) as (Hjobs & Hfl' & Hpool' & Hrc & Hrd & _).
    rewrite Hcats in Hjobs, Hfl'.
    repeat split; try assumption; try apply Hfl'. by apply loading_screen.
Qed.

Lemma prefetch_cold_start_witness :
  (generateDeck "d" 2 ≠ [] ∧ Forall (λ cat, url cat ≠ "") (generateDeck "d" 2) ∧
   liveJobs (mount (generateDeck "d" 2)) = allRequested (generateDeck "d" 2) ∧
   (∀ u, u ∈ inFlight (mount (generateDeck "d" 2)) ↔ u ∈ url <$> generateDeck "d" 2) ∧
   imagePool (mount (generateDeck "d" 2)) = ∅ ∧
   readyCount (mount (generateDeck "d" 2)) = 0 ∧
   screen (mount (generateDeck "d" 2)) = loading) ∧
  (screen run_summary_outstanding = summary ∧
   liveJobs (step run_summary_outstanding (StartOver "e"))
   = allRequested (generateDeck "e" TOTAL_CATS) ∧
   (∀ u, u ∈ inFlight (step run_summary_outstanding (StartOver "e"))
         ↔ u ∈ url <$> generateDeck "e" TOTAL_CATS) ∧
   imagePool (step run_summary_outstanding (StartOver "e")) = ∅ ∧
   readyCount (step run_summary_outstanding (StartOver "e")) = 0 ∧
   screen (step run_summary_outstanding (StartOver "e")) = loading).
Proof.
  assert (generateDeck "d" 2 ≠ []) as Hne by (vm_compute; discriminate).
  assert (Forall (λ cat, url cat ≠ "") (generateDeck "d" 2)) as Hurls
    by (vm_compute; repeat constructor; discriminate).
  assert (screen run_summary_outstanding = summary) as Hsum
    by (vm_compute; reflexivity).
  destruct (prefetch_cold_start (generateDeck "d" 2) run_summary_outstanding "e")
    as [Hmount Hreset].
  split.
  - split; [exact Hne|]. split; [exact Hurls|]. exact (Hmount Hne Hurls).
  - split; [exact Hsum|]. exact (Hreset Hsum).
Defined.

(** ** The in-flight set is never read *)

Lemma withoutInFlight_thresholdEffect (s : State) :
  withoutInFlight (thresholdEffect s) = thresholdEffect (withoutInFlight s).
Proof.
  unfold thresholdEffect, withoutInFlight. cbn [isDeckReady cats readyCount upd_inFlight].
  by destruct (negb (isDeckReady s) &&
               (0 <? Nat.min INITIAL_READY_COUNT (length (cats s))) &&
               (Nat.min INITIAL_READY_COUNT (length (cats s)) <=? readyCount s)).
Qed.

Lemma withoutInFlight_afterAll (g : nat) (s : State) :
  withoutInFlight (afterAll g s) = afterAll g (withoutInFlight s).
Proof.
  unfold afterAll, withoutInFlight. cbn [passes upd_inFlight].
  destruct (passes s !! g) as [p|]; [|done].
  by destruct (forallb isResolved (fetchJobs p) && negb (cancelled p)).
Qed.

Lemma withoutInFlight_handleChoice (direction : Direction) (s : State) :
  withoutInFlight (handleChoice direction s) = handleChoice direction (withoutInFlight s).
Proof.
  unfold handleChoice, withoutInFlight, currentCat.
  cbn [cats activeIndex isAnimating isDeckReady upd_inFlight].
  destruct (cats s !! activeIndex s); [|done].
  destruct (isAnimating s || negb (isDeckReady s)); [done|].
  unfold clearTimeout. simpl. by destruct (timeoutRef s).
Qed.

Lemma withoutInFlight_fireTimer (t : nat) (s : State) :
  withoutInFlight (fireTimer t s) = fireTimer t (withoutInFlight s).
Proof.
  unfold fireTimer, withoutInFlight. cbn [timers upd_inFlight].
  by destruct (timers s !! t) as [[[] cat]|].
Qed.

Lemma withoutInFlight_onSwiping (deltaX : Z) (dirLeft : bool) (s : State) :
  withoutInFlight (onSwiping deltaX dirLeft s)
  = onSwiping deltaX dirLeft (withoutInFlight s).
Proof.
  unfold onSwiping, withoutInFlight, currentCat.
  cbn [cats activeIndex isAnimating upd_inFlight].
  destruct (cats s !! activeIndex s); [|done]. by destruct (isAnimating s).
Qed.

Lemma withoutInFlight_onSwiped (s : State) :
  withoutInFlight (onSwiped s) = onSwiped (withoutInFlight s).
Proof.
  unfold onSwiped, withoutInFlight. cbn [swipeDirection upd_inFlight].
  by destruct (swipeDirection s).
Qed.

Lemma withoutInFlight_fetchSettled (g i : nat) (r : FetchResult) (s : State) :
  withoutInFlight (fetchSettled g i r s)
  = withoutInFlight (fetchSettled g i r (withoutInFlight s)).
Proof.
  unfold fetchSettled. change (jobAt g i (withoutInFlight s)) with (jobAt g i s).
  destruct (jobAt g i s) as [[u []]|]; try done.
  destruct (fetchFailed r) eqn:Hr.
  - rewrite !afterFetch_failed by done. cbv zeta.
    change (passCancelled g (withoutInFlight s)) with (passCancelled g s).
    rewrite !withoutInFlight_afterAll. by destruct (passCancelled g s).
  - destruct r as [|[]]; try done. rewrite !afterFetch_ok. cbv zeta.
    by rewrite !withoutInFlight_afterAll.
Qed.

Lemma withoutInFlight_blobSettled (g i : nat) (r : BlobResult) (s : State) :
  withoutInFlight (blobSettled g i r s)
  = withoutInFlight (blobSettled g i r (withoutInFlight s)).
Proof.
  unfold blobSettled. change (jobAt g i (withoutInFlight s)) with (jobAt g i s).
  destruct (jobAt g i s) as [[u []]|]; try done.
  destruct r; [rewrite !afterBlob_rejected | rewrite !afterBlob_ready]; cbv zeta;
    change (passCancelled g (withoutInFlight s)) with (passCancelled g s);
    rewrite !withoutInFlight_afterAll; by destruct (passCancelled g s).
Qed.

Lemma resetDeck_withoutInFlight (deckId : string) (s : State) :
  resetDeck deckId (withoutInFlight s) = resetDeck deckId s.
Proof.
  rewrite !resetDeck_eq.
  assert (objectUrls (releasePool (clearTimeout (timeoutRef (withoutInFlight s))
                                     (withoutInFlight s)))
          = objectUrls (releasePool (clearTimeout (timeoutRef s) s))) as ->.
  { apply set_eq. intros u. rewrite !releasePool_live.
    change (timeoutRef (withoutInFlight s)) with (timeoutRef s).
    by destruct (timeoutRef s). }
  change (timeoutRef (withoutInFlight s)) with (timeoutRef s).
  by destruct (timeoutRef s).
Qed.

Lemma withoutInFlight_handle (e : Event) (s : State) :
  withoutInFlight (handle e s) = withoutInFlight (handle e (withoutInFlight s)).
Proof.
  destruct e as [d|dx l| |t|deckId|g i r|g i r]; cbn [handle].
  - by rewrite <- withoutInFlight_handleChoice.
  - by rewrite <- withoutInFlight_onSwiping.
  - by rewrite <- withoutInFlight_onSwiped.
  - by rewrite <- withoutInFlight_fireTimer.
  - change (screen (withoutInFlight s)) with (screen s).
    destruct (screen s); try reflexivity.
    unfold startOver. by rewrite resetDeck_withoutInFlight.
  - apply withoutInFlight_fetchSettled.
  - apply withoutInFlight_blobSettled.
Qed.

Lemma withoutInFlight_step (s : State) (e : Event) :
  withoutInFlight (step s e) = withoutInFlight (step (withoutInFlight s) e).
Proof.
  unfold step. rewrite !withoutInFlight_thresholdEffect.
  by rewrite withoutInFlight_handle.
Qed.

(** X16. The in-flight set is written but never read: states that differ
    in nothing but that set are taken by every sequence of events to
    states that differ in nothing but that set.  It prevents no request
    and changes no outcome. *)
Theorem inFlight_never_read (s s' : State) (es : list Event) :
  withoutInFlight s = withoutInFlight s' →
  withoutInFlight (run s es) = withoutInFlight (run s' es).
Proof.
  revert s s'. induction es as [|e es IH]; intros s s' Heq; [done|].
  cbn [run foldl]. apply IH.
  by rewrite (withoutInFlight_step s), (withoutInFlight_step s'), Heq.
Qed.

Lemma inFlight_never_read_witness :
  withoutInFlight (App "d") = withoutInFlight (withoutInFlight (App "d")) ∧
  withoutInFlight (run (App "d") [FetchSettled 0 0 FetchRejected; Choice DirRight])
  = withoutInFlight (run (withoutInFlight (App "d"))
                       [FetchSettled 0 0 FetchRejected; Choice DirRight]).
Proof.
  assert (withoutInFlight (App "d") = withoutInFlight (withoutInFlight (App "d")))
    as Heq by reflexivity.
  split; [exact Heq|].
  exact (inFlight_never_read (App "d") (withoutInFlight (App "d")) _ Heq).
Defined.

(** ** The pool and the renders *)

Lemma thresholdEffect_version (s : State) : version (thresholdEffect s) = version s.
Proof. by destruct (thresholdEffect_cases s) as [-> | [_ ->]]. Qed.

Lemma fetchSettled_version (g i : nat) (r : FetchResult) (s : State) :
  imagePool (fetchSettled g i r s) = imagePool s ∨
  version (fetchSettled g i r s) = version s + 1.
Proof.
  unfold fetchSettled. destruct (jobAt g i s) as [[u []]|]; try by left.
  destruct (fetchFailed r) eqn:Hr.
  - rewrite afterFetch_failed by done. cbv zeta.
    destruct (afterAll_cases g (setPhase g i (settlePromise (Normal Resolved))
      (if passCancelled g s then discard u s else record u u s)))
      as [-> | (_ & _ & _ & _ & ->)];
    destruct (passCancelled g s); (by left) || (by right).
  - destruct r as [|[]]; try done. rewrite afterFetch_ok. cbv zeta. left.
    by destruct (afterAll_cases g (setPhase g i (settlePromise (Normal AwaitBlob)) s))
      as [-> | (_ & _ & _ & _ & ->)].
Qed.

Lemma blobSettled_version (g i : nat) (r : BlobResult) (s : State) :
  imagePool (blobSettled g i r s) = imagePool s ∨
  version (blobSettled g i r s) = version s + 1.
Proof.
  unfold blobSettled. destruct (jobAt g i s) as [[u []]|]; try by left.
  destruct r; [rewrite afterBlob_rejected | rewrite afterBlob_ready]; cbv zeta.
  - destruct (afterAll_cases g (setPhase g i (settlePromise (Normal Resolved))
      (if passCancelled g s then discard u s else record u u s)))
      as [-> | (_ & _ & _ & _ & ->)];
    destruct (passCancelled g s); (by left) || (by right).
  - destruct (afterAll_cases g (setPhase g i (settlePromise (Normal Resolved))
      (if passCancelled g s then discard u s
       else record u (createObjectURL s).1 (createObjectURL s).2)))
      as [-> | (_ & _ & _ & _ & ->)];
    destruct (passCancelled g s); (by left) || (by right).
Qed.

Lemma summary_complete (s : State) :
  screen s = summary → length (cats s) ≤ activeIndex s.
Proof.
  unfold screen, isComplete. destruct (isDeckReady s); [|done]. cbn [negb].
  destruct (length (cats s) <=? activeIndex s) eqn:Hlen; [|done].
  intros _. by apply Nat.leb_le.
Qed.

(** X17. The view is never stale: the pool is a ref, whose changes alone
    cause no render, but every event that changes it also changes React
    state, the version counter when an image is stored and the deck or the
    index on a reset, so a render follows every change of the pool. *)
Theorem pool_change_rerenders (s : State) (e : Event) :
  imagePool (step s e) ≠ imagePool s →
  version (step s e) = version s + 1 ∨
  cats (step s e) ≠ cats s ∨ activeIndex (step s e) ≠ activeIndex s.
Proof.
  unfold step. rewrite thresholdEffect_imagePool, thresholdEffect_version.
  pose proof (thresholdEffect_controller (handle e s)) as Hctl.
  destruct (controller_fields _ _ _ _ _ _ _ _ _ _ Hctl) as (-> & -> & _).
  destruct e as [d|dx l| |t|deckId|g i r|g i r]; cbn [handle]; intros Hpool.
  - by destruct Hpool; apply handleChoice_frame.
  - by destruct Hpool; apply onSwiping_frame.
  - by destruct Hpool; apply onSwiped_frame.
  - by destruct Hpool; apply fireTimer_frame.
  - destruct (screen s) eqn:Hscreen; try done. right.
    apply summary_complete in Hscreen.
    pose proof (startOver_cats deckId s) as Hcats.
    destruct (activeIndex s) as [|n] eqn:Hidx.
    + left. intros Heq. rewrite Hcats in Heq. apply (f_equal length) in Heq.
      rewrite generateDeck_length in Heq. unfold TOTAL_CATS in Heq. lia.
    + right. unfold startOver.
      destruct (prefetchEffect_spec (prefetchCleanup (resetDeck deckId s)))
        as (_ & Hctl' & _).
      rewrite (proj1 (prefetchCleanup_frame (resetDeck deckId s))) in Hctl'.
      rewrite (proj1 (resetDeck_controller deckId s)) in Hctl'.
      by destruct (controller_fields _ _ _ _ _ _ _ _ _ _ Hctl') as (_ & -> & _).
  - destruct (fetchSettled_version g i r s); [done | by left].
  - destruct (blobSettled_version g i r s); [done | by left].
Qed.

Lemma pool_change_rerenders_witness :
  imagePool (step (App "d") (FetchSettled 0 0 FetchRejected)) ≠ imagePool (App "d") ∧
  (version (step (App "d") (FetchSettled 0 0 FetchRejected)) = version (App "d") + 1 ∨
   cats (step (App "d") (FetchSettled 0 0 FetchRejected)) ≠ cats (App "d") ∨
   activeIndex (step (App "d") (FetchSettled 0 0 FetchRejected))
   ≠ activeIndex (App "d")).
Proof.
  assert (imagePool (step (App "d") (FetchSettled 0 0 FetchRejected))
          ≠ imagePool (App "d")) as Hpool.
  { intros Heq.
    apply (f_equal (λ pool : gmap string string,
             pool !! "https://cataas.com/cat?width=560&height=720&format=jpg&deck=d-0"))
      in Heq.
    vm_compute in Heq. discriminate Heq. }
  split; [exact Hpool|].
  exact (pool_change_rerenders (App "d") (FetchSettled 0 0 FetchRejected) Hpool).
Defined.
